(** * plexsync: the reconciliation and aggregation engine of [plex_sync.py]

    A shallow embedding of the parts of [src/plex_sync.py] that decide how
    catalog items become rows, how leaf rows are folded into parent
    aggregates, how availability is reconciled, and how the schema is
    migrated.

    Conventions.
    - Python [int] is [Z]; [None] is [VNull] (or [None] of an [option]);
      a tuple handed to [executemany] is a [list value], indexed by
      position exactly as the source indexes it.
    - The SQLite connection is a pair of databases: [durable] (what a reader
      of the file sees, what survives the process) and [live] (what this
      connection sees inside its open transaction).  [conn.commit()] copies
      [live] to [durable].
    - A statement either succeeds or raises; a raised exception leaves the
      state as it was when it was raised.  The part of SQLite that is
      modelled: existence of tables and columns, the number of values of an
      INSERT against its column list, replacement on the INTEGER PRIMARY
      KEY, UPDATE with the WHERE clauses the source writes.  Foreign keys,
      NOT NULL, type affinity and the limit on bound variables are not
      modelled.  [search_fts] is the list of the rows inserted into it; the
      source declares it contentless ([content='']), which lets rows in and
      makes every UPDATE of it raise.
    - Two library calls are taken as parameters: the MD5 hex digest, and the
      rendering [f"{a / b:.2f}"] of a float quotient.
    - Logging, progress lines and the thumbnail downloads write nothing that
      the rows depend on and are left out; of the image pipeline only the
      lists of scheduled downloads are kept, each entry named by the rating
      key of its item. *)

From Stdlib Require Import ZArith QArith Ascii String DecimalString.
From stdpp Require Import gmap strings list sorting.

Open Scope string_scope.
Open Scope list_scope.
Open Scope Z_scope.

(** ** Values *)

(** What a tuple element or a stored cell can hold. *)
Inductive value :=
| VNull
| VInt (z : Z)
| VText (s : string)
| VReal (q : Q).

Global Instance value_inhabited : Inhabited value := populate VNull.

Abbreviation tuple := (list value).

Definition of_int (o : option Z) : value :=
  match o with Some z => VInt z | None => VNull end.

Definition of_text (o : option string) : value :=
  match o with Some s => VText s | None => VNull end.

(** [t[i]] for an element the source reads as an integer. *)
Definition tuple_int (t : tuple) (i : nat) : Z :=
  match t !! i with Some (VInt z) => z | _ => 0 end.

(** [str(z)] *)
Definition str_of_int (z : Z) : string := NilZero.string_of_int (Z.to_int z).

(** Python truthiness of the attributes the source tests. *)
Definition truthy_int (o : option Z) : bool :=
  match o with Some z => negb (z =? 0) | None => false end.

Definition truthy_text (o : option string) : bool :=
  match o with Some s => negb (String.eqb s "") | None => false end.

(** [x or 0] *)
Definition or_zero (o : option Z) : Z :=
  match o with Some z => z | None => 0 end.

(** ** Formatting helpers *)

(** [round(s / k)] for integers [s] and [k > 0]: Python 3 rounds the float
    quotient to the nearest integer, ties to even.  The rounding is computed
    here on integers.  For [k = 60] the two agree as long as the quotient
    stays below 2^48: there the float quotient is within 1/64 of the
    rational one, which is a tie or at least 1/60 away from one, and a tie
    is a float.  Durations below 2^53 ms are well inside that range;
    beyond it the source may round to a neighbour. *)
Definition round_div (s k : Z) : Z :=
  let q := s / k in
  let r := s mod k in
  if 2 * r <? k then q
  else if k <? 2 * r then q + 1
  else if Z.even q then q else q + 1.

(** [human_readable_duration], split into the minute count and its
    rendering. *)
Definition duration_minutes (total_milliseconds : Z) : Z :=
  let total_seconds := total_milliseconds / 1000 in
  let total_minutes := round_div total_seconds 60 in
  if (total_minutes =? 0) && (0 <? total_seconds) then 1 else total_minutes.

Definition human_readable_duration (total_milliseconds : Z) : string :=
  let total_minutes := duration_minutes total_milliseconds in
  str_of_int total_minutes +:+ " min" +:+ (if total_minutes =? 1 then "" else "s").

Fixpoint string_map (f : ascii -> ascii) (s : string) : string :=
  match s with
  | EmptyString => EmptyString
  | String c r => String (f c) (string_map f r)
  end.

Fixpoint string_forall (p : ascii -> bool) (s : string) : bool :=
  match s with
  | EmptyString => true
  | String c r => p c && string_forall p r
  end.

Definition ascii_in (lo hi : N) (c : ascii) : bool :=
  ((lo <=? N_of_ascii c) && (N_of_ascii c <=? hi))%N.

Definition ascii_lower (c : ascii) : ascii :=
  if ascii_in 65 90 c then ascii_of_N (N_of_ascii c + 32) else c.

Definition ascii_upper (c : ascii) : ascii :=
  if ascii_in 97 122 c then ascii_of_N (N_of_ascii c - 32) else c.

(** [str.isdigit()] on ASCII text: non-empty and all digits. *)
Definition isdigit (s : string) : bool :=
  negb (String.eqb s "") && string_forall (ascii_in 48 57) s.

Definition format_resolution (resolution : option string) : option string :=
  match resolution with
  | None => None
  | Some r =>
      let r := string_map ascii_lower r in
      if String.eqb r "4k" then Some "2160p"
      else if isdigit r then Some (r +:+ "p")
      else Some r
  end.

Definition format_codec (codec : option string) : option string :=
  match codec with
  | None => None
  | Some c => Some (string_map ascii_upper c)
  end.

(** [f"{x}"] of an optional attribute. *)
Definition fmt_text (o : option string) : string :=
  match o with Some s => s | None => "None" end.

Definition fmt_int (o : option Z) : string :=
  match o with Some z => str_of_int z | None => "None" end.

(** [min] and [max] of a non-empty list given as head and tail. *)
Definition list_min (x : Z) (l : list Z) : Z := fold_left Z.min l x.
Definition list_max (x : Z) (l : list Z) : Z := fold_left Z.max l x.

(** [len(set(l)) == 1] for a non-empty [l]: all elements equal the head. *)
Definition all_equal (x : Z) (l : list Z) : bool := forallb (Z.eqb x) l.

Definition format_year_range (years : list (option Z)) : option string :=
  let valid_years := omap (fun y : option Z => if truthy_int y then y else None) years in
  match valid_years with
  | [] => None
  | y :: ys =>
      if all_equal y ys then Some (str_of_int y)
      else Some (str_of_int (list_min y ys) +:+ "-" +:+ str_of_int (list_max y ys))
  end.

(** [sorted(set(l))] on strings: insertion into a strictly increasing
    list. *)
Fixpoint insert_sorted (s : string) (l : list string) : list string :=
  match l with
  | [] => [s]
  | x :: r =>
      if String.eqb s x then l
      else if String.ltb s x then s :: l
      else x :: insert_sorted s r
  end.

Definition sorted_set (l : list string) : list string :=
  fold_right insert_sorted [] l.

Fixpoint join (sep : string) (l : list string) : string :=
  match l with
  | [] => ""
  | [x] => x
  | x :: r => x +:+ sep +:+ join sep r
  end.

(** [", ".join(sorted(set([c for c in l if c])))] *)
Definition join_unique (l : list (option string)) : string :=
  join ", " (sorted_set (omap (fun c => if truthy_text c then c else None) l)).

(** [needle in haystack] on strings. *)
Fixpoint contains (needle haystack : string) : bool :=
  String.prefix needle haystack ||
  match haystack with
  | EmptyString => false
  | String _ r => contains needle r
  end.

(** ** Exceptions and outcomes *)

Inductive exn :=
| OperationalError (msg : string)
| ProgrammingError (msg : string)
| IntegrityError (msg : string)
| UnboundLocalError (name : string)
| TypeError (msg : string)
| ValueError (msg : string)
| OverflowError (msg : string).

Inductive outcome (A : Type) :=
| Ok (a : A)
| Raise (e : exn).
Arguments Ok {A} a.
Arguments Raise {A} e.

(** ** Catalog items

    The attributes of the plexapi objects that the source reads.  Rating keys
    arrive as Python ints (plexapi casts them), on which
    [validate_rating_key] is the identity.  The lists of children are what
    [fetch_with_retry] hands back: the fetched list, or [[]] once the
    attempts are exhausted.  For the seasons of a show and the episodes of
    a season the call may also have failed otherwise: then it is the
    exception that [fetch_with_retry] lets through. *)

(** What the [extract_*] helpers return for an item; descriptive only. *)
Record metadata := {
  summary : value;
  tagline : value;
  genres : value;
  studio : value;
  directors : value;
  writers : value;
  producers : value;
  actors : value;
  originally_available : value;
  rating : value;
  audience_rating : value
}.

Record part := {
  part_size : option Z;
  part_container : option string
}.

Record media := {
  audioCodec : option string;
  videoCodec : option string;
  videoResolution : option string;
  media_container : option string;
  media_duration : option Z;
  parts : list part
}.

Record movie := {
  movie_ratingKey : Z;
  movie_title : option string;
  movie_year : option Z;
  movie_contentRating : option string;
  movie_duration : option Z;
  movie_media : list media;
  movie_meta : metadata
}.

Record episode := {
  episode_ratingKey : Z;
  episode_index : option Z;
  episode_title : option string;
  episode_year : option Z;
  episode_duration : option Z;
  episode_media : list media;
  episode_meta : metadata
}.

Record season := {
  season_ratingKey : Z;
  seasonNumber : option Z;
  season_title : option string;
  season_episodes : outcome (list episode);
  season_meta : metadata
}.

Record show := {
  show_ratingKey : Z;
  show_title : option string;
  show_contentRating : option string;
  show_duration : option Z;
  seasonCount : option Z;
  show_seasons : outcome (list season);
  show_meta : metadata
}.

Record track := {
  track_ratingKey : Z;
  track_title : option string;
  track_index : option Z;
  track_media : list media;
  track_meta : metadata
}.

Record album := {
  album_ratingKey : Z;
  album_title : option string;
  album_year : option Z;
  album_tracks : list track;
  album_meta : metadata
}.

Record artist := {
  artist_ratingKey : Z;
  artist_title : option string;
  artist_albums : list album;
  artist_meta : metadata
}.

(** The two global settings, fixed for a run by [main]. *)
Record settings := {
  USE_PARALLEL : bool;
  DOWNLOAD_IMAGES : bool
}.

Definition SCHEMA_VERSION : Z := 3.

(** ** The listing of a library *)

(** One call of a catalog listing, as the retry loops tell them apart. *)
Inductive attempt (A : Type) :=
| Fetched (a : A)
| Transient.
Arguments Fetched {A} a.
Arguments Transient {A}.

(** The retry loop at the head of each [process_*]: up to [max_retries]
    calls; the first that returns wins; [None] when every call timed out. *)
Fixpoint fetch_library {A} (max_retries : nat) (calls : list (attempt A)) : option A :=
  match max_retries, calls with
  | S n, Fetched a :: _ => Some a
  | S n, Transient :: rest => fetch_library n rest
  | _, _ => None
  end.

(** ** The database *)

(** A stored row: column name to cell; an absent column reads as NULL. *)
Abbreviation row := (gmap string value).

Record table := {
  columns : list string;
  primary_key : string;
  rows : gmap Z row
}.

Record database := {
  tables : gmap string table;
  (** the FTS5 virtual table, when it was created: the rows inserted into
      it, in order *)
  search_fts : option (list row);
  (** the [version] column of the [schema_version] table *)
  schema_version : option (list Z);
  indexes : gset string
}.

Record connection := {
  durable : database;
  live : database;
  (** whether this SQLite build has the fts5 module *)
  fts5_module : bool
}.

Definition set_live (c : connection) (d : database) : connection :=
  {| durable := durable c; live := d; fts5_module := fts5_module c |}.

(** [conn.commit()] *)
Definition commit (c : connection) : connection :=
  {| durable := live c; live := live c; fts5_module := fts5_module c |}.

Definition set_table (d : database) (name : string) (t : table) : database :=
  {| tables := <[name := t]> (tables d);
     search_fts := search_fts d;
     schema_version := schema_version d;
     indexes := indexes d |}.

Definition set_search_fts (d : database) (f : option (list row)) : database :=
  {| tables := tables d;
     search_fts := f;
     schema_version := schema_version d;
     indexes := indexes d |}.

Definition set_schema_rows (d : database) (v : option (list Z)) : database :=
  {| tables := tables d;
     search_fts := search_fts d;
     schema_version := v;
     indexes := indexes d |}.

Definition add_index (d : database) (name : string) : database :=
  {| tables := tables d;
     search_fts := search_fts d;
     schema_version := schema_version d;
     indexes := {[name]} ∪ indexes d |}.

Definition set_rows (t : table) (r : gmap Z row) : table :=
  {| columns := columns t; primary_key := primary_key t; rows := r |}.

Definition has_column (t : table) (c : string) : bool :=
  bool_decide (c ∈ columns t).

(** The rows of a table in the order of a scan: by increasing key. *)
Definition key_le (a b : Z * row) : Prop := a.1 ≤ b.1.

Global Instance key_le_dec : RelDecision key_le.
Proof. intros a b. unfold key_le. apply _. Defined.

Definition scan (t : table) : list row :=
  (merge_sort key_le (map_to_list (rows t))).*2.

(** Statements run against the live database of a connection. *)
Definition db_op (A : Type) : Type := connection -> connection * outcome A.

Definition ret {A} (a : A) : db_op A := fun c => (c, Ok a).

Definition bind {A B} (m : db_op A) (k : A -> db_op B) : db_op B :=
  fun c =>
    match m c with
    | (c1, Ok a) => k a c1
    | (c1, Raise e) => (c1, Raise e)
    end.

Notation "'let*' x ':=' m 'in' k" := (bind m (fun x => k))
  (at level 100, x pattern, m at next level, right associativity).
Notation "m ;;; k" := (bind m (fun _ => k))
  (at level 100, right associativity).

(** [cursor.execute(stmt)] for a statement given by its effect on the
    database. *)
Definition execute (stmt : database -> outcome database) : db_op unit :=
  fun c =>
    match stmt (live c) with
    | Ok d => (set_live c d, Ok tt)
    | Raise e => (c, Raise e)
    end.

Definition do_commit : db_op unit := fun c => (commit c, Ok tt).

(** [try: m except sqlite3.OperationalError: pass] *)
Definition try_operational (m : db_op unit) : db_op unit :=
  fun c =>
    match m c with
    | (c1, Raise (OperationalError _)) => (c1, Ok tt)
    | r => r
    end.

(** *** SQL comparisons *)

(** [col = n] *)
Definition sql_eq_int (cell : option value) (n : Z) : bool :=
  match cell with
  | Some (VInt z) => z =? n
  | Some (VReal q) => Qeq_bool q (inject_Z n)
  | _ => false
  end.

(** [col = ?] bound to a string *)
Definition sql_eq_text (cell : option value) (s : string) : bool :=
  match cell with
  | Some (VText x) => String.eqb x s
  | _ => false
  end.

(** [col NOT IN (k1, ..., kn)]: NULL for a NULL cell, which WHERE rejects. *)
Definition sql_not_in (cell : option value) (keys : list Z) : bool :=
  match cell with
  | None | Some VNull => false
  | Some (VInt z) => negb (bool_decide (z ∈ keys))
  | Some (VReal q) => negb (existsb (fun k => Qeq_bool q (inject_Z k)) keys)
  | Some (VText _) => true
  end.

(** [SET available = 0] *)
Definition set_unavailable (r : row) : row := <["available" := VInt 0]> r.

(** Which rows the UPDATE of [mark_unavailable] selects: with no seen keys
    [WHERE available = 1], otherwise
    [WHERE key_column NOT IN (...) AND available = 1]. *)
Definition selected (key_column : string) (seen_keys : list Z) (r : row) : bool :=
  match seen_keys with
  | [] => sql_eq_int (r !! "available") 1
  | _ => sql_not_in (r !! key_column) seen_keys && sql_eq_int (r !! "available") 1
  end.

Definition update_row (key_column : string) (seen_keys : list Z) (r : row) : row :=
  if selected key_column seen_keys r then set_unavailable r else r.

(** [UPDATE {table_name} SET available = 0 WHERE ...] *)
Definition update_unavailable (table_name key_column : string) (seen_keys : list Z)
    (d : database) : outcome database :=
  match tables d !! table_name with
  | None => Raise (OperationalError ("no such table: " +:+ table_name))
  | Some t =>
      if negb (has_column t "available") then
        Raise (OperationalError "no such column: available")
      else if negb (bool_decide (seen_keys = [])) && negb (has_column t key_column) then
        Raise (OperationalError ("no such column: " +:+ key_column))
      else
        Ok (set_table d table_name
              (set_rows t (update_row key_column seen_keys <$> rows t)))
  end.

(** The same UPDATE on [search_fts], restricted by [type = ?].
    [search_fts] is declared contentless ([content='']): it keeps the index
    of its rows and none of their column values, and SQLite rejects an
    UPDATE of it, whatever the type and the seen keys. *)
Definition update_fts_unavailable (fts_type : string) (seen_keys : list Z)
    (d : database) : outcome database :=
  match search_fts d with
  | None => Raise (OperationalError "no such table: search_fts")
  | Some _ => Raise (OperationalError "no such column: T.ratingKey")
  end.

(** [type_map.get(table_name)] for the tables in
    [['movies', 'tv_shows', 'artists']]. *)
Definition type_map (table_name : string) : option string :=
  if String.eqb table_name "movies" then Some "movie"
  else if String.eqb table_name "tv_shows" then Some "show"
  else if String.eqb table_name "artists" then Some "artist"
  else None.

(** ** [mark_unavailable]

    [library_type] only feeds the log line.  Callers that omit [key_column]
    get the default ["ratingKey"]. *)
Definition mark_unavailable (table_name : string) (seen_keys : list Z)
    (library_type : string) (key_column : string) : db_op unit :=
  execute (update_unavailable table_name key_column seen_keys) ;;;
  do_commit ;;;
  try_operational
    (match type_map table_name with
     | Some fts_type =>
         execute (update_fts_unavailable fts_type seen_keys) ;;;
         do_commit
     | None => ret tt
     end).

(** *** Schema statements *)

(** [ALTER TABLE {t} ADD COLUMN {c} ...] *)
Definition alter_add_column (table_name col : string) (d : database) : outcome database :=
  match tables d !! table_name with
  | None => Raise (OperationalError ("no such table: " +:+ table_name))
  | Some t =>
      if has_column t col then
        Raise (OperationalError ("duplicate column name: " +:+ col))
      else
        Ok (set_table d table_name
              {| columns := (columns t ++ [col])%list;
                 primary_key := primary_key t;
                 rows := rows t |})
  end.

(** [CREATE INDEX IF NOT EXISTS {name} ON {t}({c})] *)
Definition create_index (name table_name col : string) (d : database) : outcome database :=
  if bool_decide (name ∈ indexes d) then Ok d
  else
    match tables d !! table_name with
    | None => Raise (OperationalError ("no such table: main." +:+ table_name))
    | Some t =>
        if has_column t col then Ok (add_index d name)
        else Raise (OperationalError ("no such column: " +:+ col))
    end.

(** [CREATE TABLE IF NOT EXISTS {name} (...)] *)
Definition create_table (name : string) (cols : list string) (pk : string)
    (d : database) : outcome database :=
  match tables d !! name with
  | Some _ => Ok d
  | None => Ok (set_table d name {| columns := cols; primary_key := pk; rows := ∅ |})
  end.

(** [CREATE VIRTUAL TABLE IF NOT EXISTS search_fts USING fts5(...)] *)
Definition create_search_fts (fts5 : bool) (d : database) : outcome database :=
  match search_fts d with
  | Some _ => Ok d
  | None =>
      if fts5 then Ok (set_search_fts d (Some []))
      else Raise (OperationalError "no such module: fts5")
  end.

Definition coalesce_empty (cell : option value) : value :=
  match cell with
  | None | Some VNull => VText ""
  | Some v => v
  end.

Definition cell (r : row) (c : string) : value := default VNull (r !! c).

(** One row of
    [SELECT '{fts_type}', ratingKey, {title_col}, COALESCE(summary, ''), {year}, available]. *)
Definition fts_row_of (fts_type title_col : string) (with_year : bool) (r : row) : row :=
  list_to_map
    [("type", VText fts_type);
     ("ratingKey", cell r "ratingKey");
     ("title", cell r title_col);
     ("summary", coalesce_empty (r !! "summary"));
     ("year", if with_year then cell r "year" else VNull);
     ("available", cell r "available")].

(** [INSERT [OR IGNORE] INTO search_fts(...) SELECT ... FROM {t} WHERE available = 1] *)
Definition populate_search_fts (fts_type table_name title_col : string) (with_year : bool)
    (d : database) : outcome database :=
  match search_fts d with
  | None => Raise (OperationalError "no such table: search_fts")
  | Some f =>
      match tables d !! table_name with
      | None => Raise (OperationalError ("no such table: " +:+ table_name))
      | Some t =>
          match
            filter (fun c => negb (has_column t c))
              (["ratingKey"; title_col; "summary"] ++
               (if with_year then ["year"] else []) ++ ["available"])%list
          with
          | c :: _ => Raise (OperationalError ("no such column: " +:+ c))
          | [] =>
              let sel :=
                filter (fun r => sql_eq_int (r !! "available") 1 = true) (scan t) in
              Ok (set_search_fts d
                    (Some (f ++ (fts_row_of fts_type title_col with_year <$> sel))%list))
          end
      end
  end.

(** ** Schema version *)

(** [SELECT version FROM schema_version ORDER BY version DESC LIMIT 1] as a
    function of the rows: 0 without the table or without a row. *)
Definition stored_version (o : option (list Z)) : Z :=
  match o with
  | None | Some [] => 0
  | Some (v :: vs) => list_max v vs
  end.

Definition get_schema_version (c : connection) : Z :=
  stored_version (schema_version (live c)).

(** The rows after [INSERT OR REPLACE INTO schema_version (version) VALUES
    (?)]; [applied_at] is a timestamp and is left out. *)
Definition with_version (v : Z) (o : option (list Z)) : option (list Z) :=
  Some (v :: filter (fun x => x ≠ v) (default [] o)).

(** [CREATE TABLE IF NOT EXISTS schema_version (...)] *)
Definition create_schema_version (d : database) : outcome database :=
  Ok (set_schema_rows d (Some (default [] (schema_version d)))).

(** The INSERT binds [version] as an INTEGER: a Python int outside the 64
    bits of SQLite raises [OverflowError]. *)
Definition insert_version (version : Z) (d : database) : outcome database :=
  if (- 2 ^ 63 <=? version) && (version <? 2 ^ 63) then
    Ok (set_schema_rows d (with_version version (schema_version d)))
  else Raise (OverflowError "Python int too large to convert to SQLite INTEGER").

Definition set_schema_version (version : Z) : db_op unit :=
  execute create_schema_version ;;;
  execute (insert_version version) ;;;
  do_commit.

(** ** Migrations *)

(** [except sqlite3.OperationalError as e: if "duplicate column" not in
    str(e).lower(): raise] *)
Definition except_duplicate_column (m : db_op unit) : db_op unit :=
  fun c =>
    match m c with
    | (c1, Raise (OperationalError msg)) =>
        if contains "duplicate column" (string_map ascii_lower msg)
        then (c1, Ok tt)
        else (c1, Raise (OperationalError msg))
    | r => r
    end.

Definition add_hash_column (table_name index_name : string) : db_op unit :=
  except_duplicate_column
    (execute (alter_add_column table_name "mediaHash") ;;;
     execute (create_index index_name table_name "mediaHash")).

(** [for col_name, col_type in cols: try: ALTER TABLE ... except ...] *)
Fixpoint add_columns (table_name : string) (cols : list string) : db_op unit :=
  match cols with
  | [] => ret tt
  | col :: rest =>
      except_duplicate_column (execute (alter_add_column table_name col)) ;;;
      add_columns table_name rest
  end.

Definition movie_columns : list string :=
  ["summary"; "tagline"; "genres"; "studio"; "directors"; "writers";
   "producers"; "actors"; "originallyAvailableAt"; "rating"; "audienceRating"].
Definition show_columns : list string :=
  ["summary"; "genres"; "studio"; "actors"; "originallyAvailableAt"; "rating";
   "audienceRating"].
Definition season_columns : list string :=
  ["summary"; "title"; "originallyAvailableAt"].
Definition episode_columns : list string :=
  ["summary"; "originallyAvailableAt"; "directors"; "writers"; "actors"; "rating";
   "audienceRating"].
Definition artist_columns : list string := ["summary"; "genres"].
Definition album_columns : list string :=
  ["summary"; "genres"; "originallyAvailableAt"; "studio"].
Definition track_columns : list string :=
  ["summary"; "originallyAvailableAt"; "genres"].

Definition migration_1 : db_op unit :=
  add_hash_column "movies" "idx_movies_hash" ;;;
  add_hash_column "episodes" "idx_episodes_hash" ;;;
  add_hash_column "tracks" "idx_tracks_hash" ;;;
  set_schema_version 1.

Definition migration_2 : db_op unit :=
  add_columns "movies" movie_columns ;;;
  add_columns "tv_shows" show_columns ;;;
  add_columns "seasons" season_columns ;;;
  add_columns "episodes" episode_columns ;;;
  add_columns "artists" artist_columns ;;;
  add_columns "albums" album_columns ;;;
  add_columns "tracks" track_columns ;;;
  set_schema_version 2.

(** The three [INSERT ... SELECT] that fill [search_fts]. *)
Definition populate_all : db_op unit :=
  execute (populate_search_fts "movie" "movies" "title" true) ;;;
  execute (populate_search_fts "show" "tv_shows" "title" false) ;;;
  execute (populate_search_fts "artist" "artists" "artistName" false).

Definition create_fts : db_op unit :=
  fun c => execute (create_search_fts (fts5_module c)) c.

(** The [try] block of migration 3. *)
Definition migration_3_body : db_op unit :=
  create_fts ;;;
  populate_all ;;;
  set_schema_version 3.

Definition migration_3 : db_op unit :=
  fun c =>
    match migration_3_body c with
    | (c1, Raise (OperationalError msg)) =>
        let m := string_map ascii_lower msg in
        if contains "fts5" m || contains "no such module" m
        then set_schema_version 3 c1
        else (c1, Raise (OperationalError msg))
    | r => r
    end.

Definition when (b : bool) (m : db_op unit) : db_op unit :=
  if b then m else ret tt.

Definition run_migrations (current_version target_version : Z) : db_op unit :=
  if target_version <=? current_version then ret tt
  else
    when (current_version <? 1) migration_1 ;;;
    when (current_version <? 2) migration_2 ;;;
    when (current_version <? 3) migration_3.

(** ** [init_database] *)

Definition movies_schema : list string :=
  ["ratingKey"; "title"; "year"; "contentRating"; "duration"; "durationHuman";
   "audioCodec"; "container"; "videoCodec"; "videoResolution"; "sizeBytes";
   "sizeHuman"; "mediaHash"; "summary"; "tagline"; "genres"; "studio";
   "directors"; "writers"; "producers"; "actors"; "originallyAvailableAt";
   "rating"; "audienceRating"; "available"; "lastSeen"].

Definition tv_shows_schema : list string :=
  ["ratingKey"; "title"; "contentRating"; "avgEpisodeDuration";
   "avgEpisodeDurationHuman"; "seasonCount"; "showTotalEpisode"; "showSizeBytes";
   "showSizeHuman"; "avgVideoResolutions"; "avgAudioCodecs"; "avgVideoCodecs";
   "avgContainers"; "showYearRange"; "summary"; "genres"; "studio"; "actors";
   "originallyAvailableAt"; "rating"; "audienceRating"; "available"; "lastSeen"].

Definition seasons_schema : list string :=
  ["seasonRatingKey"; "showRatingKey"; "seasonNumber"; "seasonTotalEpisode";
   "avgSeasonEpisodeDuration"; "avgSeasonEpisodeDurationHuman"; "seasonSizeBytes";
   "seasonSizeHuman"; "avgSeasonVideoResolution"; "avgSeasonAudioCodec";
   "avgSeasonVideoCodec"; "avgSeasonContainer"; "yearRange"; "summary"; "title";
   "originallyAvailableAt"; "available"; "lastSeen"].

Definition episodes_schema : list string :=
  ["ratingKey"; "seasonRatingKey"; "showRatingKey"; "episodeNumber"; "title";
   "year"; "duration"; "durationHuman"; "audioCodec"; "container"; "videoCodec";
   "videoResolution"; "sizeBytes"; "sizeHuman"; "mediaHash"; "summary";
   "originallyAvailableAt"; "directors"; "writers"; "actors"; "rating";
   "audienceRating"; "available"; "lastSeen"].

Definition artists_schema : list string :=
  ["ratingKey"; "artistName"; "totalAlbums"; "totalTracks"; "totalSizeBytes";
   "totalSizeHuman"; "yearRange"; "summary"; "genres"; "available"; "lastSeen"].

Definition albums_schema : list string :=
  ["ratingKey"; "artistRatingKey"; "title"; "year"; "tracks"; "albumSizeBytes";
   "albumSizeHuman"; "albumDuration"; "albumDurationHuman"; "albumContainers";
   "summary"; "genres"; "originallyAvailableAt"; "studio"; "available"; "lastSeen"].

Definition tracks_schema : list string :=
  ["ratingKey"; "albumRatingKey"; "artistRatingKey"; "title"; "trackNumber";
   "duration"; "durationHuman"; "sizeBytes"; "sizeHuman"; "container";
   "mediaHash"; "summary"; "originallyAvailableAt"; "genres"; "available";
   "lastSeen"].

Definition empty_database : database :=
  {| tables := ∅; search_fts := None; schema_version := None; indexes := ∅ |}.

(** A connection to a database file that does not exist yet. *)
Definition connect_new (fts5 : bool) : connection :=
  {| durable := empty_database; live := empty_database; fts5_module := fts5 |}.

Definition create_tables : db_op unit :=
  execute (create_table "movies" movies_schema "ratingKey") ;;;
  execute (create_table "tv_shows" tv_shows_schema "ratingKey") ;;;
  execute (create_table "seasons" seasons_schema "seasonRatingKey") ;;;
  execute (create_table "episodes" episodes_schema "ratingKey") ;;;
  execute (create_table "artists" artists_schema "ratingKey") ;;;
  execute (create_table "albums" albums_schema "ratingKey") ;;;
  execute (create_table "tracks" tracks_schema "ratingKey").

Definition create_indexes : db_op unit :=
  execute (create_index "idx_seasons_show" "seasons" "showRatingKey") ;;;
  execute (create_index "idx_episodes_season" "episodes" "seasonRatingKey") ;;;
  execute (create_index "idx_episodes_show" "episodes" "showRatingKey") ;;;
  execute (create_index "idx_albums_artist" "albums" "artistRatingKey") ;;;
  execute (create_index "idx_tracks_album" "tracks" "albumRatingKey") ;;;
  execute (create_index "idx_tracks_artist" "tracks" "artistRatingKey") ;;;
  execute (create_index "idx_movies_available" "movies" "available") ;;;
  execute (create_index "idx_tv_shows_available" "tv_shows" "available") ;;;
  execute (create_index "idx_seasons_available" "seasons" "available") ;;;
  execute (create_index "idx_episodes_available" "episodes" "available") ;;;
  execute (create_index "idx_artists_available" "artists" "available") ;;;
  execute (create_index "idx_albums_available" "albums" "available") ;;;
  execute (create_index "idx_tracks_available" "tracks" "available").

Definition init_database (rebuild : bool) : db_op unit :=
  fun c0 =>
    let c := if rebuild then connect_new (fts5_module c0) else c0 in
    let current_version := get_schema_version c in
    (create_tables ;;;
     create_indexes ;;;
     try_operational (create_fts ;;; populate_all) ;;;
     do_commit ;;;
     run_migrations current_version SCHEMA_VERSION) c.

(** The migration chain as [init_database] starts it: from the stored
    version to [SCHEMA_VERSION]. *)
Definition migrate : db_op unit :=
  fun c => run_migrations (get_schema_version c) SCHEMA_VERSION c.

(** A database of the time before [mediaHash] and the descriptive
    columns, with no [schema_version] table: the seven tables with their
    first columns, one available movie. *)
Definition legacy_table (cols : list string) (pk : string) (r : gmap Z row) : table :=
  {| columns := cols; primary_key := pk; rows := r |}.

Definition legacy_database : database :=
  {| tables :=
       list_to_map
         [("movies",
           legacy_table
             ["ratingKey"; "title"; "year"; "contentRating"; "duration";
              "durationHuman"; "audioCodec"; "container"; "videoCodec";
              "videoResolution"; "sizeBytes"; "sizeHuman"; "available"; "lastSeen"]
             "ratingKey"
             {[ 1 := list_to_map
                       [("ratingKey", VInt 1); ("title", VText "Alien");
                        ("year", VInt 1979); ("available", VInt 1)] ]});
          ("tv_shows",
           legacy_table
             ["ratingKey"; "title"; "contentRating"; "avgEpisodeDuration";
              "seasonCount"; "showTotalEpisode"; "showSizeBytes"; "available";
              "lastSeen"]
             "ratingKey" ∅);
          ("seasons",
           legacy_table
             ["seasonRatingKey"; "showRatingKey"; "seasonNumber";
              "seasonTotalEpisode"; "available"; "lastSeen"]
             "seasonRatingKey" ∅);
          ("episodes",
           legacy_table
             ["ratingKey"; "seasonRatingKey"; "showRatingKey"; "episodeNumber";
              "title"; "year"; "duration"; "sizeBytes"; "available"; "lastSeen"]
             "ratingKey" ∅);
          ("artists",
           legacy_table
             ["ratingKey"; "artistName"; "totalAlbums"; "totalTracks";
              "totalSizeBytes"; "available"; "lastSeen"]
             "ratingKey" ∅);
          ("albums",
           legacy_table
             ["ratingKey"; "artistRatingKey"; "title"; "year"; "tracks";
              "available"; "lastSeen"]
             "ratingKey" ∅);
          ("tracks",
           legacy_table
             ["ratingKey"; "albumRatingKey"; "artistRatingKey"; "title";
              "trackNumber"; "duration"; "sizeBytes"; "container"; "available";
              "lastSeen"]
             "ratingKey" ∅)];
     search_fts := None;
     schema_version := None;
     indexes := ∅ |}.

Definition legacy_connection : connection :=
  {| durable := legacy_database; live := legacy_database; fts5_module := true |}.

(** ** Library calls taken as parameters *)

Class Externals := {
  (** [hashlib.md5(s.encode('utf-8')).hexdigest()] *)
  md5_hexdigest : string → string;
  (** [f"{a / b:.2f}"] *)
  format_2f : Z → Z → string
}.

Definition calculate_media_hash `{Externals} (size_bytes duration : Z)
    (codec resolution container title : option string) (year : option Z) : string :=
  md5_hexdigest
    (join "|"
       [str_of_int size_bytes; str_of_int duration; fmt_text codec;
        fmt_text resolution; fmt_text container; fmt_text title; fmt_int year]).

Definition human_readable_size `{Externals} (total_bytes : Z) : string :=
  if 1000000000000 <=? total_bytes then
    format_2f total_bytes 1000000000000 +:+ " TB"
  else if 1000000000 <=? total_bytes then
    format_2f total_bytes 1000000000 +:+ " GB"
  else
    format_2f total_bytes 1000000 +:+ " MB".

(** [human_readable_duration(d) if d else None] *)
Definition duration_human (d : Z) : value :=
  if d =? 0 then VNull else VText (human_readable_duration d).

(** ** [process_episode] *)

Record episode_result := {
  er_data : tuple;
  er_duration : Z;
  er_size_bytes : Z;
  er_year : option Z;
  er_video_resolution : option string;
  er_audio_codec : option string;
  er_video_codec : option string;
  er_container : option string;
  er_media_hash : string
}.

(** The thumbnail download touches only the image folder and the download
    counters and is left out; [None] is the source's [return None]. *)
Definition process_episode `{Externals} (ep : episode)
    (season_rating_key show_rating_key : Z) (current_time : string)
    : option episode_result :=
  let episode_rating_key := episode_ratingKey ep in
  let episode_duration := or_zero (episode_duration ep) in
  match episode_media ep with
  | [] => None
  | episode_media :: _ =>
      match parts episode_media with
      | [] => None
      | episode_part :: _ =>
          let size_bytes := or_zero (part_size episode_part) in
          let audio_codec := format_codec (audioCodec episode_media) in
          let video_codec := format_codec (videoCodec episode_media) in
          let video_resolution := format_resolution (videoResolution episode_media) in
          let media_hash :=
            calculate_media_hash size_bytes episode_duration video_codec
              video_resolution (part_container episode_part)
              (episode_title ep) (episode_year ep) in
          let m := episode_meta ep in
          Some
            {| er_data :=
                 [VInt episode_rating_key;
                  VInt season_rating_key;
                  VInt show_rating_key;
                  of_int (episode_index ep);
                  of_text (episode_title ep);
                  of_int (episode_year ep);
                  VInt episode_duration;
                  duration_human episode_duration;
                  of_text audio_codec;
                  of_text (part_container episode_part);
                  of_text video_codec;
                  of_text video_resolution;
                  VInt size_bytes;
                  VText (human_readable_size size_bytes);
                  VText media_hash;
                  summary m;
                  originally_available m;
                  directors m;
                  writers m;
                  actors m;
                  rating m;
                  audience_rating m;
                  VInt 1;
                  VText current_time];
               er_duration := episode_duration;
               er_size_bytes := size_bytes;
               er_year := episode_year ep;
               er_video_resolution := video_resolution;
               er_audio_codec := audio_codec;
               er_video_codec := video_codec;
               er_container := part_container episode_part;
               er_media_hash := media_hash |}
      end
  end.

(** ** [process_season] *)

(** The accumulators of the episode loop, and with [sr_season_data] the
    dictionary the function returns. *)
Record season_acc := {
  sa_size_bytes : Z;
  sa_total_episodes : Z;
  sa_total_duration : Z;
  sa_years : list (option Z);
  sa_video_resolutions : list (option string);
  sa_audio_codecs : list (option string);
  sa_video_codecs : list (option string);
  sa_containers : list (option string);
  sa_episodes_data : list tuple;
  (** image tasks, each named by the rating key of its episode *)
  sa_episode_image_tasks : list Z
}.

Definition season_acc_init : season_acc :=
  {| sa_size_bytes := 0; sa_total_episodes := 0; sa_total_duration := 0;
     sa_years := []; sa_video_resolutions := []; sa_audio_codecs := [];
     sa_video_codecs := []; sa_containers := []; sa_episodes_data := [];
     sa_episode_image_tasks := [] |}.

(** One turn of [for episode in episodes_list]. *)
Definition season_step `{Externals} (cfg : settings)
    (season_rating_key show_rating_key : Z) (current_time : string)
    (a : season_acc) (ep : episode) : season_acc :=
  match process_episode ep season_rating_key show_rating_key current_time with
  | None => a
  | Some r =>
      {| sa_size_bytes := sa_size_bytes a + er_size_bytes r;
         sa_total_episodes := sa_total_episodes a + 1;
         sa_total_duration := sa_total_duration a + er_duration r;
         sa_years := sa_years a ++ [er_year r];
         sa_video_resolutions := sa_video_resolutions a ++ [er_video_resolution r];
         sa_audio_codecs := sa_audio_codecs a ++ [er_audio_codec r];
         sa_video_codecs := sa_video_codecs a ++ [er_video_codec r];
         sa_containers := sa_containers a ++ [er_container r];
         sa_episodes_data := sa_episodes_data a ++ [er_data r];
         sa_episode_image_tasks :=
           if USE_PARALLEL cfg && DOWNLOAD_IMAGES cfg
           then sa_episode_image_tasks a ++ [tuple_int (er_data r) 0]
           else sa_episode_image_tasks a |}%list
  end.

(** [total // count if count > 0 else 0] *)
Definition average (total count : Z) : Z :=
  if 0 <? count then total / count else 0.

Record season_result := {
  sr_season_data : tuple;
  sr_acc : season_acc
}.

(** The body of [process_season] from the loop over [episodes_list] on. *)
Definition collect_season `{Externals} (cfg : settings) (s : season)
    (show_rating_key : Z) (current_time : string) (episodes_list : list episode)
    : season_result :=
  let season_rating_key := season_ratingKey s in
  let a :=
    fold_left (season_step cfg season_rating_key show_rating_key current_time)
      episodes_list season_acc_init in
  let avg_season_duration := average (sa_total_duration a) (sa_total_episodes a) in
  let year_range := format_year_range (sa_years a) in
  let m := season_meta s in
  let season_title :=
    if truthy_text (season_title s) then season_title s else None in
  {| sr_season_data :=
       [VInt season_rating_key;
        VInt show_rating_key;
        of_int (seasonNumber s);
        VInt (sa_total_episodes a);
        VInt avg_season_duration;
        (if 0 <? avg_season_duration
         then VText (human_readable_duration avg_season_duration) else VNull);
        VInt (sa_size_bytes a);
        VText (human_readable_size (sa_size_bytes a));
        VText (join_unique (sa_video_resolutions a));
        VText (join_unique (sa_audio_codecs a));
        VText (join_unique (sa_video_codecs a));
        VText (join_unique (sa_containers a));
        of_text year_range;
        summary m;
        of_text season_title;
        originally_available m;
        VInt 1;
        VText current_time];
     sr_acc := a |}.

(** [fetch_with_retry] on [season.episodes()] first: an exception it lets
    through leaves the function before anything is computed. *)
Definition process_season `{Externals} (cfg : settings) (s : season)
    (show_rating_key : Z) (current_time : string) : outcome season_result :=
  match season_episodes s with
  | Raise e => Raise e
  | Ok episodes_list => Ok (collect_season cfg s show_rating_key current_time episodes_list)
  end.

(** ** Batch statements *)

(** One row of an [INSERT OR REPLACE]: the cells by column, stored under
    the integer primary key, replacing the row that had it.  The source
    always binds an [int] to the key.  The constraints of the schema are
    not modelled: with foreign keys on, replacing a parent row deletes its
    children by cascade, and a child without its parent or a NULL in a
    NOT NULL column raises [IntegrityError]. *)
Definition insert_row (cols : list string) (t : table) (vals : tuple) : outcome table :=
  let r : row := list_to_map (zip cols vals) in
  match r !! primary_key t with
  | Some (VInt k) => Ok (set_rows t (<[k := r]> (rows t)))
  | _ => Raise (IntegrityError "datatype mismatch")
  end.

(** The rows of an [executemany], one after the other; a row with the
    wrong number of bindings raises and leaves the earlier ones in place. *)
Fixpoint insert_rows (cols : list string) (nvalues : nat) (data : list tuple)
    (t : table) : table * outcome unit :=
  match data with
  | [] => (t, Ok tt)
  | vals :: rest =>
      if negb (length vals =? nvalues)%nat then
        (t, Raise (ProgrammingError "Incorrect number of bindings supplied"))
      else
        match insert_row cols t vals with
        | Ok t' => insert_rows cols nvalues rest t'
        | Raise e => (t, Raise e)
        end
  end.

(** [cursor.executemany("INSERT OR REPLACE INTO {table_name} ({cols}) VALUES
    (?, ..., ?)", data)] with [nvalues] question marks.  SQLite compiles the
    statement before any row is bound: an unknown table or column, or a
    VALUES list whose length differs from the column list, raises there. *)
Definition executemany_insert (table_name : string) (cols : list string)
    (nvalues : nat) (data : list tuple) : db_op unit :=
  fun c =>
    match tables (live c) !! table_name with
    | None => (c, Raise (OperationalError ("no such table: " +:+ table_name)))
    | Some t =>
        match filter (fun col => negb (has_column t col)) cols with
        | col :: _ =>
            (c, Raise (OperationalError
                         ("table " +:+ table_name +:+ " has no column named " +:+ col)))
        | [] =>
            if negb (nvalues =? length cols)%nat then
              (c, Raise (OperationalError
                           (str_of_int (Z.of_nat nvalues) +:+ " values for "
                            +:+ str_of_int (Z.of_nat (length cols)) +:+ " columns")))
            else
              let '(t', r) := insert_rows cols nvalues data t in
              (set_live c (set_table (live c) table_name t'), r)
        end
    end.

(** [SELECT ratingKey, mediaHash FROM {table_name} WHERE available = 1]
    read into [{row[0]: row[1] for row in cursor.fetchall()}]. *)
Definition select_hashes (table_name : string) (d : database) : outcome (gmap Z value) :=
  match tables d !! table_name with
  | None => Raise (OperationalError ("no such table: " +:+ table_name))
  | Some t =>
      match
        filter (fun col => negb (has_column t col)) ["ratingKey"; "mediaHash"; "available"]
      with
      | col :: _ => Raise (OperationalError ("no such column: " +:+ col))
      | [] =>
          Ok (list_to_map
                (omap (fun r : row =>
                         if sql_eq_int (r !! "available") 1 then
                           match r !! "ratingKey" with
                           | Some (VInt k) => Some (k, cell r "mediaHash")
                           | _ => None
                           end
                         else None)
                      (scan t)))
      end
  end.

(** [cursor.execute] of a SELECT. *)
Definition query {A} (q : database → outcome A) : db_op A :=
  fun c => (c, q (live c)).

(** The hashes of the rows now stored as available, fetched only when not
    running in parallel. *)
Definition existing_hashes (cfg : settings) (table_name : string) : db_op (gmap Z value) :=
  if USE_PARALLEL cfg then ret ∅ else query (select_hashes table_name).

(** Python's [==] on the values a tuple holds. *)
Definition py_eq (a b : value) : bool :=
  match a, b with
  | VNull, VNull => true
  | VInt x, VInt y => x =? y
  | VText x, VText y => String.eqb x y
  | VReal x, VReal y => Qeq_bool x y
  | VInt x, VReal y | VReal y, VInt x => Qeq_bool (inject_Z x) y
  | _, _ => false
  end.

(** The test that skips a leaf as unchanged: not in parallel mode, a hash
    is on record for its rating key, and the tuple's hash at [hash_index]
    equals it. *)
Definition unchanged (cfg : settings) (existing : gmap Z value) (hash_index : nat)
    (t : tuple) : bool :=
  negb (USE_PARALLEL cfg) &&
  match existing !! tuple_int t 0 with
  | Some h => (hash_index <? length t)%nat && py_eq (t !!! hash_index) h
  | None => false
  end.

(** The tuples that are left once the unchanged ones are skipped. *)
Definition changed_only (cfg : settings) (existing : gmap Z value) (hash_index : nat)
    (l : list tuple) : list tuple :=
  filter (fun t => unchanged cfg existing hash_index t = false) l.

Definition sum_at (i : nat) (l : list tuple) : Z :=
  foldr (fun t acc => tuple_int t i + acc) 0 l.

(** ** [process_tvshows] *)

(** The lists the function fills while it walks the shows. *)
Record tv_batch := {
  seen_show_keys : list Z;
  seen_season_keys : list Z;
  seen_episode_keys : list Z;
  episodes_data : list tuple;
  seasons_data : list tuple;
  shows_data : list tuple;
  show_image_tasks : list Z;
  season_image_tasks : list Z;
  episode_image_tasks : list Z
}.

Definition tv_batch_init : tv_batch :=
  {| seen_show_keys := []; seen_season_keys := []; seen_episode_keys := [];
     episodes_data := []; seasons_data := []; shows_data := [];
     show_image_tasks := []; season_image_tasks := []; episode_image_tasks := [] |}.

(** The per-show accumulators. *)
Record show_acc := {
  show_size_bytes : Z;
  show_total_episodes : Z;
  show_years : list (option Z);
  show_video_resolutions : list (option string);
  show_audio_codecs : list (option string);
  show_video_codecs : list (option string);
  show_containers : list (option string);
  show_total_duration : Z
}.

Definition show_acc_init : show_acc :=
  {| show_size_bytes := 0; show_total_episodes := 0; show_years := [];
     show_video_resolutions := []; show_audio_codecs := [];
     show_video_codecs := []; show_containers := []; show_total_duration := 0 |}.

(** The season tuple rewritten from the filtered episodes
    ([season_data_list[3..7] = ...]). *)
Definition recalculated_season_data `{Externals} (season_data : tuple)
    (filtered_episodes : list tuple) : tuple :=
  let season_total_episodes := Z.of_nat (length filtered_episodes) in
  let season_total_duration := sum_at 6 filtered_episodes in
  let season_size_bytes := sum_at 12 filtered_episodes in
  let avg := average season_total_duration season_total_episodes in
  <[7%nat := VText (human_readable_size season_size_bytes)]>
  (<[6%nat := VInt season_size_bytes]>
  (<[5%nat := if 0 <? avg then VText (human_readable_duration avg) else VNull]>
  (<[4%nat := VInt avg]>
  (<[3%nat := VInt season_total_episodes]> season_data)))).

(** [seen_show_keys.append(show_rating_key)] and
    [seen_season_keys.append(season_rating_key)] *)
Definition see_show (b : tv_batch) (show_rating_key : Z) : tv_batch :=
  {| seen_show_keys := seen_show_keys b ++ [show_rating_key];
     seen_season_keys := seen_season_keys b;
     seen_episode_keys := seen_episode_keys b;
     episodes_data := episodes_data b;
     seasons_data := seasons_data b;
     shows_data := shows_data b;
     show_image_tasks := show_image_tasks b;
     season_image_tasks := season_image_tasks b;
     episode_image_tasks := episode_image_tasks b |}%list.

Definition see_season (b : tv_batch) (season_rating_key : Z) : tv_batch :=
  {| seen_show_keys := seen_show_keys b;
     seen_season_keys := seen_season_keys b ++ [season_rating_key];
     seen_episode_keys := seen_episode_keys b;
     episodes_data := episodes_data b;
     seasons_data := seasons_data b;
     shows_data := shows_data b;
     show_image_tasks := show_image_tasks b;
     season_image_tasks := season_image_tasks b;
     episode_image_tasks := episode_image_tasks b |}%list.

(** One turn of [for season in seasons_list]; an exception raised by
    [process_season] ends the loop and the show, the key of the season
    already among the seen ones. *)
Definition season_turn `{Externals} (cfg : settings) (current_time : string)
    (existing_episode_hashes : gmap Z value) (show_rating_key : Z)
    (st : tv_batch * show_acc) (s : season) : tv_batch * show_acc * outcome unit :=
  let '(b0, a) := st in
  let season_rating_key := season_ratingKey s in
  let b := see_season b0 season_rating_key in
  match process_season cfg s show_rating_key current_time with
  | Raise e => (b, a, Raise e)
  | Ok season_result =>
      let sa := sr_acc season_result in
      let filtered_episodes :=
        changed_only cfg existing_episode_hashes 14 (sa_episodes_data sa) in
      let season_total_episodes := Z.of_nat (length filtered_episodes) in
      let nonempty := negb (bool_decide (filtered_episodes = [])) in
      ({| seen_show_keys := seen_show_keys b;
          seen_season_keys := seen_season_keys b;
          seen_episode_keys :=
            seen_episode_keys b
              ++ ((fun ep_data => tuple_int ep_data 0) <$> sa_episodes_data sa);
          episodes_data := episodes_data b ++ filtered_episodes;
          seasons_data :=
            seasons_data b ++
              [if nonempty
               then recalculated_season_data (sr_season_data season_result)
                      filtered_episodes
               else sr_season_data season_result];
          shows_data := shows_data b;
          show_image_tasks := show_image_tasks b;
          season_image_tasks :=
            if DOWNLOAD_IMAGES cfg then season_image_tasks b ++ [season_rating_key]
            else season_image_tasks b;
          episode_image_tasks :=
            if USE_PARALLEL cfg && DOWNLOAD_IMAGES cfg
            then episode_image_tasks b ++ sa_episode_image_tasks sa
            else episode_image_tasks b |},
       {| show_size_bytes :=
            if nonempty then show_size_bytes a + sum_at 12 filtered_episodes
            else show_size_bytes a;
          show_total_episodes := show_total_episodes a + season_total_episodes;
          show_years := show_years a ++ sa_years sa;
          show_video_resolutions := show_video_resolutions a ++ sa_video_resolutions sa;
          show_audio_codecs := show_audio_codecs a ++ sa_audio_codecs sa;
          show_video_codecs := show_video_codecs a ++ sa_video_codecs sa;
          show_containers := show_containers a ++ sa_containers sa;
          show_total_duration :=
            if nonempty then show_total_duration a + sum_at 6 filtered_episodes
            else show_total_duration a |},
       Ok tt)
  end%list.

Fixpoint seasons_loop `{Externals} (cfg : settings) (current_time : string)
    (existing_episode_hashes : gmap Z value) (show_rating_key : Z)
    (seasons_list : list season) (st : tv_batch * show_acc)
    : tv_batch * show_acc * outcome unit :=
  match seasons_list with
  | [] => (st, Ok tt)
  | s :: rest =>
      match season_turn cfg current_time existing_episode_hashes show_rating_key st s with
      | (st', Ok _) =>
          seasons_loop cfg current_time existing_episode_hashes show_rating_key rest st'
      | r => r
      end
  end.

(** The rest of the body of the show loop, once the seasons have been
    walked: the show's tuple and its image task. *)
Definition show_tuple `{Externals} (cfg : settings) (current_time : string)
    (sh : show) (b1 : tv_batch) (a : show_acc) : tv_batch :=
  let show_rating_key := show_ratingKey sh in
  let avg_show_duration :=
    if 0 <? show_total_episodes a
    then show_total_duration a / show_total_episodes a
    else or_zero (show_duration sh) in
  let show_year_range := format_year_range (show_years a) in
  let m := show_meta sh in
  {| seen_show_keys := seen_show_keys b1;
     seen_season_keys := seen_season_keys b1;
     seen_episode_keys := seen_episode_keys b1;
     episodes_data := episodes_data b1;
     seasons_data := seasons_data b1;
     shows_data :=
       shows_data b1 ++
         [[VInt show_rating_key;
           of_text (show_title sh);
           of_text (show_contentRating sh);
           VInt avg_show_duration;
           duration_human avg_show_duration;
           of_int (seasonCount sh);
           VInt (show_total_episodes a);
           VInt (show_size_bytes a);
           VText (human_readable_size (show_size_bytes a));
           VText (join_unique (show_video_resolutions a));
           VText (join_unique (show_audio_codecs a));
           VText (join_unique (show_video_codecs a));
           VText (join_unique (show_containers a));
           of_text show_year_range;
           summary m;
           genres m;
           studio m;
           actors m;
           originally_available m;
           rating m;
           audience_rating m;
           VInt 1;
           VText current_time]];
     show_image_tasks :=
       if DOWNLOAD_IMAGES cfg then show_image_tasks b1 ++ [show_rating_key]
       else show_image_tasks b1;
     season_image_tasks := season_image_tasks b1;
     episode_image_tasks := episode_image_tasks b1 |}%list.

(** One turn of [for idx, show in enumerate(shows, 1)]; an exception
    raised in the body, by the listing of the seasons or by a season, is
    logged and the loop goes on with the next show, keeping what the body
    had appended until then. *)
Definition show_turn `{Externals} (cfg : settings) (current_time : string)
    (existing_episode_hashes : gmap Z value) (b : tv_batch) (sh : show) : tv_batch :=
  let show_rating_key := show_ratingKey sh in
  let b0 := see_show b show_rating_key in
  match show_seasons sh with
  | Raise _ => b0
  | Ok seasons_list =>
      match
        seasons_loop cfg current_time existing_episode_hashes show_rating_key
          seasons_list (b0, show_acc_init)
      with
      | (st1, Raise _) => st1.1
      | ((b1, a), Ok _) => show_tuple cfg current_time sh b1 a
      end
  end.

(** The whole loop over the shows. *)
Definition collect_tvshows `{Externals} (cfg : settings) (current_time : string)
    (existing_episode_hashes : gmap Z value) (shows : list show) : tv_batch :=
  fold_left (show_turn cfg current_time existing_episode_hashes) shows tv_batch_init.

Definition tv_shows_insert_columns : list string :=
  ["ratingKey"; "title"; "contentRating"; "avgEpisodeDuration";
   "avgEpisodeDurationHuman"; "seasonCount"; "showTotalEpisode"; "showSizeBytes";
   "showSizeHuman"; "avgVideoResolutions"; "avgAudioCodecs"; "avgVideoCodecs";
   "avgContainers"; "showYearRange"; "summary"; "genres"; "studio"; "actors";
   "originallyAvailableAt"; "rating"; "audienceRating"; "available"; "lastSeen"].

Definition seasons_insert_columns : list string :=
  ["seasonRatingKey"; "showRatingKey"; "seasonNumber"; "seasonTotalEpisode";
   "avgSeasonEpisodeDuration"; "avgSeasonEpisodeDurationHuman"; "seasonSizeBytes";
   "seasonSizeHuman"; "avgSeasonVideoResolution"; "avgSeasonAudioCodec";
   "avgSeasonVideoCodec"; "avgSeasonContainer"; "yearRange"; "summary"; "title";
   "originallyAvailableAt"; "available"; "lastSeen"].

Definition episodes_insert_columns : list string :=
  ["ratingKey"; "seasonRatingKey"; "showRatingKey"; "episodeNumber"; "title";
   "year"; "duration"; "durationHuman"; "audioCodec"; "container"; "videoCodec";
   "videoResolution"; "sizeBytes"; "sizeHuman"; "mediaHash"; "summary";
   "originallyAvailableAt"; "directors"; "writers"; "actors"; "rating";
   "audienceRating"; "available"; "lastSeen"].

(** [if data: cursor.executemany(...)] *)
Definition insert_if_any (table_name : string) (cols : list string) (nvalues : nat)
    (data : list tuple) : db_op unit :=
  match data with
  | [] => ret tt
  | _ => executemany_insert table_name cols nvalues data
  end.

(** The three batch inserts and the commit that follows them; the numbers
    are the question marks the source writes in each VALUES list. *)
Definition upsert_tvshows (b : tv_batch) : db_op unit :=
  insert_if_any "tv_shows" tv_shows_insert_columns 22 (shows_data b) ;;;
  insert_if_any "seasons" seasons_insert_columns 18 (seasons_data b) ;;;
  insert_if_any "episodes" episodes_insert_columns 23 (episodes_data b) ;;;
  do_commit.

Definition reconcile_tvshows (show_keys season_keys episode_keys : list Z) : db_op unit :=
  mark_unavailable "tv_shows" show_keys "show" "ratingKey" ;;;
  mark_unavailable "seasons" season_keys "season" "ratingKey" ;;;
  mark_unavailable "episodes" episode_keys "episode" "ratingKey".

(** [library_all] lists the outcomes of the successive calls of
    [library.all()].  The image downloads between the loop and the inserts
    do not touch the database and are left out. *)
Definition process_tvshows `{Externals} (cfg : settings) (current_time : string)
    (library_all : list (attempt (list show))) : db_op unit :=
  match fetch_library 3 library_all with
  | None => ret tt
  | Some [] => reconcile_tvshows [] [] []
  | Some shows =>
      let* existing_episode_hashes := existing_hashes cfg "episodes" in
      let b := collect_tvshows cfg current_time existing_episode_hashes shows in
      upsert_tvshows b ;;;
      reconcile_tvshows (seen_show_keys b) (seen_season_keys b) (seen_episode_keys b)
  end.

(** ** [process_movies] *)

Record movie_batch := {
  seen_rating_keys : list Z;
  movies_data : list tuple;
  image_tasks : list Z
}.

Definition movie_batch_init : movie_batch :=
  {| seen_rating_keys := []; movies_data := []; image_tasks := [] |}.

(** One turn of [for idx, movie in enumerate(movies, 1)]; the first two
    exits are the [continue] of a movie without media or without parts, the
    third the [continue] of an unchanged movie. *)
Definition movie_turn `{Externals} (cfg : settings) (current_time : string)
    (existing_hashes : gmap Z value) (b : movie_batch) (mv : movie) : movie_batch :=
  match movie_media mv with
  | [] => b
  | media :: _ =>
      match parts media with
      | [] => b
      | part :: _ =>
          let rating_key := movie_ratingKey mv in
          let seen := (seen_rating_keys b ++ [rating_key])%list in
          let size_bytes := or_zero (part_size part) in
          let duration := or_zero (movie_duration mv) in
          let audio_codec := format_codec (audioCodec media) in
          let video_codec := format_codec (videoCodec media) in
          let video_resolution := format_resolution (videoResolution media) in
          let media_hash :=
            calculate_media_hash size_bytes duration video_codec video_resolution
              (part_container part) (movie_title mv) (movie_year mv) in
          if negb (USE_PARALLEL cfg)
             && match existing_hashes !! rating_key with
                | Some h => py_eq h (VText media_hash)
                | None => false
                end
          then
            {| seen_rating_keys := seen;
               movies_data := movies_data b;
               image_tasks := image_tasks b |}
          else
            let m := movie_meta mv in
            {| seen_rating_keys := seen;
               movies_data :=
                 movies_data b ++
                   [[VInt rating_key;
                     of_text (movie_title mv);
                     of_int (movie_year mv);
                     of_text (movie_contentRating mv);
                     VInt duration;
                     duration_human duration;
                     of_text audio_codec;
                     of_text (part_container part);
                     of_text video_codec;
                     of_text video_resolution;
                     VInt size_bytes;
                     VText (human_readable_size size_bytes);
                     VText media_hash;
                     summary m;
                     tagline m;
                     genres m;
                     studio m;
                     directors m;
                     writers m;
                     producers m;
                     actors m;
                     originally_available m;
                     rating m;
                     audience_rating m;
                     VInt 1;
                     VText current_time]];
               image_tasks :=
                 if DOWNLOAD_IMAGES cfg then image_tasks b ++ [rating_key]
                 else image_tasks b |}%list
      end
  end.

Definition collect_movies `{Externals} (cfg : settings) (current_time : string)
    (existing_hashes : gmap Z value) (movies : list movie) : movie_batch :=
  fold_left (movie_turn cfg current_time existing_hashes) movies movie_batch_init.

Definition movies_insert_columns : list string :=
  ["ratingKey"; "title"; "year"; "contentRating"; "duration"; "durationHuman";
   "audioCodec"; "container"; "videoCodec"; "videoResolution"; "sizeBytes";
   "sizeHuman"; "mediaHash"; "summary"; "tagline"; "genres"; "studio";
   "directors"; "writers"; "producers"; "actors"; "originallyAvailableAt";
   "rating"; "audienceRating"; "available"; "lastSeen"].

(** [INSERT OR REPLACE INTO search_fts(type, ratingKey, title, summary, year,
    available) VALUES ('movie', ?, ?, COALESCE(?, ''), ?, ?)] bound to
    [(row[0], row[1], row[14], row[2], 1)] for each row of the batch. *)
Definition fts_movie_row (t : tuple) : row :=
  list_to_map
    [("type", VText "movie");
     ("ratingKey", t !!! 0%nat);
     ("title", t !!! 1%nat);
     ("summary", coalesce_empty (t !! 14%nat));
     ("year", t !!! 2%nat);
     ("available", VInt 1)].

Definition insert_fts_movies (data : list tuple) (d : database) : outcome database :=
  match search_fts d with
  | None => Raise (OperationalError "no such table: search_fts")
  | Some f => Ok (set_search_fts d (Some (f ++ (fts_movie_row <$> data))%list))
  end.

(** The batch insert, its commit, and the insert into [search_fts] that
    follows it uncommitted; 25 is the number of question marks the source
    writes in the VALUES list. *)
Definition upsert_movies (b : movie_batch) : db_op unit :=
  match movies_data b with
  | [] => ret tt
  | data =>
      executemany_insert "movies" movies_insert_columns 25 data ;;;
      do_commit ;;;
      try_operational (execute (insert_fts_movies data))
  end.

Definition process_movies `{Externals} (cfg : settings) (current_time : string)
    (library_all : list (attempt (list movie))) : db_op unit :=
  match fetch_library 3 library_all with
  | None => ret tt
  | Some [] => mark_unavailable "movies" [] "movie" "ratingKey"
  | Some movies =>
      let* existing := existing_hashes cfg "movies" in
      let b := collect_movies cfg current_time existing movies in
      upsert_movies b ;;;
      mark_unavailable "movies" (seen_rating_keys b) "movie" "ratingKey"
  end.

(** ** [process_album] *)

(** The accumulators of [for track in tracks_list]. *)
Record album_acc := {
  aa_seen_track_keys : list Z;
  aa_album_size_bytes : Z;
  aa_total_duration : Z;
  aa_containers : list (option string);
  aa_track_count : Z;
  aa_tracks_data : list tuple
}.

(** The per-track variables of [for media in track.media]. *)
Record track_acc := {
  ta_size_bytes : Z;
  ta_duration : Z;
  ta_container : option string;
  ta_album_size_bytes : Z;
  ta_total_duration : Z;
  ta_containers : list (option string)
}.

Definition part_turn (media_container : option string) (a : track_acc) (p : part)
    : track_acc :=
  let part_size := or_zero (part_size p) in
  {| ta_size_bytes := ta_size_bytes a + part_size;
     ta_duration := ta_duration a;
     ta_container :=
       if truthy_text (ta_container a) then ta_container a else media_container;
     ta_album_size_bytes := ta_album_size_bytes a + part_size;
     ta_total_duration := ta_total_duration a;
     ta_containers := ta_containers a |}.

Definition media_turn (a : track_acc) (m : media) : track_acc :=
  let track_duration := or_zero (media_duration m) in
  fold_left (part_turn (media_container m)) (parts m)
    {| ta_size_bytes := ta_size_bytes a;
       ta_duration := track_duration;
       ta_container := ta_container a;
       ta_album_size_bytes := ta_album_size_bytes a;
       ta_total_duration := ta_total_duration a + track_duration;
       ta_containers := (ta_containers a ++ [media_container m])%list |}.

Definition track_turn `{Externals} (album_rating_key artist_rating_key : Z)
    (album_year : option Z) (current_time : string) (a : album_acc) (t : track)
    : album_acc :=
  let track_rating_key := track_ratingKey t in
  let ta :=
    fold_left media_turn (track_media t)
      {| ta_size_bytes := 0; ta_duration := 0; ta_container := None;
         ta_album_size_bytes := aa_album_size_bytes a;
         ta_total_duration := aa_total_duration a;
         ta_containers := aa_containers a |} in
  let media_hash :=
    calculate_media_hash (ta_size_bytes ta) (ta_duration ta) None None
      (ta_container ta) (track_title t) album_year in
  let m := track_meta t in
  {| aa_seen_track_keys :=
       if bool_decide (track_rating_key ∈ aa_seen_track_keys a)
       then aa_seen_track_keys a
       else aa_seen_track_keys a ++ [track_rating_key];
     aa_album_size_bytes := ta_album_size_bytes ta;
     aa_total_duration := ta_total_duration ta;
     aa_containers := ta_containers ta;
     aa_track_count := aa_track_count a + 1;
     aa_tracks_data :=
       aa_tracks_data a ++
         [[VInt track_rating_key;
           VInt album_rating_key;
           VInt artist_rating_key;
           of_text (track_title t);
           of_int (track_index t);
           VInt (ta_duration ta);
           duration_human (ta_duration ta);
           VInt (ta_size_bytes ta);
           VText (human_readable_size (ta_size_bytes ta));
           of_text (ta_container ta);
           VText media_hash;
           summary m;
           originally_available m;
           genres m;
           VInt 1;
           VText current_time]] |}%list.

(** [", ".join(sorted(containers))] on the set of the media containers: a
    [None] among them makes [sorted] or [join] raise [TypeError]. *)
Definition join_containers (containers : list (option string)) : outcome string :=
  match mapM (fun c : option string => c) containers with
  | Some l => Ok (join ", " (sorted_set l))
  | None => Raise (TypeError "sequence item: expected str instance, NoneType found")
  end.

Record album_result := {
  ar_tracks : Z;
  ar_tracks_data : list tuple;
  ar_album_data : tuple
}.

(** Returns the list [seen_track_keys] as the call leaves it (the source
    appends to the caller's list) and either the triple the source returns
    or the exception it raises. *)
Definition process_album `{Externals} (al : album) (artist_rating_key : Z)
    (current_time : string) (seen_track_keys : list Z)
    : list Z * outcome (album_result * Z * Z) :=
  let album_rating_key := album_ratingKey al in
  let a :=
    fold_left (track_turn album_rating_key artist_rating_key (album_year al) current_time)
      (album_tracks al)
      {| aa_seen_track_keys := seen_track_keys; aa_album_size_bytes := 0;
         aa_total_duration := 0; aa_containers := []; aa_track_count := 0;
         aa_tracks_data := [] |} in
  let m := album_meta al in
  (aa_seen_track_keys a,
   match join_containers (aa_containers a) with
   | Raise e => Raise e
   | Ok containers =>
       Ok ({| ar_tracks := aa_track_count a;
              ar_tracks_data := aa_tracks_data a;
              ar_album_data :=
                [VInt album_rating_key;
                 VInt artist_rating_key;
                 of_text (album_title al);
                 of_int (album_year al);
                 VInt (aa_track_count a);
                 VInt (aa_album_size_bytes a);
                 VText (human_readable_size (aa_album_size_bytes a));
                 VInt (aa_total_duration a);
                 duration_human (aa_total_duration a);
                 VText containers;
                 summary m;
                 genres m;
                 originally_available m;
                 studio m;
                 VInt 1;
                 VText current_time] |},
           aa_album_size_bytes a, aa_total_duration a)
   end).

(** ** [process_music] *)

(** The lists the function fills while it walks the artists. *)
Record music_batch := {
  seen_artist_keys : list Z;
  seen_album_keys : list Z;
  seen_track_keys : list Z;
  tracks_data : list tuple;
  albums_data : list tuple;
  artists_data : list tuple;
  artist_image_tasks : list Z;
  album_image_tasks : list Z
}.

Definition music_batch_init : music_batch :=
  {| seen_artist_keys := []; seen_album_keys := []; seen_track_keys := [];
     tracks_data := []; albums_data := []; artists_data := [];
     artist_image_tasks := []; album_image_tasks := [] |}.

(** The names that the body of [for album in albums_list] binds.  They
    are locals of [process_music]: they keep their values after the loop
    and from one artist to the next, and are unbound ([None]) until the
    loop body has run once. *)
Record album_vars := {
  v_album : option album;
  v_album_rating_key : option Z;
  v_album_size_bytes : option Z;
  v_filtered_tracks : option (list tuple)
}.

Definition album_vars_init : album_vars :=
  {| v_album := None; v_album_rating_key := None; v_album_size_bytes := None;
     v_filtered_tracks := None |}.

Definition add_seen (seen : list Z) (k : Z) : list Z :=
  if bool_decide (k ∈ seen) then seen else (seen ++ [k])%list.

(** One turn of [for album in albums_list or []]; a raised exception ends
    the loop and the artist. *)
Definition album_turn `{Externals} (cfg : settings) (current_time : string)
    (existing_track_hashes : gmap Z value) (artist_rating_key : Z)
    (st : music_batch * album_vars) (al : album)
    : music_batch * album_vars * outcome unit :=
  let '(b, v) := st in
  let album_rating_key := album_ratingKey al in
  let '(seen_tracks, result) :=
    process_album al artist_rating_key current_time (seen_track_keys b) in
  match result with
  | Raise e =>
      ({| seen_artist_keys := seen_artist_keys b;
          seen_album_keys := seen_album_keys b ++ [album_rating_key];
          seen_track_keys := seen_tracks;
          tracks_data := tracks_data b;
          albums_data := albums_data b;
          artists_data := artists_data b;
          artist_image_tasks := artist_image_tasks b;
          album_image_tasks := album_image_tasks b |},
       {| v_album := Some al;
          v_album_rating_key := Some album_rating_key;
          v_album_size_bytes := v_album_size_bytes v;
          v_filtered_tracks := v_filtered_tracks v |},
       Raise e)
  | Ok (album_result, album_size_bytes, album_duration) =>
      let filtered_tracks :=
        changed_only cfg existing_track_hashes 10 (ar_tracks_data album_result) in
      ({| seen_artist_keys := seen_artist_keys b;
          seen_album_keys := seen_album_keys b ++ [album_rating_key];
          seen_track_keys :=
            fold_left add_seen
              ((fun track_data => tuple_int track_data 0) <$> ar_tracks_data album_result)
              seen_tracks;
          tracks_data := tracks_data b ++ filtered_tracks;
          albums_data := albums_data b ++ [ar_album_data album_result];
          artists_data := artists_data b;
          artist_image_tasks := artist_image_tasks b;
          album_image_tasks := album_image_tasks b |},
       {| v_album := Some al;
          v_album_rating_key := Some album_rating_key;
          v_album_size_bytes := Some album_size_bytes;
          v_filtered_tracks := Some filtered_tracks |},
       Ok tt)
  end%list.

Fixpoint albums_loop `{Externals} (cfg : settings) (current_time : string)
    (existing_track_hashes : gmap Z value) (artist_rating_key : Z)
    (albums_list : list album) (st : music_batch * album_vars)
    : music_batch * album_vars * outcome unit :=
  match albums_list with
  | [] => (st, Ok tt)
  | al :: rest =>
      match album_turn cfg current_time existing_track_hashes artist_rating_key st al with
      | (st', Ok _) =>
          albums_loop cfg current_time existing_track_hashes artist_rating_key rest st'
      | r => r
      end
  end.

(** The artist totals as the statements after the album loop leave them. *)
Record artist_totals := {
  artist_total_size_bytes : Z;
  artist_total_tracks : Z;
  artist_total_albums : Z;
  artist_years : list (option Z)
}.

Definition artist_totals_init : artist_totals :=
  {| artist_total_size_bytes := 0; artist_total_tracks := 0;
     artist_total_albums := 0; artist_years := [] |}.

Definition add_album_image_task (b : music_batch) (k : Z) : music_batch :=
  {| seen_artist_keys := seen_artist_keys b;
     seen_album_keys := seen_album_keys b;
     seen_track_keys := seen_track_keys b;
     tracks_data := tracks_data b;
     albums_data := albums_data b;
     artists_data := artists_data b;
     artist_image_tasks := artist_image_tasks b;
     album_image_tasks := (album_image_tasks b ++ [k])%list |}.

(** The block [if DOWNLOAD_IMAGES:] that follows the album loop at the
    indentation of the loop itself: it runs once per artist, on whatever the
    loop variables hold by then. *)
Definition after_albums (cfg : settings) (b : music_batch) (v : album_vars)
    : music_batch * outcome artist_totals :=
  if DOWNLOAD_IMAGES cfg then
    match v_album_rating_key v, v_album v with
    | Some album_rating_key, Some al =>
        let b' := add_album_image_task b album_rating_key in
        match v_album_size_bytes v, v_filtered_tracks v with
        | Some album_size_bytes, Some filtered_tracks =>
            (b', Ok {| artist_total_size_bytes := 0 + album_size_bytes;
                       artist_total_tracks := 0 + Z.of_nat (length filtered_tracks);
                       artist_total_albums := 0 + 1;
                       artist_years := [album_year al] |})
        | _, _ => (b', Raise (UnboundLocalError "album_size_bytes"))
        end
    | _, _ => (b, Raise (UnboundLocalError "album_rating_key"))
    end
  else (b, Ok artist_totals_init).

(** One turn of [for idx, artist in enumerate(artists, 1)]; an exception
    raised in the body is logged and the loop goes on with the next artist,
    keeping what the body had done until then. *)
Definition artist_turn `{Externals} (cfg : settings) (current_time : string)
    (existing_track_hashes : gmap Z value) (st : music_batch * album_vars)
    (ar : artist) : music_batch * album_vars :=
  let '(b, v) := st in
  let artist_name := artist_title ar in
  let artist_rating_key := artist_ratingKey ar in
  let b0 :=
    {| seen_artist_keys := seen_artist_keys b ++ [artist_rating_key];
       seen_album_keys := seen_album_keys b;
       seen_track_keys := seen_track_keys b;
       tracks_data := tracks_data b;
       albums_data := albums_data b;
       artists_data := artists_data b;
       artist_image_tasks :=
         if DOWNLOAD_IMAGES cfg then artist_image_tasks b ++ [artist_rating_key]
         else artist_image_tasks b;
       album_image_tasks := album_image_tasks b |}%list in
  match
    albums_loop cfg current_time existing_track_hashes artist_rating_key
      (artist_albums ar) (b0, v)
  with
  | (st1, Raise _) => st1
  | ((b1, v1), Ok _) =>
      match after_albums cfg b1 v1 with
      | (b2, Raise _) => (b2, v1)
      | (b2, Ok totals) =>
          let year_range := format_year_range (artist_years totals) in
          let m := artist_meta ar in
          ({| seen_artist_keys := seen_artist_keys b2;
              seen_album_keys := seen_album_keys b2;
              seen_track_keys := seen_track_keys b2;
              tracks_data := tracks_data b2;
              albums_data := albums_data b2;
              artists_data :=
                artists_data b2 ++
                  [[VInt artist_rating_key;
                    of_text artist_name;
                    VInt (artist_total_albums totals);
                    VInt (artist_total_tracks totals);
                    VInt (artist_total_size_bytes totals);
                    VText (human_readable_size (artist_total_size_bytes totals));
                    of_text year_range;
                    summary m;
                    genres m;
                    VInt 1;
                    VText current_time]];
              artist_image_tasks := artist_image_tasks b2;
              album_image_tasks := album_image_tasks b2 |}%list, v1)
      end
  end.

Definition collect_music `{Externals} (cfg : settings) (current_time : string)
    (existing_track_hashes : gmap Z value) (artists : list artist) : music_batch :=
  (fold_left (artist_turn cfg current_time existing_track_hashes) artists
     (music_batch_init, album_vars_init)).1.

Definition artists_insert_columns : list string :=
  ["ratingKey"; "artistName"; "totalAlbums"; "totalTracks"; "totalSizeBytes";
   "totalSizeHuman"; "yearRange"; "summary"; "genres"; "available"; "lastSeen"].

Definition albums_insert_columns : list string :=
  ["ratingKey"; "artistRatingKey"; "title"; "year"; "tracks"; "albumSizeBytes";
   "albumSizeHuman"; "albumDuration"; "albumDurationHuman"; "albumContainers";
   "summary"; "genres"; "originallyAvailableAt"; "studio"; "available"; "lastSeen"].

Definition tracks_insert_columns : list string :=
  ["ratingKey"; "albumRatingKey"; "artistRatingKey"; "title"; "trackNumber";
   "duration"; "durationHuman"; "sizeBytes"; "sizeHuman"; "container";
   "mediaHash"; "summary"; "originallyAvailableAt"; "genres"; "available";
   "lastSeen"].

(** The three batch inserts and the commit that follows them. *)
Definition upsert_music (b : music_batch) : db_op unit :=
  insert_if_any "artists" artists_insert_columns 11 (artists_data b) ;;;
  insert_if_any "albums" albums_insert_columns 16 (albums_data b) ;;;
  insert_if_any "tracks" tracks_insert_columns 16 (tracks_data b) ;;;
  do_commit.

Definition reconcile_music (artist_keys album_keys track_keys : list Z) : db_op unit :=
  mark_unavailable "artists" artist_keys "artist" "ratingKey" ;;;
  mark_unavailable "albums" album_keys "album" "ratingKey" ;;;
  mark_unavailable "tracks" track_keys "track" "ratingKey".

Definition process_music `{Externals} (cfg : settings) (current_time : string)
    (library_all : list (attempt (list artist))) : db_op unit :=
  match fetch_library 3 library_all with
  | None => ret tt
  | Some [] => reconcile_music [] [] []
  | Some artists =>
      let* existing_track_hashes := existing_hashes cfg "tracks" in
      let b := collect_music cfg current_time existing_track_hashes artists in
      upsert_music b ;;;
      reconcile_music (seen_artist_keys b) (seen_album_keys b) (seen_track_keys b)
  end.

(** ** Concrete data for the examples *)

(** Stand-ins for the two library calls, good enough to run the code: the
    digest of a string is the string itself, and the quotient is rendered
    as a fraction. *)
Definition sample_externals : Externals :=
  {| md5_hexdigest := fun s => s;
     format_2f := fun a b => str_of_int a +:+ "/" +:+ str_of_int b |}.

Definition no_meta : metadata :=
  {| summary := VNull; tagline := VNull; genres := VNull; studio := VNull;
     directors := VNull; writers := VNull; producers := VNull; actors := VNull;
     originally_available := VNull; rating := VNull; audience_rating := VNull |}.

(** A video medium with one part of the given size. *)
Definition video_media (size_bytes : Z) : media :=
  {| audioCodec := Some "aac"; videoCodec := Some "h264";
     videoResolution := Some "1080"; media_container := Some "mkv";
     media_duration := None;
     parts := [{| part_size := Some size_bytes; part_container := Some "mkv" |}] |}.

(** An audio medium with one part. *)
Definition audio_media (duration size_bytes : Z) : media :=
  {| audioCodec := Some "flac"; videoCodec := None; videoResolution := None;
     media_container := Some "flac"; media_duration := Some duration;
     parts := [{| part_size := Some size_bytes; part_container := Some "flac" |}] |}.

Definition sample_movie (key : Z) (media : list media) : movie :=
  {| movie_ratingKey := key; movie_title := Some "Movie"; movie_year := Some 1999;
     movie_contentRating := None; movie_duration := Some 5400000;
     movie_media := media; movie_meta := no_meta |}.

Definition sample_episode (key duration size_bytes : Z) (media : list media) : episode :=
  {| episode_ratingKey := key; episode_index := Some key;
     episode_title := Some "Episode"; episode_year := Some 2020;
     episode_duration := Some duration; episode_media := media;
     episode_meta := no_meta |}.

Definition sample_season (key : Z) (eps : list episode) : season :=
  {| season_ratingKey := key; seasonNumber := Some 1; season_title := Some "Season 1";
     season_episodes := Ok eps; season_meta := no_meta |}.

Definition sample_show (key : Z) (duration : option Z) (seasons : list season) : show :=
  {| show_ratingKey := key; show_title := Some "Show"; show_contentRating := None;
     show_duration := duration; seasonCount := Some (Z.of_nat (length seasons));
     show_seasons := Ok seasons; show_meta := no_meta |}.

Definition sample_track (key : Z) (media : list media) : track :=
  {| track_ratingKey := key; track_title := Some "Track"; track_index := Some key;
     track_media := media; track_meta := no_meta |}.

Definition sample_album (key year : Z) (tracks : list track) : album :=
  {| album_ratingKey := key; album_title := Some "Album"; album_year := Some year;
     album_tracks := tracks; album_meta := no_meta |}.

Definition sample_artist (key : Z) (albums : list album) : artist :=
  {| artist_ratingKey := key; artist_title := Some "Artist";
     artist_albums := albums; artist_meta := no_meta |}.

Definition parallel : settings := {| USE_PARALLEL := true; DOWNLOAD_IMAGES := true |}.
Definition parallel_no_images : settings :=
  {| USE_PARALLEL := true; DOWNLOAD_IMAGES := false |}.
Definition sequential : settings := {| USE_PARALLEL := false; DOWNLOAD_IMAGES := true |}.

(** The database [init_database] leaves on a new file. *)
Definition new_database : database := live (init_database false (connect_new true)).1.

(** A stored row with the columns reconciliation looks at. *)
Definition stored_row (key_column title_column : string) (key available : Z) : row :=
  list_to_map
    [(key_column, VInt key); (title_column, VText "Stored");
     ("mediaHash", VText "stale"); ("available", VInt available)].

(** [new_database] with rows of the given keys, all available, in table
    [table_name]. *)
Definition with_available (d : database) (table_name key_column title_column : string)
    (keys : list Z) : database :=
  match tables d !! table_name with
  | Some t =>
      set_table d table_name
        (set_rows t (list_to_map ((fun k => (k, stored_row key_column title_column k 1)) <$> keys)))
  | None => d
  end.

Definition connection_of (d : database) : connection :=
  {| durable := d; live := d; fts5_module := true |}.

(** The keys of the rows of a table that are stored as available, in
    increasing order. *)
Definition available_keys (d : database) (table_name : string) : list Z :=
  match tables d !! table_name with
  | Some t =>
      merge_sort Z.le
        (omap (fun kr : Z * row =>
                 if sql_eq_int (kr.2 !! "available") 1 then Some kr.1 else None)
              (map_to_list (rows t)))
  | None => []
  end.

(** The keys of all rows of a table, in increasing order. *)
Definition stored_keys (d : database) (table_name : string) : list Z :=
  match tables d !! table_name with
  | Some t => merge_sort Z.le ((map_to_list (rows t)).*1)
  | None => []
  end.

(** A stored library: every table has rows, all available. *)
Definition stored_library : database :=
  with_available
    (with_available
       (with_available
          (with_available
             (with_available
                (with_available
                   (with_available new_database "movies" "ratingKey" "title" [1; 2; 3])
                   "tv_shows" "ratingKey" "title" [10])
                "seasons" "seasonRatingKey" "title" [11])
             "episodes" "ratingKey" "title" [101; 102; 103])
          "artists" "ratingKey" "artistName" [1; 2; 3])
       "albums" "ratingKey" "title" [20])
    "tracks" "ratingKey" "title" [200; 201].

Definition stored_connection : connection := connection_of stored_library.

(** The reconciliation scenario: stored available ids 1, 2, 3; the run sees
    2, 3 and 4. *)
Definition stored_movies_123 : connection :=
  connection_of (with_available new_database "movies" "ratingKey" "title" [1; 2; 3]).

Definition movies_234 : list movie :=
  [sample_movie 2 [video_media 700]; sample_movie 3 [video_media 800];
   sample_movie 4 [video_media 900]].

Definition stored_artists_123 : connection :=
  connection_of (with_available new_database "artists" "ratingKey" "artistName" [1; 2; 3]).

Definition sample_album_of (key : Z) : album :=
  sample_album key 2000
    [sample_track (10 * key) [audio_media 1000 5];
     sample_track (10 * key + 1) [audio_media 2000 7]].

Definition artists_234 : list artist :=
  [sample_artist 2 [sample_album_of 20];
   sample_artist 3 [sample_album_of 30];
   sample_artist 4 [sample_album_of 40]].

(** The season of the aggregation example: durations 30, 45, 60 and sizes
    100, 200, 300. *)
Definition season_30_45_60 : season :=
  sample_season 11
    [sample_episode 101 30 100 [video_media 100];
     sample_episode 102 45 200 [video_media 200];
     sample_episode 103 60 300 [video_media 300]].

(** A show without seasons whose own duration attribute is half an hour. *)
Definition show_without_seasons : show := sample_show 10 (Some 1800000) [].

(** The hash the run computes for the first episode of [season_30_45_60];
    stored under its key, it makes that episode unchanged. *)
Definition hash_of_episode_101 `{Externals} : string :=
  calculate_media_hash 100 30 (Some "H264") (Some "1080p") (Some "mkv")
    (Some "Episode") (Some 2020).

Definition show_30_45_60 : show := sample_show 10 None [season_30_45_60].

(** The count, the average duration and the size of each season row of a
    batch. *)
Definition season_figures (b : tv_batch) : list (option value * option value * option value) :=
  (fun row : tuple => (row !! 3%nat, row !! 4%nat, row !! 6%nat)) <$> seasons_data b.

Definition tuple_keys (l : list tuple) : list Z :=
  (fun t => tuple_int t 0) <$> l.

(** An artist with two albums: two tracks of sizes 5 and 7 from 1999, one
    track of size 100 from 2005. *)
Definition artist_with_two_albums : artist :=
  sample_artist 2
    [sample_album 20 1999
       [sample_track 200 [audio_media 1000 5]; sample_track 201 [audio_media 2000 7]];
     sample_album 21 2005 [sample_track 210 [audio_media 3000 100]]].

(** The albums, tracks, size and year range of each artist row of a batch. *)
Definition artist_figures (b : music_batch)
    : list (option value * option value * option value * option value) :=
  (fun row : tuple => (row !! 2%nat, row !! 3%nat, row !! 4%nat, row !! 6%nat))
    <$> artists_data b.

(** An album whose first track has no media. *)
Definition album_with_silent_track : album :=
  sample_album 30 2001 [sample_track 300 []; sample_track 301 [audio_media 1000 5]].

(** The stored artists 1, 2, 3 with their rows in [search_fts]. *)
Definition stored_artists_indexed : connection :=
  (execute (populate_search_fts "artist" "artists" "artistName" false)
     stored_artists_123).1.

(** ** [fetch_with_retry]

    What one call of [fetch_func] can do, as the loop tells the cases
    apart: return a list, raise [Timeout] or [ConnectionError], or raise
    anything else. *)
Inductive call (A : Type) :=
| Returned (a : list A)
| TimedOut
| Failed (e : exn).
Arguments Returned {A} a.
Arguments TimedOut {A}.
Arguments Failed {A} e.

(** [for attempt in range(max_retries)] from [attempt] on, with
    [remaining] turns left.  [fetch_func] is given by the outcomes of its
    successive calls, numbered from 0; the result comes with the waits
    slept through, in order.  [time.sleep] raises [ValueError] on a
    negative wait, from inside the handler, and the function is left. *)
Fixpoint fetch_with_retry_from {A} (fetch_func : nat → call A) (max_retries : nat)
    (base_wait : Z) (remaining attempt : nat) : outcome (list A) * list Z :=
  match remaining with
  | O => (Ok [], [])
  | S n =>
      match fetch_func attempt with
      | Returned a => (Ok a, [])
      | Failed e => (Raise e, [])
      | TimedOut =>
          if (attempt <? max_retries - 1)%nat then
            let wait_time := (Z.of_nat attempt + 1) * base_wait in
            if wait_time <? 0 then
              (Raise (ValueError "sleep length must be non-negative"), [])
            else
              let '(r, waits) :=
                fetch_with_retry_from fetch_func max_retries base_wait n (S attempt) in
              (r, wait_time :: waits)
          else (Ok [], [])
      end
  end.

Definition fetch_with_retry {A} (fetch_func : nat → call A) (max_retries : nat)
    (base_wait : Z) : outcome (list A) * list Z :=
  fetch_with_retry_from fetch_func max_retries base_wait max_retries 0.

(** ** [download_images_parallel]

    The counters of the loop over [as_completed(...)]; [completed] lists
    what [future.result()] gives for each future, in the order in which the
    futures complete. *)
Record image_stats := {
  downloaded : Z;
  failed : Z
}.

Definition count_result (st : image_stats) (result : outcome bool) : image_stats :=
  match result with
  | Ok true => {| downloaded := downloaded st + 1; failed := failed st |}
  | Ok false | Raise _ => {| downloaded := downloaded st; failed := failed st + 1 |}
  end.

Definition download_images_parallel (completed : list (outcome bool)) : image_stats :=
  match completed with
  | [] => {| downloaded := 0; failed := 0 |}
  | _ => fold_left count_result completed {| downloaded := 0; failed := 0 |}
  end.

(** ** Vocabulary of the statements *)

(** How a run may change the rows of [schema_version]: by recording
    versions, each of them between 1 and [SCHEMA_VERSION]. *)
Inductive records : option (list Z) → option (list Z) → Prop :=
| records_refl o : records o o
| records_step o1 o2 v :
    records o1 o2 → 1 ≤ v ≤ SCHEMA_VERSION → records o1 (with_version v o2).

(** An operation that changes [schema_version] only by recording
    versions. *)
Definition recording {A} (m : db_op A) : Prop :=
  ∀ c, records (schema_version (live c)) (schema_version (live (m c).1)).

(** What reconciliation may do to a row: leave every column but
    [available] as it is, change [available] only from 1 to 0, and leave the
    row alone when its key is among the seen keys. *)
Definition only_flips (key_column : string) (seen_keys : list Z) (r r' : row) : Prop :=
  (∀ col, col ≠ "available" → r' !! col = r !! col)
  ∧ (r' !! "available" = r !! "available"
     ∨ (sql_eq_int (r !! "available") 1 = true ∧ r' !! "available" = Some (VInt 0)))
  ∧ (∀ k, r !! key_column = Some (VInt k) → k ∈ seen_keys → r' = r).

(** The same for a table: same columns, same keys, rows related by
    [only_flips]. *)
Definition table_frame (key_column : string) (seen_keys : list Z) (t t' : table) : Prop :=
  columns t' = columns t
  ∧ primary_key t' = primary_key t
  ∧ ∀ k, option_Forall2 (only_flips key_column seen_keys) (rows t !! k) (rows t' !! k).

(** And for a database reconciled on [table_name]: the other tables, the
    schema version and the indexes are untouched; [search_fts] keeps its
    rows, in order, each related by [only_flips] on its [ratingKey]. *)
Definition database_frame (table_name key_column : string) (seen_keys : list Z)
    (d d' : database) : Prop :=
  (∀ n, n ≠ table_name → tables d' !! n = tables d !! n)
  ∧ option_Forall2 (table_frame key_column seen_keys)
      (tables d !! table_name) (tables d' !! table_name)
  ∧ option_Forall2 (Forall2 (only_flips "ratingKey" seen_keys))
      (search_fts d) (search_fts d')
  ∧ schema_version d' = schema_version d
  ∧ indexes d' = indexes d.

(** The seven tables that hold catalog entities. *)
Definition entity_tables : list string :=
  ["movies"; "tv_shows"; "seasons"; "episodes"; "artists"; "albums"; "tracks"].

(** The table exists and has the column [available]. *)
Definition has_availability (d : database) (table_name : string) : bool :=
  match tables d !! table_name with
  | Some t => has_column t "available"
  | None => false
  end.

(** No row of the table is stored as available. *)
Definition none_available (d : database) (table_name : string) : Prop :=
  ∀ t k r, tables d !! table_name = Some t → rows t !! k = Some r →
    sql_eq_int (r !! "available") 1 = false.

(** The integer-truncated quotient of a sum by a count, 0 for no child. *)
Definition truncated_average (total count : Z) : Z :=
  if count =? 0 then 0 else total ÷ count.

(** The seasons of a show and the episodes of a season: the list when the
    listing returned one. *)
Definition seasons_of (sh : show) : list season :=
  match show_seasons sh with Ok l => l | Raise _ => [] end.

Definition episodes_of (s : season) : list episode :=
  match season_episodes s with Ok l => l | Raise _ => [] end.

(** No listing of the show raised: not that of its seasons, not that of
    the episodes of any of them. *)
Definition listed_season (s : season) : Prop := ∃ l, season_episodes s = Ok l.

Definition listed (sh : show) : Prop :=
  (∃ l, show_seasons sh = Ok l) ∧ Forall listed_season (seasons_of sh).

(** The children a season retains: the episodes for which
    [process_episode] returns a result. *)
Definition retained_episodes `{Externals} (s : season) (show_rating_key : Z)
    (current_time : string) : list episode_result :=
  omap (fun ep => process_episode ep (season_ratingKey s) show_rating_key current_time)
       (episodes_of s).

(** The children of a show: the episodes its seasons retain. *)
Definition show_retained `{Externals} (sh : show) (current_time : string)
    : list episode_result :=
  seasons_of sh ≫= (fun s => retained_episodes s (show_ratingKey sh) current_time).

Definition sum_of {A} (f : A → Z) (l : list A) : Z :=
  foldr (fun x acc => f x + acc) 0 l.

(** The row a show gets when it is processed on its own. *)
Definition show_row `{Externals} (cfg : settings) (current_time : string)
    (existing : gmap Z value) (sh : show) : tuple :=
  default [] (last (shows_data (show_turn cfg current_time existing tv_batch_init sh))).

(** The row a season gets when it is processed on its own. *)
Definition season_row `{Externals} (cfg : settings) (current_time : string)
    (existing : gmap Z value) (show_rating_key : Z) (s : season) : tuple :=
  default []
    (last (seasons_data
             (season_turn cfg current_time existing show_rating_key
                (tv_batch_init, show_acc_init) s).1.1)).

(** A batch upsert shares the transaction of the reconciliation that
    follows it when nothing of it is durable at the point where the
    reconciliation starts: a failure there leaves the store as it was. *)
Definition in_transaction_of_reconciliation (upsert : db_op unit) : Prop :=
  ∀ c, durable (upsert c).1 = durable c.

(** No row of the table is left for the UPDATE of [mark_unavailable] to
    select: none is available with a key outside the seen keys. *)
Definition reconciled (key_column : string) (seen_keys : list Z) (d : database)
    (table_name : string) : Prop :=
  ∀ t k r, tables d !! table_name = Some t → rows t !! k = Some r →
    selected key_column seen_keys r = false.

(** What the media and part loops of a track keep constant: the size of
    the album less the size of the track. *)
Definition size_gap (a : track_acc) : Z := ta_album_size_bytes a - ta_size_bytes a.

(** Strictly before, in the order [sorted] puts strings. *)
Definition string_lt (a b : string) : Prop := String.ltb a b = true.

(** The waits before the attempts 1 to [k]: [base_wait], twice
    [base_wait], and so on. *)
Definition waits_before (k : nat) (base_wait : Z) : list Z :=
  (fun i => (Z.of_nat i + 1) * base_wait) <$> seq 0 k.

(** What the caller gets from a call that did not time out. *)
Definition answer {A} (c : call A) : outcome (list A) :=
  match c with
  | Returned a => Ok a
  | Failed e => Raise e
  | TimedOut => Ok []
  end.

Definition succeeded (result : outcome bool) : bool :=
  match result with Ok true => true | _ => false end.

(** Every tuple of a batch has one value for each column the INSERT
    names. *)
Definition fits (cols : list string) (data : list tuple) : Prop :=
  Forall (fun t : tuple => length t = length cols) data.

(** What the loops of [process_music] keep: the three lists fit their
    columns. *)
Definition music_fits (b : music_batch) : Prop :=
  fits artists_insert_columns (artists_data b)
  ∧ fits albums_insert_columns (albums_data b)
  ∧ fits tracks_insert_columns (tracks_data b).

(** An item has a first media with a first part. *)
Definition playable (ms : list media) : bool :=
  match ms with
  | m :: _ => match parts m with _ :: _ => true | [] => false end
  | [] => false
  end.

Definition playable_movie_keys (movies : list movie) : list Z :=
  movie_ratingKey <$> filter (fun mv => playable (movie_media mv) = true) movies.

Definition playable_episode_keys (s : season) : list Z :=
  episode_ratingKey
    <$> filter (fun ep => playable (episode_media ep) = true) (episodes_of s).

Definition listed_season_keys (sh : show) : list Z :=
  season_ratingKey <$> seasons_of sh.

(** The rows of a batch are rows of seen items. *)
Definition rows_seen (data : list tuple) (seen : list Z) : Prop :=
  tuple_keys data ⊆ seen.

Definition tv_rows_seen (b : tv_batch) : Prop :=
  rows_seen (shows_data b) (seen_show_keys b)
  ∧ rows_seen (seasons_data b) (seen_season_keys b)
  ∧ rows_seen (episodes_data b) (seen_episode_keys b).

Definition music_rows_seen (b : music_batch) : Prop :=
  rows_seen (artists_data b) (seen_artist_keys b)
  ∧ rows_seen (albums_data b) (seen_album_keys b)
  ∧ rows_seen (tracks_data b) (seen_track_keys b)
  ∧ NoDup (seen_track_keys b).

(** [d'] holds everything [d] holds: every table with its rows and its
    key, its columns followed by any new ones; the rows of [search_fts]
    followed by any new ones; every index; every recorded version. *)
Definition table_grows (t t' : table) : Prop :=
  rows t' = rows t
  ∧ primary_key t' = primary_key t
  ∧ columns t `prefix_of` columns t'.

Definition grows (d d' : database) : Prop :=
  (∀ n t, tables d !! n = Some t → ∃ t', tables d' !! n = Some t' ∧ table_grows t t')
  ∧ (∀ f, search_fts d = Some f → ∃ f', search_fts d' = Some f' ∧ f `prefix_of` f')
  ∧ indexes d ⊆ indexes d'
  ∧ default [] (schema_version d) ⊆ default [] (schema_version d').

(** An operation under which the database the connection sees only grows,
    and what it makes durable is a database it has seen. *)
Definition keeping {A} (m : db_op A) : Prop :=
  ∀ c, grows (live c) (live (m c).1)
       ∧ (durable (m c).1 = durable c ∨ grows (live c) (durable (m c).1)).

(** The albums of an artist are what [fetch_with_retry] returned after all
    three calls of [artist.albums()] had timed out. *)
Definition albums_timed_out (ar : artist) : Prop :=
  ∃ fetch_func : nat → call album,
    (∀ j, (j < 3)%nat → fetch_func j = TimedOut)
    ∧ (fetch_with_retry fetch_func 3 2).1 = Ok (artist_albums ar).

(** A batch that holds nothing of an album. *)
Definition album_free (b : music_batch) : Prop :=
  seen_album_keys b = [] ∧ seen_track_keys b = []
  ∧ albums_data b = [] ∧ tracks_data b = [].

(** The row an INSERT makes of a tuple. *)
Definition row_of (cols : list string) (vals : tuple) : row :=
  list_to_map (zip cols vals).

(** The tuple gives its first value as [ratingKey] and 1 as [available]. *)
Definition keyed_available (cols : list string) (vals : tuple) : Prop :=
  row_of cols vals !! "ratingKey" = Some (VInt (tuple_int vals 0))
  ∧ row_of cols vals !! "available" = Some (VInt 1).

(** The table holds a row under the key [k], with that [ratingKey], stored
    as available. *)
Definition stored_available (d : database) (table_name : string) (k : Z) : Prop :=
  ∃ t r, tables d !! table_name = Some t ∧ rows t !! k = Some r
         ∧ r !! "ratingKey" = Some (VInt k) ∧ r !! "available" = Some (VInt 1).

(** The table, if there is one, is keyed by [ratingKey]. *)
Definition keyed_by_rating_key (d : database) (table_name : string) : Prop :=
  ∀ t, tables d !! table_name = Some t → primary_key t = "ratingKey".

(** A track tuple is keyed and available, and the text at index 10, which
    the skip test reads, is what the INSERT stores as [mediaHash]. *)
Definition track_tuple_ok (vals : tuple) : Prop :=
  keyed_available tracks_insert_columns vals
  ∧ ∃ h, vals !! 10%nat = Some (VText h)
         ∧ row_of tracks_insert_columns vals !! "mediaHash" = Some (VText h).

(** What the loops of [process_music] keep: every tuple is keyed and
    available. *)
Definition music_keyed (b : music_batch) : Prop :=
  Forall (keyed_available artists_insert_columns) (artists_data b)
  ∧ Forall (keyed_available albums_insert_columns) (albums_data b)
  ∧ Forall track_tuple_ok (tracks_data b).

(** Every row of the table is stored under its own [ratingKey]. *)
Definition consistent_keys (d : database) (table_name : string) : Prop :=
  ∀ t k r, tables d !! table_name = Some t → rows t !! k = Some r →
    r !! "ratingKey" = Some (VInt k).

(** * Properties *)

Example join_unique_ex :
  join_unique [Some "H264"; None; Some "AAC"; Some ""; Some "H264"] = "AAC, H264".
Proof. reflexivity. Qed.

Example duration_ex : human_readable_duration 2700000 = "45 mins".
Proof. reflexivity. Qed.

(** ** Schema versions and migrations *)

Lemma get_schema_version_stored c :
  get_schema_version c = stored_version (schema_version (live c)).
Proof. reflexivity. Qed.

Lemma list_max_ge (vs : list Z) : ∀ v, v ≤ list_max v vs.
Proof.
  unfold list_max. induction vs as [|x vs IH]; intros v; simpl; [lia|].
  specialize (IH (Z.max v x)). lia.
Qed.

Lemma list_max_upper (vs : list Z) : ∀ v x, x ∈ vs → x ≤ list_max v vs.
Proof.
  unfold list_max. induction vs as [|y vs IH]; intros v x Hx; simpl.
  - by apply elem_of_nil in Hx.
  - apply elem_of_cons in Hx as [->|Hx]; [|by apply IH].
    pose proof (list_max_ge vs (Z.max v y)) as H. unfold list_max in H. lia.
Qed.

Lemma list_max_elem (vs : list Z) : ∀ v, list_max v vs ∈ v :: vs.
Proof.
  unfold list_max. induction vs as [|y vs IH]; intros v; simpl.
  - apply elem_of_cons; by left.
  - specialize (IH (Z.max v y)). apply elem_of_cons in IH as [IH|IH].
    + rewrite IH. destruct (Z.max_spec v y) as [[_ ->]|[_ ->]];
        set_solver.
    + set_solver.
Qed.

Lemma stored_version_upper (l : list Z) x : x ∈ l → x ≤ stored_version (Some l).
Proof.
  destruct l as [|v vs]; [by intros ?%elem_of_nil|].
  intros [->|Hx]%elem_of_cons; simpl.
  - apply list_max_ge.
  - by apply list_max_upper.
Qed.

Lemma stored_version_elem (l : list Z) : l ≠ [] → stored_version (Some l) ∈ l.
Proof. destruct l as [|v vs]; [done|]. intros _. apply list_max_elem. Qed.

Lemma elem_of_with_version v o x :
  x ∈ default [] (with_version v o) ↔ x = v ∨ x ∈ default [] o.
Proof.
  unfold with_version; simpl. rewrite elem_of_cons, list_elem_of_filter.
  destruct (decide (x = v)) as [->|Hne]; [tauto|].
  split; [intros [?|[_ ?]]; tauto | intros [?|?]; [done | by right]].
Qed.

Lemma stored_version_with_version v o :
  0 ≤ v → stored_version o ≤ stored_version (with_version v o).
Proof.
  intros Hv.
  assert (Hin : ∀ x, x ∈ default [] o → x ≤ stored_version (with_version v o)).
  { intros x Hx. apply stored_version_upper.
    apply (elem_of_with_version v o x). by right. }
  assert (Hv' : v ≤ stored_version (with_version v o)).
  { apply stored_version_upper. set_solver. }
  destruct o as [[|y ys]|]; [simpl; lia| |simpl; lia].
  apply Hin. apply (stored_version_elem (y :: ys)). done.
Qed.

Lemma records_trans o1 o2 o3 : records o1 o2 → records o2 o3 → records o1 o3.
Proof. intros H12 H23. induction H23; [done|]. by constructor; [apply IHrecords|]. Qed.

Lemma records_monotone o1 o2 : records o1 o2 → stored_version o1 ≤ stored_version o2.
Proof.
  induction 1 as [|o1 o2 v _ IH Hv]; [lia|].
  pose proof (stored_version_with_version v o2). lia.
Qed.

Lemma records_bounded o1 o2 n :
  SCHEMA_VERSION ≤ n →
  records o1 o2 →
  (∀ x, x ∈ default [] o1 → x ≤ n) → ∀ x, x ∈ default [] o2 → x ≤ n.
Proof.
  intros Hn. induction 1 as [|o1 o2 v _ IH Hv]; [done|].
  intros H1 x [->|Hx]%elem_of_with_version; [lia|]. by apply IH.
Qed.

Lemma recording_ret {A} (a : A) : recording (ret a).
Proof. intros c. constructor. Qed.

Lemma recording_bind {A B} (m : db_op A) (k : A → db_op B) :
  recording m → (∀ a, recording (k a)) → recording (bind m k).
Proof.
  intros Hm Hk c. unfold bind. specialize (Hm c).
  destruct (m c) as [c1 [a|e]]; simpl in *; [|done].
  eapply records_trans; [done|]. apply Hk.
Qed.

Lemma recording_execute stmt :
  (∀ d d', stmt d = Ok d' → schema_version d' = schema_version d) →
  recording (execute stmt).
Proof.
  intros H c. unfold execute. destruct (stmt (live c)) as [d'|e] eqn:E; simpl.
  - rewrite (H _ _ E). constructor.
  - constructor.
Qed.

Lemma recording_commit : recording do_commit.
Proof. intros c. constructor. Qed.

Lemma bindable_version v : 0 ≤ v ≤ SCHEMA_VERSION → - 2 ^ 63 ≤ v < 2 ^ 63.
Proof.
  unfold SCHEMA_VERSION. change (2 ^ 63) with 9223372036854775808. lia.
Qed.

(** The write of a version that SQLite can bind. *)
Lemma set_schema_version_bindable v c :
  - 2 ^ 63 ≤ v < 2 ^ 63 →
  set_schema_version v c
  = (commit (set_live c (set_schema_rows (live c)
                           (with_version v (schema_version (live c))))),
     Ok tt).
Proof.
  intros [H1 H2]. apply Z.leb_le in H1. apply Z.ltb_lt in H2.
  unfold set_schema_version, bind, execute, create_schema_version, insert_version,
    do_commit.
  cbn [live set_live]. by rewrite H1, H2.
Qed.

Lemma recording_set_schema_version v :
  1 ≤ v ≤ SCHEMA_VERSION → recording (set_schema_version v).
Proof.
  intros Hv c. rewrite set_schema_version_bindable by (apply bindable_version; lia).
  simpl. apply records_step; [constructor|done].
Qed.

Lemma recording_except m : recording m → recording (except_duplicate_column m).
Proof.
  intros Hm c. unfold except_duplicate_column. specialize (Hm c).
  destruct (m c) as [c1 [[]|[msg|?|?|?|?|?|?]]]; simpl in *; try done.
  by destruct (contains _ _).
Qed.

Lemma recording_try m : recording m → recording (try_operational m).
Proof.
  intros Hm c. unfold try_operational. specialize (Hm c).
  by destruct (m c) as [c1 [[]|[msg|?|?|?|?|?|?]]].
Qed.

Lemma recording_when b m : recording m → recording (when b m).
Proof. destruct b; [done|]. intros _. apply recording_ret. Qed.

Lemma alter_add_column_version t col d d' :
  alter_add_column t col d = Ok d' → schema_version d' = schema_version d.
Proof.
  unfold alter_add_column. destruct (tables d !! t); [|done].
  destruct (has_column _ _); [done|]. by intros [= <-].
Qed.

Lemma create_index_version n t col d d' :
  create_index n t col d = Ok d' → schema_version d' = schema_version d.
Proof.
  unfold create_index. case_bool_decide; [by intros [= <-]|].
  destruct (tables d !! t); [|done].
  destruct (has_column _ _); [|done]. by intros [= <-].
Qed.

Lemma create_search_fts_version b d d' :
  create_search_fts b d = Ok d' → schema_version d' = schema_version d.
Proof.
  unfold create_search_fts. destruct (search_fts d); [by intros [= <-]|].
  destruct b; [|done]. by intros [= <-].
Qed.

Lemma populate_search_fts_version ty t col y d d' :
  populate_search_fts ty t col y d = Ok d' → schema_version d' = schema_version d.
Proof.
  unfold populate_search_fts. destruct (search_fts d); [|done].
  destruct (tables d !! t); [|done].
  destruct (filter _ _); [|done]. by intros [= <-].
Qed.

Lemma recording_add_columns t cols : recording (add_columns t cols).
Proof.
  induction cols as [|col cols IH]; simpl; [apply recording_ret|].
  apply recording_bind; [|done].
  apply recording_except, recording_execute, alter_add_column_version.
Qed.

Lemma recording_add_hash_column t i : recording (add_hash_column t i).
Proof.
  apply recording_except, recording_bind; [|intros _];
    apply recording_execute;
    [apply alter_add_column_version | apply create_index_version].
Qed.

Lemma recording_populate_all : recording populate_all.
Proof.
  repeat (apply recording_bind; [|intros _]);
    apply recording_execute, populate_search_fts_version.
Qed.

Lemma recording_migration_1 : recording migration_1.
Proof.
  repeat (apply recording_bind; [apply recording_add_hash_column|intros _]).
  by apply recording_set_schema_version.
Qed.

Lemma recording_migration_2 : recording migration_2.
Proof.
  repeat (apply recording_bind; [apply recording_add_columns|intros _]).
  by apply recording_set_schema_version.
Qed.

Lemma recording_migration_3 : recording migration_3.
Proof.
  assert (Hset : recording (set_schema_version 3))
    by by apply recording_set_schema_version.
  assert (Hbody : recording migration_3_body).
  { apply recording_bind; [|intros _; apply recording_bind;
                            [apply recording_populate_all|done]].
    intros c. apply (recording_execute _ (create_search_fts_version _)). }
  intros c. unfold migration_3. specialize (Hbody c).
  destruct (migration_3_body c) as [c1 [[]|[msg|?|?|?|?|?|?]]]; simpl in *; try done.
  destruct (_ || _); [|done].
  eapply records_trans; [done|]. apply Hset.
Qed.

Lemma recording_run_migrations cur tgt : recording (run_migrations cur tgt).
Proof.
  unfold run_migrations. destruct (tgt <=? cur); [apply recording_ret|].
  apply recording_bind; [apply recording_when, recording_migration_1|intros _].
  apply recording_bind; [apply recording_when, recording_migration_2|intros _].
  apply recording_when, recording_migration_3.
Qed.

Lemma bind_ok_inv {A B} (m : db_op A) (k : A → db_op B) c c1 b :
  bind m k c = (c1, Ok b) → ∃ c' a, m c = (c', Ok a) ∧ k a c' = (c1, Ok b).
Proof.
  unfold bind. destruct (m c) as [c' [a|e]]; [|done]. intros H. by exists c', a.
Qed.

Lemma set_schema_version_elem v c c1 r :
  0 ≤ v ≤ SCHEMA_VERSION →
  set_schema_version v c = (c1, r) → v ∈ default [] (schema_version (live c1)).
Proof.
  intros Hv. rewrite set_schema_version_bindable by by apply bindable_version.
  intros [= <- _]. simpl. apply elem_of_cons. by left.
Qed.

Lemma migration_3_records c c1 :
  migration_3 c = (c1, Ok tt) → 3 ∈ default [] (schema_version (live c1)).
Proof.
  unfold migration_3.
  destruct (migration_3_body c) as [c2 [[]|[msg|?|?|?|?|?|?]]] eqn:E; try done.
  - intros [= <-].
    apply bind_ok_inv in E as (? & ? & _ & E).
    apply bind_ok_inv in E as (? & ? & _ & E).
    by eapply set_schema_version_elem.
  - destruct (_ || _); [|done]. by apply set_schema_version_elem.
Qed.

Lemma run_migrations_up_to_date cur tgt c :
  tgt ≤ cur → run_migrations cur tgt c = (c, Ok tt).
Proof. intros H. unfold run_migrations. by rewrite (Zle_imp_le_bool _ _ H). Qed.

Lemma run_migrations_monotone cur tgt c :
  get_schema_version c ≤ get_schema_version (run_migrations cur tgt c).1.
Proof. apply records_monotone, recording_run_migrations. Qed.

Lemma migrate_reaches_target c c1 :
  get_schema_version c = 0 → migrate c = (c1, Ok tt) →
  get_schema_version c1 = SCHEMA_VERSION.
Proof.
  intros H0 Hm. unfold migrate in Hm. rewrite H0 in Hm.
  pose proof (recording_run_migrations 0 SCHEMA_VERSION c) as Hrec.
  rewrite Hm in Hrec. simpl in Hrec.
  assert (H3 : 3 ∈ default [] (schema_version (live c1))).
  { unfold run_migrations in Hm. simpl in Hm.
    apply bind_ok_inv in Hm as (? & ? & _ & Hm).
    apply bind_ok_inv in Hm as (? & ? & _ & Hm).
    by apply migration_3_records in Hm. }
  assert (Hle : ∀ x, x ∈ default [] (schema_version (live c1)) → x ≤ 3).
  { eapply (records_bounded _ _ 3); [done|exact Hrec|].
    intros x Hx. unfold get_schema_version in H0.
    destruct (schema_version (live c)) as [l|]; [|by apply elem_of_nil in Hx].
    simpl in Hx. apply stored_version_upper in Hx. lia. }
  unfold get_schema_version, SCHEMA_VERSION.
  destruct (schema_version (live c1)) as [l|]; [|by apply elem_of_nil in H3].
  simpl in *. apply Z.le_antisymm.
  - apply Hle, stored_version_elem. intros ->. by apply elem_of_nil in H3.
  - by apply stored_version_upper.
Qed.

(** C5. Applying the migration chain to a database at version 0 and then
    applying it again gives the state the first application left, schema
    and stored version alike, and that version is [SCHEMA_VERSION]; a run
    whose stored version is at or above the target changes nothing; no run,
    completed or aborted, lowers the stored version. *)
Theorem migration_chain_idempotent c c1 :
  get_schema_version c = 0 →
  migrate c = (c1, Ok tt) →
  migrate c1 = (c1, Ok tt)
  ∧ get_schema_version c1 = SCHEMA_VERSION
  ∧ (∀ c' cur tgt, tgt ≤ cur → run_migrations cur tgt c' = (c', Ok tt))
  ∧ (∀ c' cur tgt,
       get_schema_version c' ≤ get_schema_version (run_migrations cur tgt c').1).
Proof.
  intros H0 Hm. pose proof (migrate_reaches_target c c1 H0 Hm) as Hv.
  repeat split.
  - unfold migrate. rewrite Hv. by apply run_migrations_up_to_date.
  - done.
  - intros. by apply run_migrations_up_to_date.
  - intros. apply run_migrations_monotone.
Qed.

Lemma migration_chain_idempotent_witness :
  let c1 := (migrate legacy_connection).1 in
  migrate c1 = (c1, Ok tt)
  ∧ get_schema_version c1 = SCHEMA_VERSION
  ∧ (∀ c' cur tgt, tgt ≤ cur → run_migrations cur tgt c' = (c', Ok tt))
  ∧ (∀ c' cur tgt,
       get_schema_version c' ≤ get_schema_version (run_migrations cur tgt c').1).
Proof.
  apply (migration_chain_idempotent legacy_connection).
  - reflexivity.
  - vm_compute. reflexivity.
Defined.

(** The first application does change the legacy database: the hash and
    summary columns appear and the version is recorded. *)
Example migrate_legacy_effect :
  let c1 := (migrate legacy_connection).1 in
  get_schema_version legacy_connection = 0
  ∧ get_schema_version c1 = 3
  ∧ (columns <$> tables (live c1) !! "artists")
    = Some ["ratingKey"; "artistName"; "totalAlbums"; "totalTracks";
            "totalSizeBytes"; "available"; "lastSeen"; "summary"; "genres"]
  ∧ indexes (live c1)
    = list_to_set ["idx_movies_hash"; "idx_episodes_hash"; "idx_tracks_hash"]
  ∧ length <$> search_fts (live c1) = Some 1%nat.
Proof. cbv zeta. repeat apply conj; vm_compute; reflexivity. Qed.

(** Applying all three migrations a second time, as after an interrupted
    run that did not record its version: the columns, the indexes and the
    stored version are those of the first application. *)
Example migrations_applied_again :
  let c1 := (run_migrations 0 SCHEMA_VERSION legacy_connection).1 in
  let r2 := run_migrations 0 SCHEMA_VERSION c1 in
  r2.2 = Ok tt
  ∧ columns <$> tables (live r2.1) = columns <$> tables (live c1)
  ∧ indexes (live r2.1) = indexes (live c1)
  ∧ get_schema_version r2.1 = get_schema_version c1.
Proof. cbv zeta. repeat apply conj; vm_compute; reflexivity. Qed.

(** [init_database] on a new file completes, with or without the fts5
    module, and leaves the version at [SCHEMA_VERSION]. *)
Example init_database_new_file :
  ∀ fts5,
    let r := init_database false (connect_new fts5) in
    r.2 = Ok tt ∧ get_schema_version r.1 = SCHEMA_VERSION
    ∧ durable r.1 = live r.1.
Proof. intros [|]; cbv zeta; repeat apply conj; vm_compute; reflexivity. Qed.

(** ** Reconciliation *)

Lemma only_flips_refl kc seen r : only_flips kc seen r r.
Proof. repeat split; auto. Qed.

Lemma selected_available kc seen r :
  selected kc seen r = true → sql_eq_int (r !! "available") 1 = true.
Proof.
  unfold selected. destruct seen; [done|]. by intros [_ ?]%andb_true_iff.
Qed.

Lemma selected_not_seen kc seen r k :
  r !! kc = Some (VInt k) → k ∈ seen → selected kc seen r = false.
Proof.
  intros Hk Hin. unfold selected. destruct seen as [|x seen];
    [by apply elem_of_nil in Hin|].
  rewrite Hk. simpl. by rewrite bool_decide_true.
Qed.

Lemma set_unavailable_only_flips kc seen r :
  selected kc seen r = true → only_flips kc seen r (set_unavailable r).
Proof.
  intros Hsel. unfold set_unavailable. split; [|split].
  - intros col Hcol. by rewrite lookup_insert_ne.
  - right. split; [by eapply selected_available|]. by rewrite lookup_insert_eq.
  - intros k Hk Hin. by rewrite (selected_not_seen _ _ _ _ Hk Hin) in Hsel.
Qed.

Lemma update_row_only_flips kc seen r : only_flips kc seen r (update_row kc seen r).
Proof.
  unfold update_row. destruct (selected kc seen r) eqn:E.
  - by apply set_unavailable_only_flips.
  - apply only_flips_refl.
Qed.

Lemma table_frame_refl kc seen t : table_frame kc seen t t.
Proof.
  repeat split. intros k. destruct (rows t !! k); constructor.
  apply only_flips_refl.
Qed.

Lemma fts_frame_refl seen (f : option (list row)) :
  option_Forall2 (Forall2 (only_flips "ratingKey" seen)) f f.
Proof.
  destruct f as [l|]; constructor.
  apply Forall_Forall2_diag, Forall_forall. intros. apply only_flips_refl.
Qed.

Lemma database_frame_refl tn kc seen d : database_frame tn kc seen d d.
Proof.
  repeat split; [|apply fts_frame_refl].
  destruct (tables d !! tn); constructor. apply table_frame_refl.
Qed.

Lemma update_unavailable_frame tn kc seen d d' :
  update_unavailable tn kc seen d = Ok d' →
  database_frame tn kc seen d d' ∧ search_fts d' = search_fts d.
Proof.
  unfold update_unavailable. destruct (tables d !! tn) as [t|] eqn:Et; [|done].
  destruct (negb (has_column t "available")); [done|].
  destruct (_ && _); [done|]. intros [= <-]. split; [|done].
  repeat split; simpl.
  - intros n Hn. by rewrite lookup_insert_ne.
  - rewrite Et, lookup_insert_eq. constructor. repeat split; simpl.
    intros k. rewrite lookup_fmap. destruct (rows t !! k); constructor.
    apply update_row_only_flips.
  - apply fts_frame_refl.
Qed.

Lemma update_fts_unavailable_raises ty seen d :
  ∃ msg, update_fts_unavailable ty seen d = Raise (OperationalError msg).
Proof. unfold update_fts_unavailable. destruct (search_fts d); by eexists. Qed.

(** The two shapes of a call of [mark_unavailable]: the UPDATE of the
    table raised and nothing happened, or it was committed and the call
    returned; the UPDATE of [search_fts] changes neither. *)
Lemma mark_unavailable_cases tn seen lt kc c :
  (∃ e, update_unavailable tn kc seen (live c) = Raise e
        ∧ mark_unavailable tn seen lt kc c = (c, Raise e))
  ∨ (∃ d1, update_unavailable tn kc seen (live c) = Ok d1
        ∧ mark_unavailable tn seen lt kc c = (commit (set_live c d1), Ok tt)).
Proof.
  unfold mark_unavailable, bind, execute, do_commit, try_operational.
  destruct (update_unavailable tn kc seen (live c)) as [d1|e] eqn:E.
  - right. exists d1. split; [done|]. simpl.
    destruct (type_map tn) as [ty|]; [|done].
    change (live (commit (set_live c d1))) with d1.
    by destruct (update_fts_unavailable_raises ty seen d1) as [msg ->].
  - left. by exists e.
Qed.

(** What a call of [mark_unavailable] does to the database the connection
    sees. *)
Lemma mark_unavailable_live tn seen lt kc c :
  database_frame tn kc seen (live c) (live (mark_unavailable tn seen lt kc c).1).
Proof.
  destruct (mark_unavailable_cases tn seen lt kc c)
    as [(e & _ & ->)|(d1 & E1 & ->)]; simpl.
  - apply database_frame_refl.
  - by apply update_unavailable_frame in E1 as [? _].
Qed.

(** The search index is out of the reach of a reconciliation. *)
Lemma mark_unavailable_search_fts tn seen lt kc c :
  search_fts (live (mark_unavailable tn seen lt kc c).1) = search_fts (live c).
Proof.
  destruct (mark_unavailable_cases tn seen lt kc c)
    as [(e & _ & ->)|(d1 & E1 & ->)]; simpl; [done|].
  by apply update_unavailable_frame in E1 as [_ ?].
Qed.

(** C9. Whatever the table, the seen keys and the key column, a call of
    [mark_unavailable] removes and adds no row, changes no column other
    than [available], changes [available] only from 1 to 0, leaves every
    row whose key is among the seen keys as it was, and does the same, no
    more, to [search_fts]; the other tables, the schema version and the
    indexes stay as they were.  When the call raises, nothing changed at
    all; when it returns, what it did is committed. *)
Theorem mark_unavailable_frame tn seen lt kc c :
  let r := mark_unavailable tn seen lt kc c in
  database_frame tn kc seen (live c) (live r.1)
  ∧ match r.2 with
    | Ok _ => durable r.1 = live r.1
    | Raise _ => r.1 = c
    end.
Proof.
  split; [apply mark_unavailable_live|].
  destruct (mark_unavailable_cases tn seen lt kc c)
    as [(e & _ & ->)|(d1 & _ & ->)]; done.
Qed.

(** ** The empty-result policy *)

Lemma set_unavailable_not_available r :
  sql_eq_int (set_unavailable r !! "available") 1 = false.
Proof. unfold set_unavailable. by rewrite lookup_insert_eq. Qed.

Lemma update_row_empty_not_available kc r :
  sql_eq_int (update_row kc [] r !! "available") 1 = false.
Proof.
  unfold update_row, selected.
  destruct (sql_eq_int (r !! "available") 1) eqn:E; [|done].
  apply set_unavailable_not_available.
Qed.

Lemma mark_unavailable_tables tn seen lt kc c n :
  n ≠ tn →
  tables (live (mark_unavailable tn seen lt kc c).1) !! n = tables (live c) !! n.
Proof.
  intros Hn. pose proof (mark_unavailable_live tn seen lt kc c) as (H & _).
  by apply H.
Qed.

Lemma mark_unavailable_has_availability tn seen lt kc c n :
  has_availability (live (mark_unavailable tn seen lt kc c).1) n
  = has_availability (live c) n.
Proof.
  pose proof (mark_unavailable_live tn seen lt kc c) as (H1 & H2 & _).
  unfold has_availability. destruct (decide (n = tn)) as [->|Hn].
  - destruct H2 as [t t' (Hc & _)|]; [|done]. unfold has_column. by rewrite Hc.
  - by rewrite H1.
Qed.

Lemma mark_unavailable_empty tn lt kc c :
  has_availability (live c) tn = true →
  let r := mark_unavailable tn [] lt kc c in
  r.2 = Ok tt ∧ durable r.1 = live r.1 ∧ none_available (live r.1) tn.
Proof.
  unfold has_availability. destruct (tables (live c) !! tn) as [t|] eqn:Et; [|done].
  intros Hav.
  assert (E : update_unavailable tn kc [] (live c)
              = Ok (set_table (live c) tn (set_rows t (update_row kc [] <$> rows t)))).
  { unfold update_unavailable. by rewrite Et, Hav. }
  assert (Hnone : ∀ d, tables d = tables (set_table (live c) tn
                          (set_rows t (update_row kc [] <$> rows t))) →
                       none_available d tn).
  { intros d Hd t' k r. rewrite Hd. simpl. rewrite lookup_insert_eq.
    intros [= <-]. simpl. rewrite lookup_fmap.
    destruct (rows t !! k) as [r0|]; [|done]. intros [= <-].
    apply update_row_empty_not_available. }
  destruct (mark_unavailable_cases tn [] lt kc c)
    as [(e & E' & _)|(d1 & E' & ->)]; simpl.
  - congruence.
  - repeat split. apply Hnone. congruence.
Qed.

Lemma none_available_other tn seen lt kc c n :
  n ≠ tn → none_available (live c) n →
  none_available (live (mark_unavailable tn seen lt kc c).1) n.
Proof.
  intros Hn H t k r. rewrite mark_unavailable_tables by done. apply H.
Qed.

(** Three reconciliations with no seen keys, one after the other. *)
Lemma reconcile_empty t1 l1 t2 l2 t3 l3 kc c :
  t1 ≠ t2 → t1 ≠ t3 → t2 ≠ t3 →
  has_availability (live c) t1 = true →
  has_availability (live c) t2 = true →
  has_availability (live c) t3 = true →
  let r := (mark_unavailable t1 [] l1 kc ;;;
            mark_unavailable t2 [] l2 kc ;;;
            mark_unavailable t3 [] l3 kc) c in
  r.2 = Ok tt
  ∧ none_available (live r.1) t1
  ∧ none_available (live r.1) t2
  ∧ none_available (live r.1) t3.
Proof.
  intros H12 H13 H23 A1 A2 A3. unfold bind.
  pose proof (mark_unavailable_empty t1 l1 kc c A1) as (R1 & _ & N1).
  pose proof (mark_unavailable_has_availability t1 [] l1 kc c) as K1.
  destruct (mark_unavailable t1 [] l1 kc c) as [c1 o1]. simpl in *. subst o1.
  rewrite <- K1 in A2, A3.
  pose proof (mark_unavailable_empty t2 l2 kc c1 A2) as (R2 & _ & N2).
  pose proof (mark_unavailable_has_availability t2 [] l2 kc c1) as K2.
  pose proof (none_available_other t2 [] l2 kc c1 t1 H12 N1) as N1'.
  destruct (mark_unavailable t2 [] l2 kc c1) as [c2 o2]. simpl in *. subst o2.
  rewrite <- K2 in A3.
  pose proof (mark_unavailable_empty t3 l3 kc c2 A3) as (R3 & _ & N3).
  pose proof (none_available_other t3 [] l3 kc c2 t1 H13 N1') as N1''.
  pose proof (none_available_other t3 [] l3 kc c2 t2 H23 N2) as N2'.
  by destruct (mark_unavailable t3 [] l3 kc c2) as [c3 o3].
Qed.

(** C2. On a database that has the seven entity tables: reconciling any
    of them with no seen keys returns, is committed, and leaves no row of
    that table available; and a run in which the catalog lists no item for a
    library does that to every table of that library, movies for the movie
    library, shows, seasons and episodes for the show library, artists,
    albums and tracks for the music library. *)
Theorem empty_result_policy `{Externals} cfg current_time c :
  forallb (has_availability (live c)) entity_tables = true →
  (∀ table_name library_type key_column,
      table_name ∈ entity_tables →
      let r := mark_unavailable table_name [] library_type key_column c in
      r.2 = Ok tt ∧ durable r.1 = live r.1 ∧ none_available (live r.1) table_name)
  ∧ (∀ library_all,
      fetch_library 3 library_all = Some [] →
      let r := process_movies cfg current_time library_all c in
      r.2 = Ok tt ∧ none_available (live r.1) "movies")
  ∧ (∀ library_all,
      fetch_library 3 library_all = Some [] →
      let r := process_tvshows cfg current_time library_all c in
      r.2 = Ok tt
      ∧ none_available (live r.1) "tv_shows"
      ∧ none_available (live r.1) "seasons"
      ∧ none_available (live r.1) "episodes")
  ∧ (∀ library_all,
      fetch_library 3 library_all = Some [] →
      let r := process_music cfg current_time library_all c in
      r.2 = Ok tt
      ∧ none_available (live r.1) "artists"
      ∧ none_available (live r.1) "albums"
      ∧ none_available (live r.1) "tracks").
Proof.
  intros Hall. apply Is_true_true, forallb_True in Hall.
  rewrite Forall_forall in Hall.
  assert (Hav : ∀ tn, tn ∈ entity_tables → has_availability (live c) tn = true).
  { intros tn Hin. by apply Is_true_true, Hall. }
  split; [|split; [|split]].
  - intros tn lt kc Hin. by apply mark_unavailable_empty, Hav.
  - intros calls Hf. unfold process_movies. rewrite Hf.
    pose proof (mark_unavailable_empty "movies" "movie" "ratingKey" c) as (? & _ & ?);
      [apply Hav; set_solver|done].
  - intros calls Hf. unfold process_tvshows. rewrite Hf.
    apply reconcile_empty; try done; apply Hav; set_solver.
  - intros calls Hf. unfold process_music. rewrite Hf.
    apply reconcile_empty; try done; apply Hav; set_solver.
Qed.

Lemma empty_result_policy_witness :
  let r := @process_tvshows sample_externals sequential "now"
             [Transient; Fetched []] stored_connection in
  r.2 = Ok tt
  ∧ none_available (live r.1) "tv_shows"
  ∧ none_available (live r.1) "seasons"
  ∧ none_available (live r.1) "episodes".
Proof.
  pose proof (@empty_result_policy sample_externals sequential "now"
                stored_connection eq_refl) as (_ & _ & H & _).
  apply H. reflexivity.
Defined.

(** The policy at work on the stored library: an empty show library empties
    the available rows of its three tables, keeps every row, and leaves the
    other libraries alone. *)
Example empty_show_library :
  let c := (@process_tvshows sample_externals sequential "now"
              [Fetched []] stored_connection).1 in
  available_keys stored_library "episodes" = [101; 102; 103]
  ∧ available_keys (durable c) "tv_shows" = []
  ∧ available_keys (durable c) "seasons" = []
  ∧ available_keys (durable c) "episodes" = []
  ∧ stored_keys (durable c) "episodes" = [101; 102; 103]
  ∧ available_keys (durable c) "movies" = [1; 2; 3].
Proof. cbv zeta. repeat apply conj; vm_compute; reflexivity. Qed.

(** ** The movie pass *)

(** The batch insert of the movies names 26 columns and gives 25 values:
    with a row to insert it raises before anything is written. *)
Lemma upsert_movies_raises b c :
  movies_data b ≠ [] → ∃ e, upsert_movies b c = (c, Raise e).
Proof.
  intros Hne. unfold upsert_movies. destruct (movies_data b) as [|t data]; [done|].
  unfold bind, executemany_insert.
  destruct (tables (live c) !! "movies") as [tb|]; [|by eexists].
  destruct (filter _ movies_insert_columns); by eexists.
Qed.

Lemma table_frame_keys kc seen t t' k :
  table_frame kc seen t t' → is_Some (rows t' !! k) ↔ is_Some (rows t !! k).
Proof.
  intros (_ & _ & H). specialize (H k).
  destruct H; split; intros [? ?]; eauto; done.
Qed.

(** Whatever the catalog returns, a call of [process_movies] leaves the
    movies table with the keys it had: it never adds a movie. *)
Lemma process_movies_adds_no_row `{Externals} cfg current_time library_all c t k :
  tables (live c) !! "movies" = Some t →
  ∃ t', tables (live (process_movies cfg current_time library_all c).1) !! "movies"
        = Some t'
        ∧ (is_Some (rows t' !! k) ↔ is_Some (rows t !! k)).
Proof.
  intros Ht.
  assert (Hmark : ∀ seen c0,
    live c0 = live c →
    ∃ t', tables (live (mark_unavailable "movies" seen "movie" "ratingKey" c0).1)
            !! "movies" = Some t'
          ∧ (is_Some (rows t' !! k) ↔ is_Some (rows t !! k))).
  { intros seen c0 Hc0.
    pose proof (mark_unavailable_live "movies" seen "movie" "ratingKey" c0)
      as (_ & H2 & _).
    rewrite Hc0, Ht in H2. inversion H2 as [? t' Hf|]; subst.
    exists t'. split; [done|]. by eapply table_frame_keys. }
  unfold process_movies. destruct (fetch_library 3 library_all) as [[|mv movies]|].
  - by apply Hmark.
  - unfold bind, existing_hashes.
    destruct (USE_PARALLEL cfg); simpl.
    + set (b := collect_movies _ _ _ _).
      destruct (movies_data b) as [|x l] eqn:E.
      * unfold upsert_movies. rewrite E. simpl. by apply Hmark.
      * destruct (upsert_movies_raises b c) as [e ->]; [by rewrite E|].
        exists t. by split.
    + unfold query. simpl. destruct (select_hashes "movies" (live c)) as [ex|e].
      * set (b := collect_movies _ _ _ _).
        destruct (movies_data b) as [|x l] eqn:E.
        -- unfold upsert_movies. rewrite E. simpl. by apply Hmark.
        -- destruct (upsert_movies_raises b c) as [e ->]; [by rewrite E|].
           exists t. by split.
      * exists t. by split.
  - exists t. by split.
Qed.

(** C1, at the scenario of the claim.  Stored available ids 1, 2, 3; the
    catalog returns movies 2, 3, 4, each with a playable part.  In every
    setting the pass raises at the batch insert and ends there: row 1 is
    still available, there is no row 4, nothing was written. *)
Theorem process_movies_reconciliation_scenario :
  ∀ cfg,
    let r := @process_movies sample_externals cfg "now" [Fetched movies_234]
               stored_movies_123 in
    r.2 = Raise (OperationalError "25 values for 26 columns")
    ∧ r.1 = stored_movies_123
    ∧ available_keys (live r.1) "movies" = [1; 2; 3]
    ∧ stored_keys (live r.1) "movies" = [1; 2; 3].
Proof. intros [[|] [|]]; cbv zeta; repeat apply conj; vm_compute; reflexivity. Qed.

(** The same scenario on the artists, whose insert names as many columns
    as it gives values: 1 becomes unavailable and stays stored, 4 is new
    and available, 2 and 3 remain available. *)
Example process_music_reconciliation_scenario :
  let r := @process_music sample_externals parallel "now" [Fetched artists_234]
             stored_artists_123 in
  r.2 = Ok tt
  ∧ available_keys (durable r.1) "artists" = [2; 3; 4]
  ∧ stored_keys (durable r.1) "artists" = [1; 2; 3; 4].
Proof. cbv zeta. repeat apply conj; vm_compute; reflexivity. Qed.

(** ** Durations *)

Lemma round_div_nonneg s : 0 ≤ s → 0 ≤ round_div s 60.
Proof.
  intros Hs. unfold round_div.
  assert (0 ≤ s / 60) by (apply Z.div_pos; lia).
  repeat case_match; lia.
Qed.

(** From one second on, the rendered count is at least one minute. *)
Lemma duration_minutes_at_least_one d : 1000 ≤ d → 1 ≤ duration_minutes d.
Proof.
  intros Hd. unfold duration_minutes.
  assert (Hs : 1 ≤ d / 1000) by (apply Z.div_le_lower_bound; lia).
  assert (0 ≤ round_div (d / 1000) 60) by (apply round_div_nonneg; lia).
  destruct (round_div (d / 1000) 60 =? 0) eqn:E0; simpl.
  - assert ((0 <? d / 1000) = true) as -> by (apply Z.ltb_lt; lia). lia.
  - apply Z.eqb_neq in E0. lia.
Qed.

(** Below one second the count is zero. *)
Lemma duration_minutes_sub_second d : 0 ≤ d < 1000 → duration_minutes d = 0.
Proof.
  intros Hd. unfold duration_minutes. by rewrite (Z.div_small d 1000 Hd).
Qed.

(** C10, at a duration of half a second: the seconds are truncated to 0
    before the test [total_seconds > 0], the count stays 0, and since the
    callers test only that the duration is not 0, the row gets "0 mins". *)
Theorem human_readable_duration_sub_second :
  duration_minutes 500 = 0
  ∧ human_readable_duration 500 = "0 mins"
  ∧ duration_human 500 = VText "0 mins".
Proof. repeat split; reflexivity. Qed.

(** Ties go to the even minute, as [round] does: 150 s is 2 minutes, 210 s
    is 4. *)
Example duration_ties :
  duration_minutes 150000 = 2 ∧ duration_minutes 210000 = 4
  ∧ duration_minutes 30000 = 1 ∧ duration_minutes 90000 = 2.
Proof. repeat split; reflexivity. Qed.

(** ** Aggregation *)

Lemma truncated_average_average total count :
  0 ≤ total → 0 ≤ count → average total count = truncated_average total count.
Proof.
  intros Ht Hc. unfold average, truncated_average.
  destruct (count =? 0) eqn:E0.
  - apply Z.eqb_eq in E0 as ->. done.
  - apply Z.eqb_neq in E0.
    assert ((0 <? count) = true) as -> by (apply Z.ltb_lt; lia).
    symmetry. apply Z.quot_div_nonneg; lia.
Qed.

Lemma sum_of_app {A} (f : A → Z) l1 l2 :
  sum_of f (l1 ++ l2) = sum_of f l1 + sum_of f l2.
Proof. induction l1 as [|x l1 IH]; simpl; [done|]. rewrite IH. lia. Qed.

Lemma sum_of_nonneg {A} (f : A → Z) l : Forall (fun x => 0 ≤ f x) l → 0 ≤ sum_of f l.
Proof. induction 1; simpl; lia. Qed.

Lemma sum_at_app i l1 l2 : sum_at i (l1 ++ l2) = sum_at i l1 + sum_at i l2.
Proof. apply (sum_of_app (fun t => tuple_int t i)). Qed.

Lemma sum_at_nonneg i l : Forall (fun t => 0 ≤ tuple_int t i) l → 0 ≤ sum_at i l.
Proof. apply (sum_of_nonneg (fun t => tuple_int t i)). Qed.

Lemma omap_cons_match {A B} (f : A → option B) x l :
  omap f (x :: l) = match f x with Some y => y :: omap f l | None => omap f l end.
Proof. done. Qed.

Lemma season_step_retained `{Externals} cfg srk shk ct a ep r :
  process_episode ep srk shk ct = Some r →
  let a' := season_step cfg srk shk ct a ep in
  sa_total_episodes a' = sa_total_episodes a + 1
  ∧ sa_total_duration a' = sa_total_duration a + er_duration r
  ∧ sa_size_bytes a' = sa_size_bytes a + er_size_bytes r
  ∧ sa_episodes_data a' = sa_episodes_data a ++ [er_data r].
Proof. intros E. unfold season_step. by rewrite E. Qed.

Lemma season_step_skipped `{Externals} cfg srk shk ct a ep :
  process_episode ep srk shk ct = None → season_step cfg srk shk ct a ep = a.
Proof. intros E. unfold season_step. by rewrite E. Qed.

(** The episode loop of a season, from any state of the accumulators. *)
Lemma season_loop_totals `{Externals} cfg srk shk ct eps a :
  let rs := omap (fun ep => process_episode ep srk shk ct) eps in
  let a' := fold_left (season_step cfg srk shk ct) eps a in
  sa_total_episodes a' = sa_total_episodes a + Z.of_nat (length rs)
  ∧ sa_total_duration a' = sa_total_duration a + sum_of er_duration rs
  ∧ sa_size_bytes a' = sa_size_bytes a + sum_of er_size_bytes rs
  ∧ sa_episodes_data a' = sa_episodes_data a ++ (er_data <$> rs).
Proof.
  revert a. induction eps as [|ep eps IH]; intros a.
  - simpl. rewrite app_nil_r. repeat split; lia.
  - change (fold_left (season_step cfg srk shk ct) (ep :: eps) a)
      with (fold_left (season_step cfg srk shk ct) eps (season_step cfg srk shk ct a ep)).
    destruct (IH (season_step cfg srk shk ct a ep)) as (I1 & I2 & I3 & I4).
    cbn zeta in *. rewrite I1, I2, I3, I4. clear I1 I2 I3 I4.
    rewrite omap_cons_match.
    destruct (process_episode ep srk shk ct) as [r|] eqn:E.
    + destruct (season_step_retained cfg srk shk ct a ep r E) as (F1 & F2 & F3 & F4).
      rewrite F1, F2, F3, F4, <- app_assoc. simpl. repeat split; lia.
    + rewrite (season_step_skipped _ _ _ _ _ _ E). done.
Qed.

(** The season row of [process_season], over the episodes it is given. *)
Lemma collect_season_aggregate `{Externals} cfg s shk ct eps :
  let rs := omap (fun ep => process_episode ep (season_ratingKey s) shk ct) eps in
  let r := collect_season cfg s shk ct eps in
  sr_season_data r !! 3%nat = Some (VInt (Z.of_nat (length rs)))
  ∧ sr_season_data r !! 4%nat
    = Some (VInt (average (sum_of er_duration rs) (Z.of_nat (length rs))))
  ∧ sr_season_data r !! 6%nat = Some (VInt (sum_of er_size_bytes rs))
  ∧ sa_episodes_data (sr_acc r) = er_data <$> rs
  ∧ length (sr_season_data r) = 18%nat.
Proof.
  unfold collect_season. simpl.
  destruct (season_loop_totals cfg (season_ratingKey s) shk ct eps season_acc_init)
    as (I1 & I2 & I3 & I4).
  simpl in *. rewrite I1, I2, I3, I4. by rewrite !Z.add_0_l.
Qed.

Lemma process_season_listed `{Externals} cfg s shk ct l :
  season_episodes s = Ok l →
  process_season cfg s shk ct = Ok (collect_season cfg s shk ct l)
  ∧ retained_episodes s shk ct
    = omap (fun ep => process_episode ep (season_ratingKey s) shk ct) l.
Proof.
  intros Hl. unfold process_season, retained_episodes, episodes_of. by rewrite Hl.
Qed.

(** The duration and the size of a retained episode are the ones its
    tuple carries at the positions 6 and 12. *)
Lemma process_episode_figures `{Externals} ep srk shk ct r :
  process_episode ep srk shk ct = Some r →
  tuple_int (er_data r) 6 = er_duration r
  ∧ tuple_int (er_data r) 12 = er_size_bytes r.
Proof.
  unfold process_episode. destruct (episode_media ep) as [|m ?]; [done|].
  destruct (parts m) as [|p ?]; [done|]. by intros [= <-].
Qed.

Lemma retained_sums `{Externals} srk shk ct eps :
  let rs := omap (fun ep => process_episode ep srk shk ct) eps in
  sum_at 6 (er_data <$> rs) = sum_of er_duration rs
  ∧ sum_at 12 (er_data <$> rs) = sum_of er_size_bytes rs.
Proof.
  cbn zeta. induction eps as [|ep eps [IH1 IH2]]; [done|].
  rewrite omap_cons_match.
  destruct (process_episode ep srk shk ct) as [r|] eqn:E; [|done].
  apply process_episode_figures in E as [E1 E2].
  rewrite fmap_cons. unfold sum_at, sum_of in *. cbn [foldr].
  by rewrite IH1, IH2, E1, E2.
Qed.

(** Nothing is skipped in parallel mode or without stored hashes. *)
Lemma changed_only_all cfg (ex : gmap Z value) i l :
  USE_PARALLEL cfg = true ∨ ex = ∅ → changed_only cfg ex i l = l.
Proof.
  intros Hm. unfold changed_only.
  induction l as [|t l IH]; [done|]. rewrite filter_cons, IH.
  assert (unchanged cfg ex i t = false) as ->; [|done].
  unfold unchanged. destruct Hm as [->| ->]; [done|].
  rewrite lookup_empty. apply andb_false_r.
Qed.

Lemma recalculated_season_aggregate `{Externals} (sd : tuple) eps :
  (8 ≤ length sd)%nat →
  let row := recalculated_season_data sd eps in
  row !! 3%nat = Some (VInt (Z.of_nat (length eps)))
  ∧ row !! 4%nat = Some (VInt (average (sum_at 6 eps) (Z.of_nat (length eps))))
  ∧ row !! 6%nat = Some (VInt (sum_at 12 eps)).
Proof.
  intros Hlen. unfold recalculated_season_data. simpl.
  repeat split;
    repeat (rewrite list_lookup_insert_ne by lia);
    (rewrite list_lookup_insert_eq; [done|]);
    rewrite ?length_insert; lia.
Qed.

(** One turn of the season loop on a season whose episodes were listed,
    when nothing is skipped: the season row and what the turn adds to the
    counters of the show. *)
Lemma season_turn_listed `{Externals} cfg ct ex shk st s :
  USE_PARALLEL cfg = true ∨ ex = ∅ →
  listed_season s →
  let rs := retained_episodes s shk ct in
  let n := Z.of_nat (length rs) in
  ∃ st' row,
    season_turn cfg ct ex shk st s = (st', Ok tt)
    ∧ show_total_episodes st'.2 = show_total_episodes st.2 + n
    ∧ show_total_duration st'.2 = show_total_duration st.2 + sum_of er_duration rs
    ∧ show_size_bytes st'.2 = show_size_bytes st.2 + sum_of er_size_bytes rs
    ∧ shows_data st'.1 = shows_data st.1
    ∧ seasons_data st'.1 = seasons_data st.1 ++ [row]
    ∧ row !! 3%nat = Some (VInt n)
    ∧ row !! 4%nat = Some (VInt (average (sum_of er_duration rs) n))
    ∧ row !! 6%nat = Some (VInt (sum_of er_size_bytes rs)).
Proof.
  intros Hm [l Hl]. destruct st as [b a].
  destruct (process_season_listed cfg s shk ct l Hl) as [Hp Hr].
  cbn zeta. rewrite Hr. unfold season_turn. rewrite Hp. cbv beta iota zeta.
  rewrite (changed_only_all _ _ _ _ Hm).
  destruct (collect_season_aggregate cfg s shk ct l) as (C3 & C4 & C6 & Cd & Cl).
  destruct (retained_sums (season_ratingKey s) shk ct l) as [R6 R12].
  cbn zeta in *. rewrite Cd, R6, R12, length_fmap.
  set (rs := omap _ l) in *. set (r := collect_season cfg s shk ct l) in *.
  case_bool_decide as Hf; cbn [negb].
  - apply fmap_nil_inv in Hf. eexists _, _. split; [reflexivity|].
    cbn [fst snd show_total_episodes show_total_duration show_size_bytes
         shows_data seasons_data].
    rewrite Hf in *. cbn [length sum_of foldr] in *.
    repeat split; try done; lia.
  - destruct (recalculated_season_aggregate (sr_season_data r) (er_data <$> rs))
      as (Q3 & Q4 & Q6); [lia|].
    cbn zeta in Q3, Q4, Q6. rewrite R6, R12, length_fmap in *.
    eexists _, _. split; [reflexivity|].
    cbn [fst snd show_total_episodes show_total_duration show_size_bytes
         shows_data seasons_data].
    repeat split; done.
Qed.

(** The season loop of a show whose seasons were all listed. *)
Lemma seasons_loop_listed `{Externals} cfg ct ex shk seasons : ∀ st,
  USE_PARALLEL cfg = true ∨ ex = ∅ →
  Forall listed_season seasons →
  let rs := seasons ≫= (fun s => retained_episodes s shk ct) in
  ∃ st',
    seasons_loop cfg ct ex shk seasons st = (st', Ok tt)
    ∧ show_total_episodes st'.2 = show_total_episodes st.2 + Z.of_nat (length rs)
    ∧ show_total_duration st'.2 = show_total_duration st.2 + sum_of er_duration rs
    ∧ show_size_bytes st'.2 = show_size_bytes st.2 + sum_of er_size_bytes rs
    ∧ shows_data st'.1 = shows_data st.1.
Proof.
  induction seasons as [|s seasons IH]; intros st Hm Hl; cbn zeta.
  - exists st. cbn. repeat split; lia.
  - apply Forall_cons in Hl as [Hs Hl].
    destruct (season_turn_listed cfg ct ex shk st s Hm Hs)
      as (st1 & row & E1 & T1 & T2 & T3 & T4 & _).
    destruct (IH st1 Hm Hl) as (st' & E' & L1 & L2 & L3 & L4).
    cbn zeta in *. exists st'. cbn [seasons_loop]. rewrite E1, E'.
    rewrite bind_cons, length_app, !sum_of_app, L1, L2, L3, L4, T1, T2, T3, T4.
    repeat split; lia.
Qed.

(** The show row of a show whose listings all returned, when nothing is
    skipped. *)
Lemma show_aggregate `{Externals} cfg ct ex sh :
  USE_PARALLEL cfg = true ∨ ex = ∅ →
  listed sh →
  let rs := show_retained sh ct in
  let n := Z.of_nat (length rs) in
  let row := show_row cfg ct ex sh in
  row !! 6%nat = Some (VInt n)
  ∧ row !! 3%nat
    = Some (VInt (if 0 <? n then sum_of er_duration rs / n
                  else or_zero (show_duration sh)))
  ∧ row !! 7%nat = Some (VInt (sum_of er_size_bytes rs)).
Proof.
  intros Hm [[l Hl] Hf]. unfold show_retained, show_row, show_turn, seasons_of in *.
  rewrite Hl in *.
  match goal with |- context [seasons_loop _ _ _ _ _ ?st] =>
    destruct (seasons_loop_listed cfg ct ex (show_ratingKey sh) l st Hm Hf)
      as ([b1 a1] & E & J1 & J2 & J3 & _) end.
  cbn zeta in *. rewrite E. unfold show_tuple. simpl in *.
  rewrite last_snoc. simpl. rewrite J1, J2, J3. done.
Qed.

Lemma parts_loop_gap mc ps a :
  size_gap (fold_left (part_turn mc) ps a) = size_gap a.
Proof.
  revert a. induction ps as [|p ps IH]; intros a; simpl; [done|].
  rewrite IH. unfold size_gap, part_turn. simpl. lia.
Qed.

Lemma media_loop_gap ms a :
  size_gap (fold_left media_turn ms a) = size_gap a.
Proof.
  revert a. induction ms as [|m ms IH]; intros a; simpl; [done|].
  rewrite IH. unfold media_turn. by rewrite parts_loop_gap.
Qed.

Lemma track_turn_totals `{Externals} ark atk y ct a t :
  let a' := track_turn ark atk y ct a t in
  ∃ row, aa_tracks_data a' = aa_tracks_data a ++ [row]
    ∧ aa_album_size_bytes a' = aa_album_size_bytes a + tuple_int row 7
    ∧ aa_track_count a' = aa_track_count a + 1.
Proof.
  unfold track_turn. cbn zeta. cbn [aa_tracks_data aa_album_size_bytes aa_track_count].
  eexists. split; [reflexivity|]. split; [|done].
  unfold tuple_int. cbn [lookup list_lookup].
  match goal with |- context [fold_left media_turn ?ms ?a0] =>
    pose proof (media_loop_gap ms a0) as Hg end.
  unfold size_gap in Hg. simpl in Hg. lia.
Qed.

Lemma tracks_loop_totals `{Externals} ark atk y ct ts a :
  let a' := fold_left (track_turn ark atk y ct) ts a in
  ∃ new, aa_tracks_data a' = aa_tracks_data a ++ new
    ∧ aa_album_size_bytes a' = aa_album_size_bytes a + sum_at 7 new
    ∧ aa_track_count a' = aa_track_count a + Z.of_nat (length new).
Proof.
  revert a. induction ts as [|t ts IH]; intros a; cbn zeta.
  - exists []. simpl. rewrite app_nil_r. repeat split; lia.
  - change (fold_left (track_turn ark atk y ct) (t :: ts) a)
      with (fold_left (track_turn ark atk y ct) ts (track_turn ark atk y ct a t)).
    destruct (IH (track_turn ark atk y ct a t)) as (new & I1 & I2 & I3).
    destruct (track_turn_totals ark atk y ct a t) as (row & T1 & T2 & T3).
    cbn zeta in *. exists (row :: new).
    rewrite I1, I2, I3, T1, T2, T3, <- app_assoc. simpl.
    repeat split; lia.
Qed.

(** The album row: as many tracks as it has track rows, and their sizes
    summed. *)
Lemma album_aggregate `{Externals} al atk ct seen ar sz dur :
  (process_album al atk ct seen).2 = Ok (ar, sz, dur) →
  ar_album_data ar !! 4%nat = Some (VInt (Z.of_nat (length (ar_tracks_data ar))))
  ∧ ar_album_data ar !! 5%nat = Some (VInt (sum_at 7 (ar_tracks_data ar))).
Proof.
  unfold process_album. cbn zeta. cbn [snd].
  match goal with |- context [fold_left ?f ?ts ?a0] =>
    destruct (tracks_loop_totals (album_ratingKey al) atk (album_year al) ct ts a0)
      as (new & I1 & I2 & I3) end.
  cbn zeta in *. destruct (join_containers _); [|done].
  intros [= <- _ _]. simpl in *. rewrite I1, I2, I3. done.
Qed.

(** C7 as stated, on the show aggregate: a show without seasons has no
    child, yet its average duration is not 0 but the duration attribute of
    the show itself. *)
Lemma show_average_counterexample :
  ¬ (∀ sh : show,
       listed sh →
       let rs := @show_retained sample_externals sh "now" in
       let row := @show_row sample_externals parallel "now" ∅ sh in
       row !! 3%nat
       = Some (VInt (truncated_average (sum_of er_duration rs) (Z.of_nat (length rs))))).
Proof.
  intros H. specialize (H show_without_seasons).
  assert (listed show_without_seasons) as Hl by (split; [by eexists|constructor]).
  specialize (H Hl). vm_compute in H. discriminate.
Qed.

(** C7, amended.  With durations that are not negative:
    - the season row built by [process_season] from the episodes it retains
      has their number, the truncated quotient of the sum of their
      durations by that number (0 for none), and the sum of their sizes;
    - when no episode is skipped as unchanged (parallel mode, or no stored
      hash), the season row that [process_tvshows] collects has the same
      three figures, and the show row has the number of the episodes its
      seasons retain, the sum of their sizes, and as average the truncated
      quotient over them when there is at least one, and otherwise the
      duration attribute of the show, 0 when it has none;
    - the album row has the number of its track rows and the sum of their
      sizes.
    The season and the show are ones whose listings returned. *)
Theorem parent_aggregates `{Externals} cfg ct ex (s : season) shk (sh : show)
    (al : album) atk seen ar sz dur :
  USE_PARALLEL cfg = true ∨ ex = ∅ →
  listed_season s →
  listed sh →
  Forall (fun r => 0 ≤ er_duration r) (retained_episodes s shk ct) →
  Forall (fun r => 0 ≤ er_duration r) (show_retained sh ct) →
  (process_album al atk ct seen).2 = Ok (ar, sz, dur) →
  (let rs := retained_episodes s shk ct in
   let n := Z.of_nat (length rs) in
   (∃ r, process_season cfg s shk ct = Ok r
      ∧ sr_season_data r !! 3%nat = Some (VInt n)
      ∧ sr_season_data r !! 4%nat
        = Some (VInt (truncated_average (sum_of er_duration rs) n))
      ∧ sr_season_data r !! 6%nat = Some (VInt (sum_of er_size_bytes rs)))
   ∧ (let row := season_row cfg ct ex shk s in
      row !! 3%nat = Some (VInt n)
      ∧ row !! 4%nat = Some (VInt (truncated_average (sum_of er_duration rs) n))
      ∧ row !! 6%nat = Some (VInt (sum_of er_size_bytes rs))))
  ∧ (let rs := show_retained sh ct in
     let n := Z.of_nat (length rs) in
     let row := show_row cfg ct ex sh in
     row !! 6%nat = Some (VInt n)
     ∧ row !! 3%nat
       = Some (VInt (if n =? 0 then or_zero (show_duration sh)
                     else truncated_average (sum_of er_duration rs) n))
     ∧ row !! 7%nat = Some (VInt (sum_of er_size_bytes rs)))
  ∧ (ar_album_data ar !! 4%nat = Some (VInt (Z.of_nat (length (ar_tracks_data ar))))
     ∧ ar_album_data ar !! 5%nat = Some (VInt (sum_at 7 (ar_tracks_data ar)))).
Proof.
  intros Hm Hls Hlsh Hs Hsh Hal. split; [|split].
  - cbn zeta. split.
    + destruct Hls as [l Hl].
      destruct (process_season_listed cfg s shk ct l Hl) as [Hp Hr].
      destruct (collect_season_aggregate cfg s shk ct l) as (C3 & C4 & C6 & _).
      cbn zeta in *. rewrite <- Hr in *. eexists. split; [done|].
      rewrite <- truncated_average_average; [done|by apply sum_of_nonneg|lia].
    + unfold season_row.
      destruct (season_turn_listed cfg ct ex shk (tv_batch_init, show_acc_init) s Hm Hls)
        as (st' & row & E & _ & _ & _ & _ & Hd & Q3 & Q4 & Q6).
      rewrite E. cbn [fst]. rewrite Hd. cbn [fst seasons_data tv_batch_init app last default].
      rewrite <- truncated_average_average; [done|by apply sum_of_nonneg|lia].
  - destruct (show_aggregate cfg ct ex sh Hm Hlsh) as (A6 & A3 & A7). cbn zeta in *.
    split; [done|]. split; [|done]. rewrite A3. do 2 f_equal.
    set (n := Z.of_nat _). destruct (n =? 0) eqn:E0.
    + apply Z.eqb_eq in E0. by rewrite E0.
    + apply Z.eqb_neq in E0.
      assert ((0 <? n) = true) as -> by (apply Z.ltb_lt; lia).
      unfold truncated_average. apply Z.eqb_neq in E0. rewrite E0.
      symmetry. apply Z.quot_div_nonneg; [by apply sum_of_nonneg|lia].
  - by eapply album_aggregate.
Qed.

Lemma parent_aggregates_witness :
  (let row := @season_row sample_externals parallel "now" ∅ 10 season_30_45_60 in
   row !! 3%nat = Some (VInt 3)
   ∧ row !! 4%nat = Some (VInt 45)
   ∧ row !! 6%nat = Some (VInt 600))
  ∧ (let row := @show_row sample_externals parallel "now" ∅ show_30_45_60 in
     row !! 6%nat = Some (VInt 3)
     ∧ row !! 3%nat = Some (VInt 45)
     ∧ row !! 7%nat = Some (VInt 600)).
Proof.
  destruct (@process_album sample_externals album_with_silent_track 3 "now" []).2
    as [[[ar sz] dur]|e] eqn:Eal; [|discriminate Eal].
  assert (listed_season season_30_45_60) as Hls by (by eexists).
  assert (listed show_30_45_60) as Hlsh
    by (split; [by eexists|repeat constructor; by eexists]).
  destruct (@parent_aggregates sample_externals parallel "now" ∅
              season_30_45_60 10 show_30_45_60 album_with_silent_track 3 [] ar sz dur
              (or_introl eq_refl) Hls Hlsh) as ([_ Hrow] & Hshow & _).
  - vm_compute. repeat constructor; discriminate.
  - vm_compute. repeat constructor; discriminate.
  - exact Eal.
  - split; [exact Hrow|exact Hshow].
Defined.

(** Recomputing after an episode is gone replaces the figures: with the
    episode of 30 removed the season has 2 episodes, average 52, size 500. *)
Example season_recomputed :
  let s := sample_season 11
             [sample_episode 102 45 200 [video_media 200];
              sample_episode 103 60 300 [video_media 300]] in
  let row := @season_row sample_externals parallel "now" ∅ 10 s in
  row !! 3%nat = Some (VInt 2)
  ∧ row !! 4%nat = Some (VInt 52)
  ∧ row !! 6%nat = Some (VInt 500).
Proof. cbv zeta. repeat apply conj; vm_compute; reflexivity. Qed.

(** ** Unchanged leaves *)

(** The filter of the scenario: with the hash of episode 101 on record,
    the tuples of 102 and 103 are left. *)
Lemma scenario_filter `{Externals} :
  changed_only sequential {[ 101 := VText hash_of_episode_101 ]} 14
    (sa_episodes_data
       (sr_acc (collect_season sequential season_30_45_60 10 "now"
                  [sample_episode 101 30 100 [video_media 100];
                   sample_episode 102 45 200 [video_media 200];
                   sample_episode 103 60 300 [video_media 300]])))
  = sa_episodes_data
      (sr_acc (collect_season sequential season_30_45_60 10 "now"
                 [sample_episode 102 45 200 [video_media 200];
                  sample_episode 103 60 300 [video_media 300]])).
Proof. vm_compute. rewrite String.eqb_refl. reflexivity. Qed.

(** C3, at a season of three episodes in sequential mode.  The first
    episode is unchanged, the other two are new.  All three keys are seen,
    but the season row is rewritten from the two that are left after the
    filter: 2 episodes, average 52, size 500.  With every episode unchanged
    the row keeps what [process_season] computed from all three, as it does
    in parallel mode: 3 episodes, average 45, size 600. *)
Theorem unchanged_episode_dropped_from_season `{Externals} :
  let some_unchanged : gmap Z value := {[ 101 := VText hash_of_episode_101 ]} in
  let b := collect_tvshows sequential "now" some_unchanged [show_30_45_60] in
  seen_episode_keys b = [101; 102; 103]
  ∧ tuple_keys (episodes_data b) = [102; 103]
  ∧ season_figures b = [(Some (VInt 2), Some (VInt 52), Some (VInt 500))]
  ∧ season_figures (collect_tvshows parallel "now" ∅ [show_30_45_60])
    = [(Some (VInt 3), Some (VInt 45), Some (VInt 600))].
Proof.
  cbv zeta. repeat apply conj; [vm_compute; reflexivity| | |vm_compute; reflexivity].
  - unfold collect_tvshows, show_30_45_60, sample_show.
    cbn [fold_left]. unfold show_turn. cbn [show_seasons show_ratingKey seasons_loop].
    unfold season_turn, process_season.
    cbn [season_episodes season_30_45_60 sample_season].
    rewrite scenario_filter. vm_compute. reflexivity.
  - unfold collect_tvshows, show_30_45_60, sample_show, season_figures.
    cbn [fold_left]. unfold show_turn. cbn [show_seasons show_ratingKey seasons_loop].
    unfold season_turn, process_season.
    cbn [season_episodes season_30_45_60 sample_season].
    rewrite scenario_filter. vm_compute. reflexivity.
Qed.

(** The rows of such a batch do not reach the store either: the insert
    into [tv_shows] names 23 columns and gives 22 values. *)
Lemma upsert_tvshows_raises b c :
  shows_data b ≠ [] → ∃ e, upsert_tvshows b c = (c, Raise e).
Proof.
  intros Hne. unfold upsert_tvshows, insert_if_any at 1.
  destruct (shows_data b) as [|t data]; [done|].
  unfold bind, executemany_insert.
  destruct (tables (live c) !! "tv_shows") as [tb|]; [|by eexists].
  destruct (filter _ tv_shows_insert_columns); by eexists.
Qed.

(** And the reconciliation of the seasons, called with the default key
    column, names a column the table does not have. *)
Example mark_unavailable_seasons_raises :
  mark_unavailable "seasons" [11] "season" "ratingKey" stored_connection
  = (stored_connection, Raise (OperationalError "no such column: ratingKey")).
Proof. vm_compute. reflexivity. Qed.

(** ** Artist totals *)

(** C4, at an artist with two albums.  Both albums and all three tracks
    are collected, but the totals are taken after the album loop, from what
    the loop variables hold by then, and only when images are downloaded:
    with images, 1 album, 1 track, size 100, year 2005 (the last album
    alone); without images, 0 albums, 0 tracks, size 0, no year. *)
Theorem artist_totals_of_two_albums `{Externals} :
  let b := collect_music parallel "now" ∅ [artist_with_two_albums] in
  let b' := collect_music parallel_no_images "now" ∅ [artist_with_two_albums] in
  tuple_keys (albums_data b) = [20; 21]
  ∧ tuple_keys (tracks_data b) = [200; 201; 210]
  ∧ artist_figures b
    = [(Some (VInt 1), Some (VInt 1), Some (VInt 100), Some (VText "2005"))]
  ∧ artist_figures b'
    = [(Some (VInt 0), Some (VInt 0), Some (VInt 0), Some VNull)].
Proof. cbv zeta. repeat apply conj; vm_compute; reflexivity. Qed.

(** An artist without albums takes over the album of the artist before
    it; as the first artist of the run it raises and gets no row. *)
Example artist_without_albums `{Externals} :
  artist_figures
    (collect_music parallel "now" ∅ [artist_with_two_albums; sample_artist 3 []])
  = [(Some (VInt 1), Some (VInt 1), Some (VInt 100), Some (VText "2005"));
     (Some (VInt 1), Some (VInt 1), Some (VInt 100), Some (VText "2005"))]
  ∧ artist_figures (collect_music parallel "now" ∅ [sample_artist 3 []]) = []
  ∧ seen_artist_keys (collect_music parallel "now" ∅ [sample_artist 3 []]) = [3].
Proof. cbv zeta. repeat apply conj; vm_compute; reflexivity. Qed.

(** ** Items without media *)

Lemma movie_without_media_skipped `{Externals} cfg ct ex b mv :
  match movie_media mv with
  | [] => True
  | m :: _ => parts m = []
  end →
  movie_turn cfg ct ex b mv = b.
Proof.
  unfold movie_turn. destruct (movie_media mv) as [|m ?]; [done|]. by intros ->.
Qed.

Lemma episode_without_media_skipped `{Externals} cfg srk shk ct a ep :
  match episode_media ep with
  | [] => True
  | m :: _ => parts m = []
  end →
  process_episode ep srk shk ct = None
  ∧ season_step cfg srk shk ct a ep = a.
Proof.
  intros Hm.
  assert (E : process_episode ep srk shk ct = None).
  { unfold process_episode. destruct (episode_media ep) as [|m ?]; [done|]. by rewrite Hm. }
  split; [done|]. by apply season_step_skipped.
Qed.

(** C6, at a track without media.  Movies and episodes without media are
    skipped by the two lemmas above.  A track without media is not: its key
    is marked seen, it is counted in the album, it gets a row of size 0, and
    the music pass stores that row as available. *)
Theorem track_without_media_is_kept `{Externals} :
  let r := process_album album_with_silent_track 3 "now" [] in
  let b := collect_music parallel "now" ∅ [sample_artist 3 [album_with_silent_track]] in
  let c := (process_music parallel "now"
              [Fetched [sample_artist 3 [album_with_silent_track]]]
              (connection_of new_database)).1 in
  r.1 = [300; 301]
  ∧ (match r.2 with
     | Ok (ar, _, _) =>
         ar_tracks ar = 2
         ∧ tuple_keys (ar_tracks_data ar) = [300; 301]
         ∧ ar_album_data ar !! 4%nat = Some (VInt 2)
     | Raise _ => False
     end)
  ∧ seen_track_keys b = [300; 301]
  ∧ tuple_keys (tracks_data b) = [300; 301]
  ∧ available_keys (durable c) "tracks" = [300; 301].
Proof. cbv zeta. repeat apply conj; vm_compute; reflexivity. Qed.

(** ** Transactions *)

(** C8 as stated, on the music pass: at the point where [process_music]
    is about to reconcile, its upsert is already durable. *)
Lemma upsert_committed_before_reconciliation :
  ¬ (∀ b : music_batch, in_transaction_of_reconciliation (upsert_music b)).
Proof.
  intros H.
  specialize (H (@collect_music sample_externals parallel "now" ∅ artists_234)
                stored_artists_123).
  apply (f_equal (fun d => stored_keys d "artists")) in H.
  vm_compute in H. discriminate.
Qed.

(** The state a failure at that point leaves: artist 4 is stored, and
    artist 1, which the run did not see, is still available. *)
Example state_between_upsert_and_reconciliation :
  let b := @collect_music sample_externals parallel "now" ∅ artists_234 in
  let c := (upsert_music b stored_artists_123).1 in
  seen_artist_keys b = [2; 3; 4]
  ∧ stored_keys (durable stored_artists_123) "artists" = [1; 2; 3]
  ∧ stored_keys (durable c) "artists" = [1; 2; 3; 4]
  ∧ available_keys (durable c) "artists" = [1; 2; 3; 4].
Proof. cbv zeta. repeat apply conj; vm_compute; reflexivity. Qed.

Lemma selected_set_unavailable kc seen r :
  selected kc seen (set_unavailable r) = false.
Proof.
  unfold selected. rewrite set_unavailable_not_available.
  destruct seen; [done|]. apply andb_false_r.
Qed.

Lemma selected_update_row kc seen r : selected kc seen (update_row kc seen r) = false.
Proof.
  unfold update_row. destruct (selected kc seen r) eqn:E; [|done].
  apply selected_set_unavailable.
Qed.

Lemma update_unavailable_reconciled tn kc seen d d' :
  update_unavailable tn kc seen d = Ok d' → reconciled kc seen d' tn.
Proof.
  unfold update_unavailable. destruct (tables d !! tn) as [t|] eqn:Et; [|done].
  destruct (negb (has_column t "available")); [done|].
  destruct (_ && _); [done|]. intros [= <-] t' k r. simpl.
  rewrite lookup_insert_eq. intros [= <-]. simpl. rewrite lookup_fmap.
  destruct (rows t !! k) as [r0|]; [|done]. intros [= <-].
  apply selected_update_row.
Qed.

Lemma executemany_insert_durable tn cols n data c :
  durable (executemany_insert tn cols n data c).1 = durable c.
Proof.
  unfold executemany_insert. destruct (tables (live c) !! tn) as [t|]; [|done].
  destruct (filter _ cols); [|done]. destruct (negb _); [done|].
  by destruct (insert_rows cols n data t).
Qed.

Lemma insert_if_any_durable tn cols n data c :
  durable (insert_if_any tn cols n data c).1 = durable c.
Proof. destruct data; [done|]. apply executemany_insert_durable. Qed.

(** Three statements and the commit that follows them: either all four
    ran and what they wrote is durable, or one of the three raised and
    nothing was committed. *)
Lemma statements_then_commit (m1 m2 m3 : db_op unit) c :
  (∀ c, durable (m1 c).1 = durable c) →
  (∀ c, durable (m2 c).1 = durable c) →
  (∀ c, durable (m3 c).1 = durable c) →
  let r := (m1 ;;; m2 ;;; m3 ;;; do_commit) c in
  (r.2 = Ok tt ∧ durable r.1 = live r.1)
  ∨ (∃ e, r.2 = Raise e ∧ durable r.1 = durable c).
Proof.
  intros H1 H2 H3. cbn zeta. unfold bind, do_commit.
  specialize (H1 c). destruct (m1 c) as [c1 [[]|e1]]; [|right; by exists e1].
  specialize (H2 c1). destruct (m2 c1) as [c2 [[]|e2]];
    [|right; exists e2; simpl in *; split; [done|congruence]].
  specialize (H3 c2). destruct (m3 c2) as [c3 [[]|e3]];
    [|right; exists e3; simpl in *; split; [done|congruence]].
  by left.
Qed.

(** C8, amended.  The batch upsert of the show pass and that of the music
    pass end with their own commit: either the call returns and what it
    wrote is durable, before any reconciliation has run, or it raises and
    none of it is committed.  A call of [mark_unavailable] commits its own
    UPDATE: either it returns, its change is durable and no row of the
    table is left available with a key outside the seen keys, or it raises
    and the connection is as it was. *)
Theorem reconciliation_commits_on_its_own :
  (∀ b c,
     let r := upsert_tvshows b c in
     (r.2 = Ok tt ∧ durable r.1 = live r.1)
     ∨ (∃ e, r.2 = Raise e ∧ durable r.1 = durable c))
  ∧ (∀ b c,
       let r := upsert_music b c in
       (r.2 = Ok tt ∧ durable r.1 = live r.1)
       ∨ (∃ e, r.2 = Raise e ∧ durable r.1 = durable c))
  ∧ (∀ table_name seen_keys library_type key_column c,
       let r := mark_unavailable table_name seen_keys library_type key_column c in
       (r.2 = Ok tt ∧ durable r.1 = live r.1
        ∧ reconciled key_column seen_keys (live r.1) table_name)
       ∨ (∃ e, r.2 = Raise e ∧ r.1 = c)).
Proof.
  split; [|split].
  - intros b c. apply statements_then_commit; intros c0; apply insert_if_any_durable.
  - intros b c. apply statements_then_commit; intros c0; apply insert_if_any_durable.
  - intros tn seen lt kc c.
    destruct (mark_unavailable_cases tn seen lt kc c)
      as [(e & _ & ->)|(d1 & E1 & ->)]; cbn zeta; simpl.
    + right. by exists e.
    + left. split; [done|]. split; [done|]. by eapply update_unavailable_reconciled.
Qed.

(** Both outcomes occur: the music batch of three artists is committed
    by its upsert, the show batch of one show is not, its INSERT into
    [tv_shows] raising before the commit. *)
Example upserts_commit_or_raise :
  let m := @collect_music sample_externals parallel "now" ∅ artists_234 in
  let t := @collect_tvshows sample_externals parallel "now" ∅ [show_30_45_60] in
  (upsert_music m stored_artists_123).2 = Ok tt
  ∧ stored_keys (durable (upsert_music m stored_artists_123).1) "artists" = [1; 2; 3; 4]
  ∧ upsert_tvshows t stored_connection
    = (stored_connection, Raise (OperationalError "22 values for 23 columns")).
Proof. cbv zeta. repeat apply conj; vm_compute; reflexivity. Qed.

(** The reconciliation of the artists on a store with a search index: the
    row of artist 1 is flipped in [artists] and committed; the UPDATE of
    [search_fts] raises and is swallowed, the index is as it was. *)
Example reconciliation_of_indexed_artists :
  let r := mark_unavailable "artists" [2; 3; 4] "artist" "ratingKey"
             stored_artists_indexed in
  r.2 = Ok tt
  ∧ available_keys (durable r.1) "artists" = [2; 3]
  ∧ search_fts (live r.1) = search_fts (live stored_artists_indexed)
  ∧ update_fts_unavailable "artist" [2; 3; 4] (live r.1)
    = Raise (OperationalError "no such column: T.ratingKey").
Proof. cbv zeta. repeat apply conj; vm_compute; reflexivity. Qed.

(** * Further properties of the code *)

(** ** More on durations *)

Lemma round_div_60_bounds s :
  let m := round_div s 60 in 60 * m - 30 ≤ s ≤ 60 * m + 30.
Proof.
  unfold round_div. cbn zeta.
  pose proof (Z.div_mod s 60 ltac:(lia)) as Hdm.
  pose proof (Z.mod_pos_bound s 60 ltac:(lia)) as Hb.
  repeat case_match;
    repeat match goal with
           | H : (_ <? _) = true |- _ => apply Z.ltb_lt in H
           | H : (_ <? _) = false |- _ => apply Z.ltb_ge in H
           end; lia.
Qed.

(** The minute count as a function of the whole seconds [s]. *)
Lemma minutes_of_seconds s :
  0 ≤ s →
  let m := if (round_div s 60 =? 0) && (0 <? s) then 1 else round_div s 60 in
  (s = 0 → m = 0)
  ∧ (0 < s ≤ 30 → m = 1)
  ∧ (30 ≤ s → 60 * m - 30 ≤ s ≤ 60 * m + 30).
Proof.
  intros Hs. cbn zeta.
  pose proof (round_div_60_bounds s) as Hr. cbn zeta in Hr.
  destruct (round_div s 60 =? 0) eqn:E0;
    [apply Z.eqb_eq in E0|apply Z.eqb_neq in E0];
    destruct (0 <? s) eqn:Ep;
    [apply Z.ltb_lt in Ep|apply Z.ltb_ge in Ep|apply Z.ltb_lt in Ep|apply Z.ltb_ge in Ep];
    simpl; repeat split; intros; lia.
Qed.

(** X1. The minute count of a duration of [d] ms below 2^53, where the
    float quotient of the source rounds as the integers do, is the nearest
    whole minute of its whole seconds: 0 below one second, 1 from one
    second up to half a minute, and from half a minute on within 30
    seconds of the seconds. *)
Theorem duration_minutes_nearest d :
  0 ≤ d < 2 ^ 53 →
  let s := d / 1000 in
  let m := duration_minutes d in
  (s = 0 → m = 0)
  ∧ (0 < s ≤ 30 → m = 1)
  ∧ (30 ≤ s → 60 * m - 30 ≤ s ≤ 60 * m + 30).
Proof.
  intros Hd. unfold duration_minutes. apply minutes_of_seconds.
  apply Z.div_pos; lia.
Qed.

Lemma duration_minutes_nearest_witness :
  let s := 150999 / 1000 in
  let m := duration_minutes 150999 in
  (s = 0 → m = 0)
  ∧ (0 < s ≤ 30 → m = 1)
  ∧ (30 ≤ s → 60 * m - 30 ≤ s ≤ 60 * m + 30).
Proof. apply (duration_minutes_nearest 150999). split; [lia|reflexivity]. Defined.

(** X2. A longer duration never renders fewer minutes. *)
Theorem duration_minutes_monotone d1 d2 :
  0 ≤ d1 → d1 ≤ d2 → duration_minutes d1 ≤ duration_minutes d2.
Proof.
  intros H1 H12. unfold duration_minutes.
  assert (Hs : d1 / 1000 ≤ d2 / 1000) by (apply Z.div_le_mono; lia).
  assert (H0 : 0 ≤ d1 / 1000) by (apply Z.div_pos; lia).
  generalize dependent (d1 / 1000). generalize dependent (d2 / 1000).
  clear. intros s2 s1 Hs H0.
  destruct (Z.eq_dec s1 s2) as [->|Hne]; [lia|].
  destruct (minutes_of_seconds s1 H0) as (A0 & A1 & A2).
  destruct (minutes_of_seconds s2 ltac:(lia)) as (B0 & B1 & B2).
  cbn zeta in *.
  generalize dependent (if (round_div s1 60 =? 0) && (0 <? s1) then 1 else round_div s1 60).
  generalize dependent (if (round_div s2 60 =? 0) && (0 <? s2) then 1 else round_div s2 60).
  intros m2 B0 B1 B2 m1 A0 A1 A2.
  destruct (Z.eq_dec s1 0); [lia|].
  destruct (Z_lt_le_dec s1 30); destruct (Z_lt_le_dec s2 30); lia.
Qed.

Lemma duration_minutes_monotone_witness :
  duration_minutes 29000 ≤ duration_minutes 150000.
Proof. apply duration_minutes_monotone; lia. Defined.

(** ** Normalised resolutions *)

Lemma ascii_lower_idem c : ascii_lower (ascii_lower c) = ascii_lower c.
Proof. destruct c as [[] [] [] [] [] [] [] []]; reflexivity. Qed.

Lemma ascii_lower_digit c : ascii_in 48 57 c = true → ascii_lower c = c.
Proof. destruct c as [[] [] [] [] [] [] [] []]; (reflexivity || discriminate). Qed.

Lemma string_map_lower_idem s :
  string_map ascii_lower (string_map ascii_lower s) = string_map ascii_lower s.
Proof. induction s as [|c s IH]; simpl; [done|]. by rewrite ascii_lower_idem, IH. Qed.

Lemma string_app_cons c (a b : string) : String c a +:+ b = String c (a +:+ b).
Proof. reflexivity. Qed.

Lemma string_app_nil (b : string) : "" +:+ b = b.
Proof. reflexivity. Qed.

Lemma string_map_app f a b :
  string_map f (a +:+ b) = string_map f a +:+ string_map f b.
Proof.
  induction a as [|c a IH]; [done|].
  rewrite string_app_cons. simpl. by rewrite IH.
Qed.

Lemma string_forall_app p a b :
  string_forall p (a +:+ b) = string_forall p a && string_forall p b.
Proof.
  induction a as [|c a IH]; [done|].
  rewrite string_app_cons. simpl. by rewrite IH, andb_assoc.
Qed.

Lemma string_map_lower_digits s :
  string_forall (ascii_in 48 57) s = true → string_map ascii_lower s = s.
Proof.
  induction s as [|c s IH]; simpl; [done|].
  intros [Hc Hs]%andb_true_iff. by rewrite ascii_lower_digit, IH.
Qed.

Lemma digits_p_not_4k s :
  string_forall (ascii_in 48 57) s = true → String.eqb (s +:+ "p") "4k" = false.
Proof.
  intros Hs. apply String.eqb_neq.
  destruct s as [|c [|c' s]]; rewrite ?string_app_cons, ?string_app_nil;
    try discriminate.
  intros [= _ _ Hs']. destruct s; discriminate.
Qed.

(** The three ways [format_resolution] can return a string. *)
Lemma format_resolution_cases r y :
  format_resolution r = Some y →
  ∃ x, r = Some x ∧
    let l := string_map ascii_lower x in
    (String.eqb l "4k" = true ∧ y = "2160p")
    ∨ (String.eqb l "4k" = false ∧ isdigit l = true ∧ y = l +:+ "p")
    ∨ (String.eqb l "4k" = false ∧ isdigit l = false ∧ y = l).
Proof.
  destruct r as [x|]; [|done]. simpl. intros Hy. exists x. split; [done|].
  destruct (String.eqb _ "4k"); [left; split; congruence|right].
  destruct (isdigit _); [left|right]; repeat split; congruence.
Qed.

(** X3. A resolution that [format_resolution] returns is in normal form:
    formatting it again gives it back, it is not a bare string of digits,
    and it is not "4k". *)
Theorem format_resolution_normal r y :
  format_resolution r = Some y →
  format_resolution (Some y) = Some y
  ∧ isdigit y = false
  ∧ y ≠ "4k".
Proof.
  intros (x & -> & [(H4 & ->)|[(H4 & Hd & ->)|(H4 & Hd & ->)]])%format_resolution_cases.
  - split; [reflexivity|split; [reflexivity|discriminate]].
  - set (l := string_map ascii_lower x) in *.
    assert (Hdig : string_forall (ascii_in 48 57) l = true).
    { unfold isdigit in Hd. by apply andb_true_iff in Hd as [_ ?]. }
    assert (Hnd : isdigit (l +:+ "p") = false).
    { unfold isdigit. rewrite string_forall_app, Hdig. simpl. apply andb_false_r. }
    assert (Hl : string_map ascii_lower (l +:+ "p") = l +:+ "p").
    { rewrite string_map_app. by rewrite string_map_lower_digits. }
    pose proof (digits_p_not_4k l Hdig) as Hne.
    split; [|split; [done|by apply String.eqb_neq]].
    unfold format_resolution. by rewrite Hl, Hne, Hnd.
  - set (l := string_map ascii_lower x) in *.
    split; [|split; [done|by apply String.eqb_neq]].
    assert (Hl : string_map ascii_lower l = l) by apply string_map_lower_idem.
    unfold format_resolution. by rewrite Hl, H4, Hd.
Qed.

Lemma format_resolution_normal_witness :
  format_resolution (Some "1080p") = Some "1080p"
  ∧ isdigit "1080p" = false
  ∧ "1080p" ≠ "4k".
Proof. apply (format_resolution_normal (Some "1080")). reflexivity. Defined.

(** ** Fingerprints *)

Lemma string_app_assoc (a b c : string) : (a +:+ b) +:+ c = a +:+ (b +:+ c).
Proof.
  induction a as [|x a IH]; [done|]. rewrite !string_app_cons. by f_equal.
Qed.

(** X4. The fingerprint joins its fields with "|" and does not escape
    them: moving a "|"-separated piece from the end of the container to the
    front of the title leaves the fingerprint as it is, whatever the digest
    function. *)
Theorem calculate_media_hash_separator `{Externals} size_bytes duration codec resolution
    (a b title : string) year :
  calculate_media_hash size_bytes duration codec resolution
    (Some (a +:+ "|" +:+ b)) (Some title) year
  = calculate_media_hash size_bytes duration codec resolution
      (Some a) (Some (b +:+ "|" +:+ title)) year.
Proof.
  unfold calculate_media_hash. f_equal. cbn [join fmt_text].
  do 4 f_equal. by rewrite !string_app_assoc.
Qed.

(** ** Joined sets *)

Lemma string_lt_le a b : string_lt a b → String.le a b.
Proof.
  unfold string_lt, String.le, String.ltb, String.leb.
  by destruct (String.compare a b).
Qed.

Lemma string_lt_irrefl a : ¬ string_lt a a.
Proof.
  unfold string_lt, String.ltb. pose proof (String.compare_antisym a a) as H.
  by destruct (String.compare a a).
Qed.

Lemma string_lt_trans a b c : string_lt a b → string_lt b c → string_lt a c.
Proof.
  intros Hab Hbc.
  assert (Hle : String.le a c).
  { etrans; by apply string_lt_le. }
  unfold string_lt, String.ltb. unfold String.le, String.leb in Hle.
  destruct (String.compare a c) eqn:E; [|done..].
  apply String.compare_eq_iff in E as ->.
  assert (b = c) as ->.
  { apply (anti_symm String.le); by apply string_lt_le. }
  by apply string_lt_irrefl in Hab.
Qed.

Lemma string_lt_total a b : String.ltb a b = false → a ≠ b → string_lt b a.
Proof.
  unfold string_lt, String.ltb. rewrite (String.compare_antisym b a).
  destruct (String.compare a b) eqn:E; try done.
  by apply String.compare_eq_iff in E.
Qed.

Lemma elem_of_insert_sorted s x l : s ∈ insert_sorted x l ↔ s = x ∨ s ∈ l.
Proof.
  induction l as [|y l IH]; simpl.
  - rewrite list_elem_of_singleton, elem_of_nil. tauto.
  - destruct (String.eqb_spec x y) as [->|Hne].
    { rewrite elem_of_cons. tauto. }
    destruct (String.ltb x y).
    + rewrite !elem_of_cons. tauto.
    + rewrite !elem_of_cons, IH. tauto.
Qed.

Lemma insert_sorted_sorted x l :
  StronglySorted string_lt l → StronglySorted string_lt (insert_sorted x l).
Proof.
  induction 1 as [|y l Hl IH Hy]; simpl.
  - repeat constructor.
  - destruct (String.eqb_spec x y) as [->|Hne]; [by constructor|].
    destruct (String.ltb x y) eqn:Hlt.
    + constructor; [by constructor|]. constructor; [done|].
      eapply Forall_impl; [done|]. intros z Hz. by eapply string_lt_trans.
    + constructor; [done|]. apply Forall_forall.
      intros z [->|Hz]%elem_of_insert_sorted.
      * by apply string_lt_total.
      * rewrite Forall_forall in Hy. by apply Hy.
Qed.

Lemma sorted_set_sorted l : StronglySorted string_lt (sorted_set l).
Proof.
  induction l as [|x l IH]; simpl; [constructor|]. by apply insert_sorted_sorted.
Qed.

Lemma elem_of_sorted_set s l : s ∈ sorted_set l ↔ s ∈ l.
Proof.
  induction l as [|x l IH]; simpl; [done|].
  rewrite elem_of_insert_sorted, elem_of_cons, IH. tauto.
Qed.

Lemma strictly_sorted_unique l1 l2 :
  StronglySorted string_lt l1 → StronglySorted string_lt l2 →
  (∀ s, s ∈ l1 ↔ s ∈ l2) → l1 = l2.
Proof.
  intros H1. revert l2. induction H1 as [|a l1 Hs1 IH Ha]; intros l2 H2 Hel.
  - destruct l2 as [|b l2]; [done|].
    assert (b ∈ []) as Hb by (apply Hel; by left). by apply elem_of_nil in Hb.
  - destruct H2 as [|b l2 Hs2 Hb].
    { assert (a ∈ []) as Hn by (apply Hel; by left). by apply elem_of_nil in Hn. }
    rewrite Forall_forall in Ha, Hb.
    assert (a = b) as ->.
    { destruct (decide (a = b)) as [|Hne]; [done|].
      assert (a ∈ b :: l2) as [?|Ha2]%elem_of_cons by (apply Hel; by left); [done|].
      assert (b ∈ a :: l1) as [?|Hb1]%elem_of_cons by (apply Hel; by left); [by subst|].
      destruct (string_lt_irrefl a). eapply string_lt_trans; eauto. }
    f_equal. apply IH; [done|]. intros s. split; intros Hin.
    + assert (s ≠ b) by (intros ->; by apply (string_lt_irrefl b), Ha).
      assert (s ∈ b :: l2) as [?|?]%elem_of_cons by (apply Hel; by right); done.
    + assert (s ≠ b) by (intros ->; by apply (string_lt_irrefl b), Hb).
      assert (s ∈ b :: l1) as [?|?]%elem_of_cons by (apply Hel; by right); done.
Qed.

Lemma elem_of_truthy_texts s (l : list (option string)) :
  s ∈ omap (fun c : option string => if truthy_text c then c else None) l
  ↔ Some s ∈ l ∧ s ≠ "".
Proof.
  rewrite list_elem_of_omap. split.
  - intros ([x|] & Hin & Hx); simpl in Hx; [|done].
    destruct (String.eqb_spec x ""); simpl in Hx; [done|].
    injection Hx as ->. done.
  - intros [Hin Hne]. exists (Some s). split; [done|]. simpl.
    by destruct (String.eqb_spec s "").
Qed.

(** X5. The joined set of a categorical attribute (codec, resolution,
    container) depends only on which non-empty values occur among the
    children, not on their order, their number, or on children without a
    value; its entries are strictly increasing, hence without repetition. *)
Theorem join_unique_set (l1 l2 : list (option string)) :
  (∀ s, s ≠ "" → Some s ∈ l1 ↔ Some s ∈ l2) →
  join_unique l1 = join_unique l2
  ∧ StronglySorted string_lt
      (sorted_set (omap (fun c : option string => if truthy_text c then c else None) l1)).
Proof.
  intros Hset. split; [|apply sorted_set_sorted].
  unfold join_unique. f_equal.
  apply strictly_sorted_unique; [apply sorted_set_sorted..|].
  intros s. rewrite !elem_of_sorted_set, !elem_of_truthy_texts.
  specialize (Hset s). tauto.
Qed.

Lemma join_unique_set_witness :
  join_unique [Some "H264"; None; Some "AAC"; Some "H264"]
  = join_unique [Some "AAC"; Some ""; Some "H264"]
  ∧ StronglySorted string_lt
      (sorted_set
         (omap (fun c : option string => if truthy_text c then c else None)
               [Some "H264"; None; Some "AAC"; Some "H264"])).
Proof.
  apply join_unique_set. intros s Hs.
  rewrite !elem_of_cons, !elem_of_nil. split; intros H.
  - destruct H as [H|[H|[H|[H|[]]]]]; try discriminate H; injection H as ->; auto.
  - destruct H as [H|[H|[H|[]]]]; try discriminate H; injection H as ->; auto.
    done.
Defined.

(** ** Year ranges *)

Lemma list_min_le (vs : list Z) : ∀ v, list_min v vs ≤ v.
Proof.
  unfold list_min. induction vs as [|x vs IH]; intros v; simpl; [lia|].
  specialize (IH (Z.min v x)). lia.
Qed.

Lemma list_min_lower (vs : list Z) : ∀ v x, x ∈ vs → list_min v vs ≤ x.
Proof.
  unfold list_min. induction vs as [|y vs IH]; intros v x Hx; simpl.
  - by apply elem_of_nil in Hx.
  - apply elem_of_cons in Hx as [->|Hx]; [|by apply IH].
    pose proof (list_min_le vs (Z.min v y)) as H. unfold list_min in H. lia.
Qed.

Lemma list_min_elem (vs : list Z) : ∀ v, list_min v vs ∈ v :: vs.
Proof.
  unfold list_min. induction vs as [|y vs IH]; intros v; simpl.
  - apply elem_of_cons; by left.
  - specialize (IH (Z.min v y)). apply elem_of_cons in IH as [IH|IH].
    + rewrite IH. destruct (Z.min_spec v y) as [[_ ->]|[_ ->]].
      * apply elem_of_cons; by left.
      * apply elem_of_cons; right. apply elem_of_cons; by left.
    + apply elem_of_cons; right. apply elem_of_cons; by right.
Qed.

Lemma all_equal_spec (x : Z) (l : list Z) :
  all_equal x l = true ↔ ∀ y, y ∈ l → y = x.
Proof.
  unfold all_equal. rewrite forallb_forall. split.
  - intros H y Hy%list_elem_of_In. apply H in Hy. lia.
  - intros H y Hy%list_elem_of_In. apply H in Hy. lia.
Qed.

Lemma elem_of_valid_years y (years : list (option Z)) :
  y ∈ omap (fun y : option Z => if truthy_int y then y else None) years
  ↔ Some y ∈ years ∧ y ≠ 0.
Proof.
  rewrite list_elem_of_omap. split.
  - intros ([x|] & Hin & Hx); simpl in Hx; [|done].
    destruct (Z.eqb_spec x 0); simpl in Hx; [done|].
    injection Hx as ->. done.
  - intros [Hin Hne]. exists (Some y). split; [done|]. simpl.
    by destruct (Z.eqb_spec y 0).
Qed.

(** X6. The year range of a parent depends only on the smallest and the
    largest year among its children, where a missing year and the year 0
    count as no year: it is absent exactly when no child has a year,
    the single year when smallest and largest agree, and
    smallest-largest otherwise. *)
Theorem format_year_range_bounds (years : list (option Z)) :
  (format_year_range years = None ↔ ∀ y, Some y ∈ years → y = 0)
  ∧ ∀ lo hi,
      Some lo ∈ years → lo ≠ 0 → Some hi ∈ years → hi ≠ 0 →
      (∀ y, Some y ∈ years → y ≠ 0 → lo ≤ y ≤ hi) →
      format_year_range years
      = Some (if lo =? hi then str_of_int lo
              else str_of_int lo +:+ "-" +:+ str_of_int hi).
Proof.
  unfold format_year_range.
  pose proof (fun y => elem_of_valid_years y years) as Hv.
  destruct (omap _ years) as [|y ys]; split.
  - split; [|done]. intros _ z Hz. destruct (decide (z = 0)) as [|Hne]; [done|].
    assert (z ∈ @nil Z) as H%elem_of_nil by (by apply Hv). done.
  - intros lo hi Hlo Hlo0 _ _ _.
    assert (lo ∈ @nil Z) as H%elem_of_nil by (by apply Hv). done.
  - split; [by destruct (all_equal y ys)|]. intros H.
    assert (y ∈ y :: ys) as [Hy Hy0]%Hv by (by left). by apply H in Hy.
  - intros lo hi Hlo Hlo0 Hhi Hhi0 Hb.
    assert (Hin : ∀ z, z ∈ y :: ys → lo ≤ z ≤ hi).
    { intros z [Hz Hz0]%Hv. by apply Hb. }
    assert (Hlo' : lo ∈ y :: ys) by (by apply Hv).
    assert (Hhi' : hi ∈ y :: ys) by (by apply Hv).
    destruct (all_equal y ys) eqn:E.
    + rewrite all_equal_spec in E.
      assert (lo = y) as ->.
      { apply elem_of_cons in Hlo' as [|]; [done|by apply E]. }
      assert (hi = y) as ->.
      { apply elem_of_cons in Hhi' as [|]; [done|by apply E]. }
      by rewrite Z.eqb_refl.
    + assert (list_min y ys = lo) as ->.
      { pose proof (Hin _ (list_min_elem ys y)).
        apply elem_of_cons in Hlo' as [->|Hlo'].
        - pose proof (list_min_le ys y). lia.
        - pose proof (list_min_lower ys y lo Hlo'). lia. }
      assert (list_max y ys = hi) as ->.
      { pose proof (Hin _ (list_max_elem ys y)).
        apply elem_of_cons in Hhi' as [->|Hhi'].
        - pose proof (list_max_ge ys y). lia.
        - pose proof (list_max_upper ys y hi Hhi'). lia. }
      destruct (Z.eqb_spec lo hi) as [->|]; [|done].
      assert (all_equal y ys = true); [|congruence].
      apply all_equal_spec. intros z Hz.
      assert (z ∈ y :: ys) as ?%Hin by (by right).
      assert (y ∈ y :: ys) as ?%Hin by (by left). lia.
Qed.

Lemma format_year_range_bounds_witness :
  format_year_range [Some 2005; None; Some 0; Some 1999; Some 2001]
  = Some (str_of_int 1999 +:+ "-" +:+ str_of_int 2005).
Proof.
  apply (proj2 (format_year_range_bounds _) 1999 2005).
  - repeat first [by left | right].
  - done.
  - by left.
  - done.
  - intros y Hy Hy0. repeat (apply elem_of_cons in Hy as [Hy|Hy]);
      try discriminate Hy; try (injection Hy as ->; lia).
    by apply elem_of_nil in Hy.
Defined.

(** ** Reconciling twice *)

Lemma update_row_idem kc seen r :
  update_row kc seen (update_row kc seen r) = update_row kc seen r.
Proof.
  unfold update_row at 1. by rewrite selected_update_row.
Qed.

Lemma update_unavailable_idem tn kc seen d d1 :
  update_unavailable tn kc seen d = Ok d1 →
  update_unavailable tn kc seen d1 = Ok d1.
Proof.
  unfold update_unavailable. destruct (tables d !! tn) as [t|] eqn:Et; [|done].
  destruct (negb (has_column t "available")) eqn:Ha; [done|].
  destruct (_ && _) eqn:Hk; [done|]. intros [= <-]. simpl.
  rewrite lookup_insert_eq. unfold has_column in *. simpl. rewrite Ha, Hk.
  f_equal. unfold set_table, set_rows. simpl. f_equal.
  rewrite insert_insert_eq. f_equal. f_equal.
  rewrite <- map_fmap_compose. apply map_fmap_ext. intros k r _. simpl.
  apply update_row_idem.
Qed.

(** X7. Reconciling a table a second time with the same seen keys changes
    nothing: the second call has the outcome of the first and leaves the
    connection, stored and durable, exactly as the first left it. *)
Theorem mark_unavailable_idempotent table_name seen_keys library_type key_column c :
  let r := mark_unavailable table_name seen_keys library_type key_column c in
  mark_unavailable table_name seen_keys library_type key_column r.1 = r.
Proof.
  cbv zeta.
  destruct (mark_unavailable_cases table_name seen_keys library_type key_column c)
    as [(e & E & ->)|(d1 & E1 & ->)]; simpl.
  - unfold mark_unavailable, bind, execute. by rewrite E.
  - apply update_unavailable_idem in E1 as E1'.
    destruct (mark_unavailable_cases table_name seen_keys library_type key_column
                (commit (set_live c d1)))
      as [(e & E & _)|(d2 & E2 & ->)]; simpl in *; [congruence|].
    rewrite E1' in E2. by injection E2 as <-.
Qed.

(** ** The search index *)

(** X23. A call of [mark_unavailable] never changes the rows of
    [search_fts], whether it returns or raises: the UPDATE it sends to the
    contentless index raises, and the handler passes over it.  What the
    call makes durable of the index is what the connection saw of it
    before the call. *)
Theorem reconciliation_leaves_search_fts table_name seen_keys library_type key_column c :
  let r := mark_unavailable table_name seen_keys library_type key_column c in
  search_fts (live r.1) = search_fts (live c)
  ∧ (search_fts (durable r.1) = search_fts (durable c)
     ∨ search_fts (durable r.1) = search_fts (live c)).
Proof.
  cbv zeta. split; [apply mark_unavailable_search_fts|].
  destruct (mark_unavailable_cases table_name seen_keys library_type key_column c)
    as [(e & _ & ->)|(d1 & E1 & ->)]; simpl; [by left|right].
  by apply update_unavailable_frame in E1 as [_ ?].
Qed.

(** ** Retries *)

(** A timed-out call that is not the last one: the wait, then the next
    attempt. *)
Lemma fetch_with_retry_from_timed_out {A} (f : nat → call A) m w n att :
  f att = TimedOut → (att < m - 1)%nat → 0 ≤ w →
  fetch_with_retry_from f m w (S n) att
  = ((fetch_with_retry_from f m w n (S att)).1,
     (Z.of_nat att + 1) * w :: (fetch_with_retry_from f m w n (S att)).2).
Proof.
  intros Hf Hlt Hw. cbn [fetch_with_retry_from]. rewrite Hf.
  apply Nat.ltb_lt in Hlt. rewrite Hlt. cbv zeta.
  assert (((Z.of_nat att + 1) * w <? 0) = false) as -> by (apply Z.ltb_ge; nia).
  by destruct (fetch_with_retry_from f m w n (S att)).
Qed.

Lemma fetch_with_retry_from_answer {A} (f : nat → call A) m w rem :
  0 ≤ w →
  ∀ att k,
    (att + rem = m)%nat → (att ≤ k < m)%nat →
    (∀ j, (att ≤ j < k)%nat → f j = TimedOut) → f k ≠ TimedOut →
    fetch_with_retry_from f m w rem att
    = (answer (f k), (fun i => (Z.of_nat i + 1) * w) <$> seq att (k - att)).
Proof.
  intros Hw. induction rem as [|rem IH]; intros att k Hm Hk Hto Hans; [lia|].
  destruct (decide (att = k)) as [->|Hne].
  - rewrite Nat.sub_diag. cbn [fetch_with_retry_from seq fmap list_fmap].
    by destruct (f k).
  - rewrite fetch_with_retry_from_timed_out by (try done; try lia; apply Hto; lia).
    rewrite (IH (S att) k) by (try done; try lia; intros; apply Hto; lia).
    replace (k - att)%nat with (S (k - S att)) by lia. done.
Qed.

Lemma fetch_with_retry_from_gives_up {A} (f : nat → call A) m w rem :
  0 ≤ w →
  ∀ att,
    (att + rem = m)%nat →
    (∀ j, (att ≤ j < m)%nat → f j = TimedOut) →
    fetch_with_retry_from f m w rem att
    = (Ok [], (fun i => (Z.of_nat i + 1) * w) <$> seq att (rem - 1)).
Proof.
  intros Hw. induction rem as [|rem IH]; intros att Hm Hto; [done|].
  rewrite Nat.sub_succ, Nat.sub_0_r.
  destruct (decide (att < m - 1)%nat) as [Hlt|Hge].
  - rewrite fetch_with_retry_from_timed_out by (try done; apply Hto; lia).
    rewrite (IH (S att)) by (try lia; intros; apply Hto; lia).
    destruct rem as [|rem]; [lia|]. simpl. by rewrite Nat.sub_0_r.
  - assert (rem = 0%nat) as -> by lia.
    cbn [fetch_with_retry_from]. rewrite Hto by lia.
    apply Nat.ltb_nlt in Hge. by rewrite Hge.
Qed.

(** X8. With a wait that is not negative, [fetch_with_retry] hands over
    what the first call that does not time out does, among the first
    [max_retries] calls: its list, or its exception; before the attempts
    1, 2, ... it has slept [base_wait], twice [base_wait], ...  When all
    [max_retries] calls time out it returns the empty list, and it has not
    slept after the last one. *)
Theorem fetch_with_retry_first_answer {A} (fetch_func : nat → call A)
    (max_retries : nat) (base_wait : Z) :
  0 ≤ base_wait →
  (∀ k, (k < max_retries)%nat →
        (∀ j, (j < k)%nat → fetch_func j = TimedOut) →
        fetch_func k ≠ TimedOut →
        fetch_with_retry fetch_func max_retries base_wait
        = (answer (fetch_func k), waits_before k base_wait))
  ∧ ((∀ j, (j < max_retries)%nat → fetch_func j = TimedOut) →
     fetch_with_retry fetch_func max_retries base_wait
     = (Ok [], waits_before (max_retries - 1) base_wait)).
Proof.
  intros Hw. unfold fetch_with_retry, waits_before. split.
  - intros k Hk Hto Hans.
    rewrite (fetch_with_retry_from_answer _ _ _ _ Hw 0%nat k)
      by (try done; try lia; intros; apply Hto; lia).
    by rewrite Nat.sub_0_r.
  - intros Hto. apply fetch_with_retry_from_gives_up; [done|lia|].
    intros j Hj. apply Hto. lia.
Qed.

Lemma fetch_with_retry_first_answer_witness :
  fetch_with_retry
    (fun i => if (i <? 2)%nat then TimedOut else Returned [7; 8]) 3 2
  = (Ok [7; 8], [2; 4])
  ∧ fetch_with_retry (fun _ => @TimedOut Z) 3 2 = (Ok [], [2; 4]).
Proof.
  assert (0 ≤ 2) as Hw by lia.
  split.
  - apply (proj1 (fetch_with_retry_first_answer
                    (fun i => if (i <? 2)%nat then TimedOut else Returned [7; 8]) 3 2 Hw)
             2%nat).
    + lia.
    + intros j Hj. by destruct (Nat.ltb_spec j 2); [|lia].
    + done.
  - by apply (proj2 (fetch_with_retry_first_answer (fun _ => @TimedOut Z) 3 2 Hw)).
Defined.

(** A negative wait is refused by [time.sleep]: the first timeout that is
    followed by a wait ends the call with [ValueError]. *)
Example fetch_with_retry_negative_wait :
  fetch_with_retry (fun _ => @TimedOut Z) 3 (-1)
  = (Raise (ValueError "sleep length must be non-negative"), []).
Proof. reflexivity. Qed.

(** ** Image downloads *)

Lemma count_result_fold completed : ∀ st,
  let st' := fold_left count_result completed st in
  downloaded st' = downloaded st + Z.of_nat (length (filter (fun r => succeeded r = true) completed))
  ∧ failed st' = failed st + Z.of_nat (length (filter (fun r => succeeded r = false) completed)).
Proof.
  induction completed as [|r l IH]; intros st; simpl; [lia|].
  specialize (IH (count_result st r)). cbv zeta in IH. destruct IH as [-> ->].
  rewrite !filter_cons. destruct r as [[|]|e]; simpl; split; lia.
Qed.

Lemma succeeded_partition (l : list (outcome bool)) :
  (length (filter (fun r => succeeded r = true) l)
   + length (filter (fun r => succeeded r = false) l))%nat = length l.
Proof.
  induction l as [|r l IH]; [done|]. rewrite !filter_cons.
  destruct (succeeded r); simpl; lia.
Qed.

(** X9. The counters of [download_images_parallel] do not depend on the
    order in which the downloads complete: [downloaded] is the number of
    downloads that returned success, [failed] the number of all others,
    raised exceptions included, and together they account for every
    task. *)
Theorem download_images_parallel_counts (completed completed' : list (outcome bool)) :
  completed ≡ₚ completed' →
  let st := download_images_parallel completed in
  download_images_parallel completed' = st
  ∧ downloaded st = Z.of_nat (length (filter (fun r => succeeded r = true) completed))
  ∧ downloaded st + failed st = Z.of_nat (length completed).
Proof.
  assert (Hc : ∀ l,
    downloaded (download_images_parallel l)
    = Z.of_nat (length (filter (fun r => succeeded r = true) l))
    ∧ failed (download_images_parallel l)
      = Z.of_nat (length (filter (fun r => succeeded r = false) l))).
  { intros l. unfold download_images_parallel.
    pose proof (count_result_fold l {| downloaded := 0; failed := 0 |}) as H.
    destruct l; [done|]. exact H. }
  intros Hp. cbv zeta. split; [|split].
  - destruct (Hc completed) as [H1 H2], (Hc completed') as [H1' H2'].
    destruct (download_images_parallel completed),
      (download_images_parallel completed'); simpl in *.
    f_equal; [rewrite H1, H1'|rewrite H2, H2']; by rewrite Hp.
  - apply Hc.
  - destruct (Hc completed) as [-> ->].
    rewrite <- Nat2Z.inj_add. f_equal. apply succeeded_partition.
Qed.

Lemma download_images_parallel_counts_witness :
  let st := download_images_parallel [Ok true; Ok false; Raise (TypeError "x"); Ok true] in
  download_images_parallel [Ok false; Ok true; Ok true; Raise (TypeError "x")] = st
  ∧ downloaded st
    = Z.of_nat (length (filter (fun r => succeeded r = true)
                          [Ok true; Ok false; Raise (TypeError "x"); Ok true]))
  ∧ downloaded st + failed st = Z.of_nat (length [Ok true; Ok false; Raise (TypeError "x"); Ok true]).
Proof.
  apply download_images_parallel_counts.
  etrans; [apply perm_swap|]. do 2 apply perm_skip. apply perm_swap.
Defined.

(** ** What the movie pass and the show pass leave behind *)

(** What every turn of the season loop keeps, the loop keeps, whether it
    runs to its end or an exception ends it. *)
Lemma seasons_loop_keeps `{Externals} (P : tv_batch * show_acc → Prop) cfg ct ex k :
  (∀ st s, P st → P (season_turn cfg ct ex k st s).1) →
  ∀ seasons st, P st → P (seasons_loop cfg ct ex k seasons st).1.
Proof.
  intros Ht. induction seasons as [|s l IH]; intros st Hst; [done|].
  cbn [seasons_loop]. specialize (Ht st s Hst).
  destruct (season_turn cfg ct ex k st s) as [st' [[]|e]]; [by apply IH|done].
Qed.

(** The same for one show: what the append of the show key, the turns of
    the season loop and the append of the show row keep, the turn of the
    show keeps, also when an exception ends it early. *)
Lemma show_turn_keeps `{Externals} (P : tv_batch → Prop) cfg ct ex b sh :
  P (see_show b (show_ratingKey sh)) →
  (∀ st s, P st.1 → P (season_turn cfg ct ex (show_ratingKey sh) st s).1.1) →
  (∀ b1 a, P b1 → P (show_tuple cfg ct sh b1 a)) →
  P (show_turn cfg ct ex b sh).
Proof.
  intros H0 Hs Ht. unfold show_turn. cbv zeta.
  destruct (show_seasons sh) as [l|e]; [|done].
  pose proof (seasons_loop_keeps (fun st => P st.1) cfg ct ex (show_ratingKey sh) Hs l
                (see_show b (show_ratingKey sh), show_acc_init) H0) as Hl.
  destruct (seasons_loop cfg ct ex (show_ratingKey sh) l _) as [[b1 a] [[]|e]];
    simpl in Hl; [by apply Ht|done].
Qed.

Lemma collect_tvshows_keeps `{Externals} (P : tv_batch → Prop) cfg ct ex :
  (∀ b sh, P b → P (show_turn cfg ct ex b sh)) →
  ∀ shows b, P b → P (fold_left (show_turn cfg ct ex) shows b).
Proof.
  intros Ht. induction shows as [|sh l IH]; intros b Hb; [done|].
  cbn [fold_left]. by apply IH, Ht.
Qed.

(** A season whose episodes were listed does not end the loop. *)
Lemma season_turn_returns `{Externals} cfg ct ex k st s :
  listed_season s → (season_turn cfg ct ex k st s).2 = Ok tt.
Proof.
  intros [l Hl]. destruct st as [b a]. unfold season_turn, process_season.
  by rewrite Hl.
Qed.

Lemma seasons_loop_returns `{Externals} cfg ct ex k seasons : ∀ st,
  Forall listed_season seasons → (seasons_loop cfg ct ex k seasons st).2 = Ok tt.
Proof.
  induction seasons as [|s l IH]; intros st Hl; [done|].
  apply Forall_cons in Hl as [Hs Hl]. cbn [seasons_loop].
  pose proof (season_turn_returns cfg ct ex k st s Hs) as Hr.
  destruct (season_turn cfg ct ex k st s) as [st' r]. simpl in Hr. subst r.
  by apply IH.
Qed.

Lemma season_turn_shows_data `{Externals} cfg ct ex k st s :
  shows_data (season_turn cfg ct ex k st s).1.1 = shows_data st.1.
Proof.
  destruct st as [b a]. unfold season_turn.
  by destruct (process_season cfg s k ct).
Qed.




Lemma existing_hashes_cases cfg tn c :
  (∃ ex, existing_hashes cfg tn c = (c, Ok ex))
  ∨ (∃ msg, existing_hashes cfg tn c = (c, Raise (OperationalError msg))).
Proof.
  unfold existing_hashes, query, select_hashes. destruct (USE_PARALLEL cfg).
  - left. by eexists.
  - destruct (tables (live c) !! tn) as [t|]; [|right; by eexists].
    destruct (filter _ _); [left|right]; by eexists.
Qed.

Lemma executemany_insert_arity tn cols n data c :
  n ≠ length cols →
  ∃ msg, executemany_insert tn cols n data c = (c, Raise (OperationalError msg)).
Proof.
  intros Hn. unfold executemany_insert.
  destruct (tables (live c) !! tn) as [t|]; [|by eexists].
  destruct (filter _ cols); [|by eexists].
  destruct (Nat.eqb_spec n (length cols)); [done|]. by eexists.
Qed.



(** A show whose listing of seasons raised gets no row and has no season
    seen.  When no other show is listed the batch is empty, nothing is
    inserted, and the reconciliation runs: the show is kept, every stored
    season and episode is flagged. *)
Example process_tvshows_show_left_early :
  let sh := {| show_ratingKey := 10; show_title := Some "Show";
               show_contentRating := None; show_duration := None;
               seasonCount := Some 1;
               show_seasons := Raise (ValueError "seasons");
               show_meta := no_meta |} in
  let b := @collect_tvshows sample_externals sequential "now" ∅ [sh] in
  let r := @process_tvshows sample_externals sequential "now" [Fetched [sh]]
             stored_connection in
  (seen_show_keys b, seen_season_keys b, seen_episode_keys b) = ([10], [], [])
  ∧ shows_data b = []
  ∧ r.2 = Ok tt
  ∧ available_keys (durable stored_connection) "seasons" = [11]
  ∧ available_keys (durable r.1) "tv_shows" = [10]
  ∧ available_keys (durable r.1) "seasons" = []
  ∧ available_keys (durable r.1) "episodes" = [].
Proof. cbv zeta. repeat apply conj; vm_compute; reflexivity. Qed.

(** X11. Whatever the catalog returns, [process_movies] stores no movie
    and updates no movie data: all a call does to the database is what a
    reconciliation does, flip [available] from 1 to 0 in the movies table
    and in the search index.  When the batch has a row, the call ends in
    an [OperationalError] and has done nothing at all. *)
Theorem process_movies_only_flips `{Externals} cfg current_time library_all c :
  let r := process_movies cfg current_time library_all c in
  (∃ seen_keys, database_frame "movies" "ratingKey" seen_keys (live c) (live r.1))
  ∧ ∀ movies existing,
      fetch_library 3 library_all = Some movies →
      existing_hashes cfg "movies" c = (c, Ok existing) →
      movies_data (collect_movies cfg current_time existing movies) ≠ [] →
      ∃ msg, r = (c, Raise (OperationalError msg)).
Proof.
  cbv zeta. unfold process_movies.
  destruct (fetch_library 3 library_all) as [[|mv movies]|] eqn:Hf.
  - split; [|by intros ?? [= <-] _ []].
    exists []. apply mark_unavailable_live.
  - unfold bind at 1 3.
    destruct (existing_hashes_cases cfg "movies" c) as [[ex ->]|[msg ->]].
    + set (b := collect_movies cfg current_time ex (mv :: movies)).
      assert (Hb : movies_data b ≠ [] →
                   ∃ msg, (upsert_movies b ;;;
                           mark_unavailable "movies" (seen_rating_keys b) "movie"
                             "ratingKey") c = (c, Raise (OperationalError msg))).
      { intros Hb. unfold upsert_movies. destruct (movies_data b) as [|t data]; [done|].
        unfold bind.
        destruct (executemany_insert_arity "movies" movies_insert_columns 25 (t :: data) c)
          as [msg ->]; [done|]. by eexists. }
      split.
      * destruct (movies_data b) as [|t data] eqn:E.
        -- exists (seen_rating_keys b). unfold bind, upsert_movies. rewrite E. simpl.
           apply mark_unavailable_live.
        -- destruct Hb as [msg ->]; [done|]. exists []. apply database_frame_refl.
      * intros ? ? [= <-] [= <-] Hne. by apply Hb.
    + split; [exists []; apply database_frame_refl|]. by intros ?? _ [=].
  - split; [exists []; apply database_frame_refl|]. by intros ??[=].
Qed.

Lemma process_movies_only_flips_witness :
  ∃ msg, @process_movies sample_externals parallel "now" [Fetched movies_234]
           stored_movies_123
         = (stored_movies_123, Raise (OperationalError msg)).
Proof.
  apply (proj2 (@process_movies_only_flips sample_externals parallel "now"
                  [Fetched movies_234] stored_movies_123) movies_234 ∅).
  - reflexivity.
  - reflexivity.
  - vm_compute. discriminate.
Defined.

(** ** The shape of the batches *)

Lemma fits_nil cols : fits cols [].
Proof. constructor. Qed.

Lemma fits_snoc cols data (t : tuple) :
  fits cols data → length t = length cols → fits cols (data ++ [t]).
Proof. intros. apply Forall_app_2; [done|]. by apply Forall_singleton. Qed.

Lemma fits_app cols (l k : list tuple) : fits cols l → fits cols k → fits cols (l ++ k).
Proof. apply Forall_app_2. Qed.

Lemma fits_changed_only cols cfg ex i data :
  fits cols data → fits cols (changed_only cfg ex i data).
Proof.
  unfold fits, changed_only. rewrite !Forall_forall.
  intros H t [_ Ht]%list_elem_of_filter. by apply H.
Qed.

Lemma movie_turn_fits `{Externals} cfg ct ex b mv :
  fits movies_insert_columns (movies_data b) →
  fits movies_insert_columns (movies_data (movie_turn cfg ct ex b mv)).
Proof.
  intros Hb. unfold movie_turn.
  destruct (movie_media mv) as [|m ?]; [done|].
  destruct (parts m) as [|p ?]; [done|].
  destruct (_ && _); simpl; [done|]. by apply fits_snoc.
Qed.

Lemma season_step_fits `{Externals} cfg sk shk ct a ep :
  fits episodes_insert_columns (sa_episodes_data a) →
  fits episodes_insert_columns (sa_episodes_data (season_step cfg sk shk ct a ep)).
Proof.
  intros Ha. unfold season_step.
  destruct (process_episode ep sk shk ct) as [r|] eqn:E; [|done]. simpl.
  apply fits_snoc; [done|]. unfold process_episode in E.
  destruct (episode_media ep) as [|m ?]; [done|].
  destruct (parts m) as [|p ?]; [done|]. by injection E as <-.
Qed.

Lemma collect_season_fits `{Externals} cfg s shk ct l :
  fits episodes_insert_columns
    (sa_episodes_data (sr_acc (collect_season cfg s shk ct l)))
  ∧ length (sr_season_data (collect_season cfg s shk ct l))
    = length seasons_insert_columns.
Proof.
  split; [|done]. unfold collect_season. simpl.
  generalize (fits_nil episodes_insert_columns).
  change [] with (sa_episodes_data season_acc_init).
  generalize season_acc_init.
  induction l as [|ep l IH]; intros a Ha; [done|].
  simpl. apply IH. by apply season_step_fits.
Qed.

Lemma season_turn_fits `{Externals} cfg ct ex shk st s :
  fits episodes_insert_columns (episodes_data st.1) →
  fits seasons_insert_columns (seasons_data st.1) →
  fits episodes_insert_columns (episodes_data (season_turn cfg ct ex shk st s).1.1)
  ∧ fits seasons_insert_columns (seasons_data (season_turn cfg ct ex shk st s).1.1).
Proof.
  destruct st as [b a]. simpl. intros He Hs. unfold season_turn, process_season.
  destruct (season_episodes s) as [l|e]; [|done].
  destruct (collect_season_fits cfg s shk ct l) as [Hpe Hps].
  set (r := collect_season cfg s shk ct l) in *.
  cbn [fst episodes_data seasons_data see_season]. split.
  - apply fits_app; [done|]. by apply fits_changed_only.
  - apply fits_snoc; [done|]. destruct (negb _); [|done].
    unfold recalculated_season_data. by rewrite !length_insert.
Qed.

Lemma show_turn_fits `{Externals} cfg ct ex b sh :
  fits tv_shows_insert_columns (shows_data b) →
  fits seasons_insert_columns (seasons_data b) →
  fits episodes_insert_columns (episodes_data b) →
  let b' := show_turn cfg ct ex b sh in
  fits tv_shows_insert_columns (shows_data b')
  ∧ fits seasons_insert_columns (seasons_data b')
  ∧ fits episodes_insert_columns (episodes_data b').
Proof.
  intros Hsh Hs He. cbv zeta.
  apply (show_turn_keeps
           (fun b' => fits tv_shows_insert_columns (shows_data b')
                      ∧ fits seasons_insert_columns (seasons_data b')
                      ∧ fits episodes_insert_columns (episodes_data b'))).
  - done.
  - intros st s (H1 & H2 & H3).
    destruct (season_turn_fits cfg ct ex (show_ratingKey sh) st s H3 H2) as [? ?].
    by rewrite season_turn_shows_data.
  - intros b1 a (H1 & H2 & H3). repeat split; [|done..].
    by apply fits_snoc.
Qed.

Lemma track_turn_fits `{Externals} alk ark y ct a t :
  fits tracks_insert_columns (aa_tracks_data a) →
  fits tracks_insert_columns (aa_tracks_data (track_turn alk ark y ct a t)).
Proof. intros Ha. simpl. by apply fits_snoc. Qed.

Lemma process_album_fits `{Externals} al ark ct seen res sz du :
  (process_album al ark ct seen).2 = Ok (res, sz, du) →
  fits tracks_insert_columns (ar_tracks_data res)
  ∧ length (ar_album_data res) = length albums_insert_columns.
Proof.
  unfold process_album. simpl.
  destruct (join_containers _) as [cs|e]; [|done]. intros [= <- _ _]. simpl.
  split; [|done].
  match goal with |- context [fold_left ?f ?l ?a0] =>
    assert (Hg : ∀ a, fits tracks_insert_columns (aa_tracks_data a) →
                      fits tracks_insert_columns (aa_tracks_data (fold_left f l a)));
    [|apply Hg, fits_nil] end.
  induction (album_tracks al) as [|t l IH]; intros a Ha; [done|].
  simpl fold_left. apply IH. by apply track_turn_fits.
Qed.

Lemma album_turn_fits `{Externals} cfg ct ex ark st al :
  music_fits st.1 → music_fits (album_turn cfg ct ex ark st al).1.1.
Proof.
  destruct st as [b v]. intros (Har & Hal & Htr). unfold album_turn.
  pose proof (process_album_fits al ark ct (seen_track_keys b)) as Hp.
  destruct (process_album al ark ct (seen_track_keys b)) as [seen [[[res sz] du]|e]];
    simpl in *; [|done].
  destruct (Hp res sz du eq_refl) as [Ht Ha]. repeat split; [done|..].
  - by apply fits_snoc.
  - apply fits_app; [done|]. by apply fits_changed_only.
Qed.

Lemma albums_loop_fits `{Externals} cfg ct ex ark albums : ∀ st,
  music_fits st.1 → music_fits (albums_loop cfg ct ex ark albums st).1.1.
Proof.
  induction albums as [|al l IH]; intros st Hst; [done|]. simpl.
  pose proof (album_turn_fits cfg ct ex ark st al Hst) as Ht.
  destruct (album_turn cfg ct ex ark st al) as [st' [[]|e]]; [|done].
  by apply IH.
Qed.

Lemma artist_turn_fits `{Externals} cfg ct ex st ar :
  music_fits st.1 → music_fits (artist_turn cfg ct ex st ar).1.
Proof.
  destruct st as [b v]. intros Hb. unfold artist_turn.
  match goal with |- context [albums_loop cfg ct ex ?k ?l ?st] =>
    pose proof (albums_loop_fits cfg ct ex k l st Hb) as Hl;
    destruct (albums_loop cfg ct ex k l st) as [[b1 v1] [[]|e]] end; [|done].
  simpl in Hl. unfold after_albums.
  destruct (DOWNLOAD_IMAGES cfg).
  - destruct (v_album_rating_key v1), (v_album v1); try done.
    destruct (v_album_size_bytes v1), (v_filtered_tracks v1); try done.
    destruct Hl as (? & ? & ?). repeat split; [|done..]. by apply fits_snoc.
  - destruct Hl as (? & ? & ?). repeat split; [|done..]. by apply fits_snoc.
Qed.

(** X12. Every tuple the three passes put in a batch has exactly one value
    for each column its INSERT statement names: 26 for a movie, 23 for a
    show, 18 for a season, 24 for an episode, 11 for an artist, 16 for an
    album and 16 for a track, whatever the catalog holds and in every
    setting. *)
Theorem batch_tuples_fit_columns `{Externals} cfg current_time
    (existing : gmap Z value) :
  (∀ movies,
     fits movies_insert_columns
       (movies_data (collect_movies cfg current_time existing movies)))
  ∧ (∀ shows,
       let b := collect_tvshows cfg current_time existing shows in
       fits tv_shows_insert_columns (shows_data b)
       ∧ fits seasons_insert_columns (seasons_data b)
       ∧ fits episodes_insert_columns (episodes_data b))
  ∧ (∀ artists,
       let b := collect_music cfg current_time existing artists in
       fits artists_insert_columns (artists_data b)
       ∧ fits albums_insert_columns (albums_data b)
       ∧ fits tracks_insert_columns (tracks_data b)).
Proof.
  split; [|split].
  - intros movies. unfold collect_movies.
    generalize (fits_nil movies_insert_columns).
    change [] with (movies_data movie_batch_init). generalize movie_batch_init.
    induction movies as [|mv l IH]; intros b Hb; [done|].
    simpl. apply IH. by apply movie_turn_fits.
  - intros shows. cbv zeta. unfold collect_tvshows.
    assert (Hg : ∀ b,
      fits tv_shows_insert_columns (shows_data b) →
      fits seasons_insert_columns (seasons_data b) →
      fits episodes_insert_columns (episodes_data b) →
      let b' := fold_left (show_turn cfg current_time existing) shows b in
      fits tv_shows_insert_columns (shows_data b')
      ∧ fits seasons_insert_columns (seasons_data b')
      ∧ fits episodes_insert_columns (episodes_data b')).
    { induction shows as [|sh l IH]; intros b H1 H2 H3; [done|]. simpl.
      destruct (show_turn_fits cfg current_time existing b sh H1 H2 H3) as (?&?&?).
      by apply IH. }
    apply Hg; apply fits_nil.
  - intros artists. cbv zeta. unfold collect_music.
    assert (Hg : ∀ st, music_fits st.1 →
      music_fits (fold_left (artist_turn cfg current_time existing) artists st).1).
    { induction artists as [|ar l IH]; intros st Hst; [done|]. simpl.
      apply IH. by apply artist_turn_fits. }
    apply (Hg (music_batch_init, album_vars_init)). repeat split; apply fits_nil.
Qed.

(** ** The seen keys *)

Lemma collect_movies_seen_from `{Externals} cfg ct ex movies : ∀ b,
  seen_rating_keys (fold_left (movie_turn cfg ct ex) movies b)
  = seen_rating_keys b ++ playable_movie_keys movies.
Proof.
  unfold playable_movie_keys.
  induction movies as [|mv l IH]; intros b; simpl; [by rewrite app_nil_r|].
  rewrite IH, filter_cons. unfold movie_turn, playable.
  destruct (movie_media mv) as [|m ?]; [done|].
  destruct (parts m) as [|p ?]; [done|].
  destruct (_ && _); simpl; by rewrite <- app_assoc.
Qed.

Lemma process_episode_key `{Externals} ep sk shk ct :
  match process_episode ep sk shk ct with
  | Some r => playable (episode_media ep) = true
              ∧ tuple_int (er_data r) 0 = episode_ratingKey ep
  | None => playable (episode_media ep) = false
  end.
Proof.
  unfold process_episode, playable.
  destruct (episode_media ep) as [|m ?]; [done|]. by destruct (parts m).
Qed.

Lemma season_loop_keys `{Externals} cfg sk shk ct eps : ∀ a,
  tuple_keys (sa_episodes_data (fold_left (season_step cfg sk shk ct) eps a))
  = tuple_keys (sa_episodes_data a)
    ++ (episode_ratingKey <$> filter (fun ep => playable (episode_media ep) = true) eps).
Proof.
  induction eps as [|ep l IH]; intros a; simpl; [by rewrite app_nil_r|].
  rewrite IH, filter_cons. unfold season_step.
  pose proof (process_episode_key ep sk shk ct) as Hk.
  destruct (process_episode ep sk shk ct) as [r|].
  - destruct Hk as [-> Hk]. simpl. unfold tuple_keys.
    rewrite fmap_app, <- app_assoc. simpl. by rewrite Hk.
  - by rewrite Hk.
Qed.

Lemma collect_season_keys `{Externals} cfg s shk ct l :
  tuple_keys (sa_episodes_data (sr_acc (collect_season cfg s shk ct l)))
  = episode_ratingKey <$> filter (fun ep => playable (episode_media ep) = true) l
  ∧ tuple_int (sr_season_data (collect_season cfg s shk ct l)) 0 = season_ratingKey s.
Proof.
  split; [|done]. unfold collect_season. simpl. by rewrite season_loop_keys.
Qed.

Lemma season_turn_seen_shows `{Externals} cfg ct ex shk st s :
  seen_show_keys (season_turn cfg ct ex shk st s).1.1 = seen_show_keys st.1.
Proof.
  destruct st as [b a]. unfold season_turn.
  by destruct (process_season cfg s shk ct).
Qed.

(** A season whose episodes were listed: its key and the keys of its
    playable episodes are seen. *)
Lemma season_turn_seen `{Externals} cfg ct ex shk st s :
  listed_season s →
  let st' := (season_turn cfg ct ex shk st s).1 in
  seen_season_keys st'.1 = seen_season_keys st.1 ++ [season_ratingKey s]
  ∧ seen_episode_keys st'.1 = seen_episode_keys st.1 ++ playable_episode_keys s.
Proof.
  intros [l Hl]. destruct st as [b a].
  unfold season_turn, process_season, playable_episode_keys, episodes_of.
  rewrite Hl. destruct (collect_season_keys cfg s shk ct l) as [Hk _].
  unfold tuple_keys in Hk. cbv zeta.
  cbn [fst seen_season_keys seen_episode_keys see_season]. by rewrite Hk.
Qed.

Lemma seasons_loop_seen `{Externals} cfg ct ex shk seasons : ∀ st,
  Forall listed_season seasons →
  let st' := (seasons_loop cfg ct ex shk seasons st).1 in
  seen_season_keys st'.1 = seen_season_keys st.1 ++ (season_ratingKey <$> seasons)
  ∧ seen_episode_keys st'.1
    = seen_episode_keys st.1 ++ (seasons ≫= playable_episode_keys).
Proof.
  induction seasons as [|s l IH]; intros st Hl; cbn zeta.
  { cbn. by rewrite !app_nil_r. }
  apply Forall_cons in Hl as [Hs Hl]. cbn [seasons_loop].
  pose proof (season_turn_returns cfg ct ex shk st s Hs) as Hr.
  destruct (season_turn_seen cfg ct ex shk st s Hs) as [T1 T2]. cbn zeta in *.
  destruct (season_turn cfg ct ex shk st s) as [st1 r]. simpl in Hr, T1, T2. subst r.
  destruct (IH st1 Hl) as [I1 I2]. cbn zeta in *.
  by rewrite I1, I2, T1, T2, fmap_cons, bind_cons, <- !app_assoc.
Qed.

(** The key of a show is seen whatever happens next; the keys of all its
    seasons and of their playable episodes are seen when its listings
    returned. *)
Lemma show_turn_seen `{Externals} cfg ct ex b sh :
  let b' := show_turn cfg ct ex b sh in
  seen_show_keys b' = seen_show_keys b ++ [show_ratingKey sh]
  ∧ (listed sh →
     seen_season_keys b' = seen_season_keys b ++ listed_season_keys sh
     ∧ seen_episode_keys b'
       = seen_episode_keys b ++ (seasons_of sh ≫= playable_episode_keys)).
Proof.
  cbv zeta. split.
  - apply (show_turn_keeps
             (fun b' => seen_show_keys b' = seen_show_keys b ++ [show_ratingKey sh]));
      [done| |done].
    intros st s Hst. by rewrite season_turn_seen_shows.
  - intros [[l El] Hl]. unfold listed_season_keys, seasons_of in *.
    unfold show_turn. cbv zeta. rewrite El in *.
    pose proof (seasons_loop_returns cfg ct ex (show_ratingKey sh) l
                  (see_show b (show_ratingKey sh), show_acc_init) Hl) as Hr.
    destruct (seasons_loop_seen cfg ct ex (show_ratingKey sh) l
                (see_show b (show_ratingKey sh), show_acc_init) Hl) as [I1 I2].
    cbn zeta in *.
    destruct (seasons_loop cfg ct ex (show_ratingKey sh) l _) as [[b1 a] r].
    simpl in *. by subst r.
Qed.

Lemma albums_loop_seen_artists `{Externals} cfg ct ex ark albums : ∀ st,
  seen_artist_keys (albums_loop cfg ct ex ark albums st).1.1 = seen_artist_keys st.1.
Proof.
  induction albums as [|al l IH]; intros st; [done|]. simpl.
  assert (Ht : seen_artist_keys (album_turn cfg ct ex ark st al).1.1
               = seen_artist_keys st.1).
  { destruct st as [b v]. unfold album_turn.
    destruct (process_album al ark ct (seen_track_keys b)) as [seen [[[res sz] du]|e]];
      done. }
  destruct (album_turn cfg ct ex ark st al) as [st' [[]|e]]; [|done].
  by rewrite IH.
Qed.

Lemma artist_turn_seen_artists `{Externals} cfg ct ex st ar :
  seen_artist_keys (artist_turn cfg ct ex st ar).1
  = seen_artist_keys st.1 ++ [artist_ratingKey ar].
Proof.
  destruct st as [b v]. unfold artist_turn.
  match goal with |- context [albums_loop cfg ct ex ?k ?l ?st] =>
    pose proof (albums_loop_seen_artists cfg ct ex k l st) as Hl;
    destruct (albums_loop cfg ct ex k l st) as [[b1 v1] [[]|e]] end; [|done].
  simpl in Hl. unfold after_albums.
  destruct (DOWNLOAD_IMAGES cfg); [|done].
  destruct (v_album_rating_key v1), (v_album v1); try done.
  by destruct (v_album_size_bytes v1), (v_filtered_tracks v1).
Qed.

(** X13. The seen keys of a pass are read off the catalog listing alone;
    neither the settings nor the stored hashes change them, so an unchanged
    item is seen.  They are the keys of the movies that have a first media
    with a first part; of all shows, those left by an exception included;
    when the listings of every show returned, of all their seasons and of
    the episodes that have a first media with a first part; and of all
    artists, those whose processing raised included; each in the order of
    the listing. *)
Theorem seen_keys_of_listing `{Externals} cfg current_time (existing : gmap Z value) :
  (∀ movies,
     seen_rating_keys (collect_movies cfg current_time existing movies)
     = playable_movie_keys movies)
  ∧ (∀ shows,
       let b := collect_tvshows cfg current_time existing shows in
       seen_show_keys b = show_ratingKey <$> shows
       ∧ (Forall listed shows →
          seen_season_keys b = shows ≫= listed_season_keys
          ∧ seen_episode_keys b
            = shows ≫= (fun sh => seasons_of sh ≫= playable_episode_keys)))
  ∧ (∀ artists,
       seen_artist_keys (collect_music cfg current_time existing artists)
       = artist_ratingKey <$> artists).
Proof.
  split; [|split].
  - intros movies. unfold collect_movies. by rewrite collect_movies_seen_from.
  - intros shows. cbv zeta. unfold collect_tvshows.
    assert (Hg : ∀ b,
      let b' := fold_left (show_turn cfg current_time existing) shows b in
      seen_show_keys b' = seen_show_keys b ++ (show_ratingKey <$> shows)
      ∧ (Forall listed shows →
         seen_season_keys b' = seen_season_keys b ++ (shows ≫= listed_season_keys)
         ∧ seen_episode_keys b'
           = seen_episode_keys b
             ++ (shows ≫= (fun sh => seasons_of sh ≫= playable_episode_keys)))).
    { induction shows as [|sh l IH]; intros b; cbn zeta.
      { cbn. by rewrite !app_nil_r. }
      cbn [fold_left].
      destruct (IH (show_turn cfg current_time existing b sh)) as [I1 I2].
      destruct (show_turn_seen cfg current_time existing b sh) as [T1 T2].
      cbn zeta in *. split.
      - by rewrite I1, T1, fmap_cons, <- app_assoc.
      - intros [Hsh Hl]%Forall_cons.
        destruct (I2 Hl) as [-> ->]. destruct (T2 Hsh) as [-> ->].
        by rewrite !bind_cons, <- !app_assoc. }
    apply (Hg tv_batch_init).
  - intros artists. unfold collect_music.
    assert (Hg : ∀ st,
      seen_artist_keys (fold_left (artist_turn cfg current_time existing) artists st).1
      = seen_artist_keys st.1 ++ (artist_ratingKey <$> artists)).
    { induction artists as [|ar l IH]; intros st; simpl; [by rewrite app_nil_r|].
      by rewrite IH, artist_turn_seen_artists, <- app_assoc. }
    apply (Hg (music_batch_init, album_vars_init)).
Qed.

Lemma seen_keys_of_listing_witness :
  let b := @collect_tvshows sample_externals sequential "now"
             {[ 101 := VText (@hash_of_episode_101 sample_externals) ]}
             [show_30_45_60] in
  seen_season_keys b = [show_30_45_60] ≫= listed_season_keys
  ∧ seen_episode_keys b
    = [show_30_45_60] ≫= (fun sh => seasons_of sh ≫= playable_episode_keys).
Proof.
  apply (proj1 (proj2 (@seen_keys_of_listing sample_externals sequential "now"
                         {[ 101 := VText (@hash_of_episode_101 sample_externals) ]}))
           [show_30_45_60]).
  repeat constructor; by eexists.
Defined.

(** ** Rows and seen keys *)

Lemma rows_seen_nil seen : rows_seen [] seen.
Proof. intros k Hk. by apply elem_of_nil in Hk. Qed.

Lemma rows_seen_mono data seen seen' :
  rows_seen data seen → seen ⊆ seen' → rows_seen data seen'.
Proof. intros H1 H2 k Hk. by apply H2, H1. Qed.

Lemma rows_seen_snoc data seen (t : tuple) k :
  rows_seen data seen → tuple_int t 0 = k →
  rows_seen (data ++ [t]) (seen ++ [k]).
Proof.
  unfold rows_seen, tuple_keys. intros Hd <- x. rewrite fmap_app.
  intros [Hx|Hx]%elem_of_app; apply elem_of_app; [left; by apply Hd|by right].
Qed.

Lemma rows_seen_app data data' seen seen' :
  rows_seen data seen → rows_seen data' seen' →
  rows_seen (data ++ data') (seen ++ seen').
Proof.
  unfold rows_seen, tuple_keys. intros Hd Hd' x. rewrite fmap_app.
  intros [Hx|Hx]%elem_of_app; apply elem_of_app; [left; by apply Hd|right; by apply Hd'].
Qed.

Lemma rows_seen_changed_only cfg ex i data seen :
  rows_seen data seen → rows_seen (changed_only cfg ex i data) seen.
Proof.
  unfold rows_seen, tuple_keys, changed_only.
  intros Hd x (t & -> & [_ Ht]%list_elem_of_filter)%list_elem_of_fmap.
  apply Hd, list_elem_of_fmap. by exists t.
Qed.

Lemma rows_seen_self data : rows_seen data (tuple_keys data).
Proof. by intros x. Qed.

Lemma movie_turn_rows_seen `{Externals} cfg ct ex b mv :
  rows_seen (movies_data b) (seen_rating_keys b) →
  rows_seen (movies_data (movie_turn cfg ct ex b mv))
    (seen_rating_keys (movie_turn cfg ct ex b mv)).
Proof.
  intros Hb. unfold movie_turn.
  destruct (movie_media mv) as [|m ?]; [done|].
  destruct (parts m) as [|p ?]; [done|].
  destruct (_ && _); simpl.
  - eapply rows_seen_mono; [done|]. intros x Hx. apply elem_of_app. by left.
  - by apply rows_seen_snoc.
Qed.

Lemma recalculated_season_key `{Externals} (t : tuple) l :
  tuple_int (recalculated_season_data t l) 0 = tuple_int t 0.
Proof.
  unfold recalculated_season_data, tuple_int.
  by rewrite !list_lookup_insert_ne by done.
Qed.

Lemma season_turn_rows_seen `{Externals} cfg ct ex shk st s :
  tv_rows_seen st.1 → tv_rows_seen (season_turn cfg ct ex shk st s).1.1.
Proof.
  destruct st as [b a]. intros (Hsh & Hs & He).
  unfold season_turn, process_season.
  destruct (season_episodes s) as [l|e].
  - destruct (collect_season_keys cfg s shk ct l) as [_ Hk].
    set (r := collect_season cfg s shk ct l) in *.
    split; [|split]; cbn [fst shows_data seasons_data episodes_data seen_show_keys
                          seen_season_keys seen_episode_keys see_season].
    + done.
    + apply rows_seen_snoc; [done|]. destruct (negb _); [|done].
      by rewrite recalculated_season_key.
    + apply rows_seen_app; [done|]. apply rows_seen_changed_only, rows_seen_self.
  - split; [|split]; cbn [fst shows_data seasons_data episodes_data seen_show_keys
                          seen_season_keys seen_episode_keys see_season]; [done| |done].
    eapply rows_seen_mono; [done|]. intros x Hx. apply elem_of_app. by left.
Qed.

Lemma show_turn_rows_seen `{Externals} cfg ct ex b sh :
  tv_rows_seen b → tv_rows_seen (show_turn cfg ct ex b sh).
Proof.
  intros (Hsh & Hs & He).
  apply (show_turn_keeps
           (fun b' => tv_rows_seen b' ∧ show_ratingKey sh ∈ seen_show_keys b')).
  - split; [split; [|done]|].
    + eapply rows_seen_mono; [done|]. intros x Hx. apply elem_of_app. by left.
    + apply elem_of_app. right. by apply list_elem_of_singleton.
  - intros st s [Hst Hk]. split; [by apply season_turn_rows_seen|].
    by rewrite season_turn_seen_shows.
  - intros b1 a [(Hsh1 & Hs1 & He1) Hk]. split; [split; [|done]|done].
    cbn [show_tuple shows_data seen_show_keys].
    intros x. unfold tuple_keys. rewrite fmap_app.
    intros [Hx|Hx%list_elem_of_singleton]%elem_of_app; [by apply Hsh1|].
    by subst x.
Qed.

Lemma add_seen_elem seen k x : x ∈ add_seen seen k ↔ x ∈ seen ∨ x = k.
Proof.
  unfold add_seen. case_bool_decide as Hk.
  - split; [by left|]. by intros [?| ->].
  - by rewrite elem_of_app, list_elem_of_singleton.
Qed.

Lemma add_seen_NoDup seen k : NoDup seen → NoDup (add_seen seen k).
Proof.
  intros Hn. unfold add_seen. case_bool_decide as Hk; [done|].
  apply NoDup_app. split; [done|]. split; [|apply NoDup_singleton].
  intros x Hx ->%list_elem_of_singleton. done.
Qed.

Lemma add_seen_fold ks : ∀ seen,
  (∀ x, x ∈ fold_left add_seen ks seen ↔ x ∈ seen ∨ x ∈ ks)
  ∧ (NoDup seen → NoDup (fold_left add_seen ks seen)).
Proof.
  induction ks as [|k l IH]; intros seen; simpl.
  - split; [|done]. intros x. rewrite elem_of_nil. tauto.
  - destruct (IH (add_seen seen k)) as [He Hn]. split.
    + intros x. rewrite He, add_seen_elem, elem_of_cons. tauto.
    + intros Hs. by apply Hn, add_seen_NoDup.
Qed.

Lemma track_turn_seen `{Externals} alk ark y ct a t :
  aa_seen_track_keys (track_turn alk ark y ct a t)
  = add_seen (aa_seen_track_keys a) (track_ratingKey t)
  ∧ aa_tracks_data (track_turn alk ark y ct a t)
    = aa_tracks_data a ++ [default [] (last (aa_tracks_data (track_turn alk ark y ct a t)))]
  ∧ tuple_int (default [] (last (aa_tracks_data (track_turn alk ark y ct a t)))) 0
    = track_ratingKey t.
Proof.
  simpl. rewrite last_snoc. simpl. done.
Qed.

Lemma tracks_loop_seen `{Externals} alk ark y ct tracks : ∀ a,
  rows_seen (aa_tracks_data a) (aa_seen_track_keys a) →
  NoDup (aa_seen_track_keys a) →
  let a' := fold_left (track_turn alk ark y ct) tracks a in
  rows_seen (aa_tracks_data a') (aa_seen_track_keys a')
  ∧ NoDup (aa_seen_track_keys a')
  ∧ aa_seen_track_keys a ⊆ aa_seen_track_keys a'.
Proof.
  induction tracks as [|t l IH]; intros a Hr Hn; [done|]. simpl fold_left.
  destruct (track_turn_seen alk ark y ct a t) as (Hs & Hd & Hk).
  destruct (IH (track_turn alk ark y ct a t)) as (Hr' & Hn' & Hsub).
  - rewrite Hs, Hd. intros x. unfold tuple_keys. rewrite fmap_app.
    rewrite add_seen_elem.
    intros [Hx|Hx%list_elem_of_singleton]%elem_of_app; [left; by apply Hr|].
    right. by rewrite Hx, Hk.
  - rewrite Hs. by apply add_seen_NoDup.
  - split; [done|]. split; [done|]. intros x Hx. apply Hsub. rewrite Hs.
    apply add_seen_elem. by left.
Qed.

Lemma process_album_seen `{Externals} al ark ct seen :
  NoDup seen →
  let r := process_album al ark ct seen in
  NoDup r.1 ∧ seen ⊆ r.1
  ∧ ∀ res sz du, r.2 = Ok (res, sz, du) →
      rows_seen (ar_tracks_data res) r.1
      ∧ tuple_int (ar_album_data res) 0 = album_ratingKey al.
Proof.
  intros Hn. unfold process_album. cbv zeta.
  match goal with |- context [fold_left ?f ?l ?a0] =>
    pose proof (tracks_loop_seen (album_ratingKey al) ark (album_year al) ct l a0
                  (rows_seen_nil _) Hn) as Hl;
    cbv zeta in Hl; destruct Hl as (Hr & Hn' & Hsub);
    generalize dependent (fold_left f l a0) end.
  intros a Hr Hn' Hsub. simpl in *. split; [done|]. split; [done|].
  intros res sz du. destruct (join_containers _); [|done]. by intros [= <- _ _].
Qed.

Lemma album_turn_rows_seen `{Externals} cfg ct ex ark st al :
  music_rows_seen st.1 → music_rows_seen (album_turn cfg ct ex ark st al).1.1.
Proof.
  destruct st as [b v]. intros (Har & Hal & Htr & Hn). unfold album_turn.
  pose proof (process_album_seen al ark ct (seen_track_keys b) Hn) as Hp.
  cbv zeta in Hp.
  destruct (process_album al ark ct (seen_track_keys b)) as [seen [[[res sz] du]|e]];
    simpl in *; destruct Hp as (Hn' & Hsub & Hp).
  - destruct (Hp res sz du eq_refl) as [Ht Hk].
    destruct (add_seen_fold
                ((fun track_data : tuple => tuple_int track_data 0) <$> ar_tracks_data res)
                seen) as [He Hnd].
    repeat split; simpl; [done| |  |by apply Hnd].
    + by apply rows_seen_snoc.
    + intros x. unfold tuple_keys. rewrite fmap_app.
      intros [Hx|Hx]%elem_of_app; apply He.
      * left. by apply Hsub, Htr.
      * left. apply (rows_seen_changed_only cfg ex 10 _ _ Ht). exact Hx.
  - repeat split; simpl; [done| | |done].
    + eapply rows_seen_mono; [done|]. intros x Hx. apply elem_of_app. by left.
    + by eapply rows_seen_mono.
Qed.

Lemma albums_loop_rows_seen `{Externals} cfg ct ex ark albums : ∀ st,
  music_rows_seen st.1 → music_rows_seen (albums_loop cfg ct ex ark albums st).1.1.
Proof.
  induction albums as [|al l IH]; intros st Hst; [done|]. simpl.
  pose proof (album_turn_rows_seen cfg ct ex ark st al Hst) as Ht.
  destruct (album_turn cfg ct ex ark st al) as [st' [[]|e]]; [|done].
  by apply IH.
Qed.

Lemma artist_turn_rows_seen `{Externals} cfg ct ex st ar :
  music_rows_seen st.1 → music_rows_seen (artist_turn cfg ct ex st ar).1.
Proof.
  destruct st as [b v]. intros (Har & Hal & Htr & Hn). unfold artist_turn.
  match goal with |- context [albums_loop cfg ct ex ?k ?l ?st] =>
    pose proof (albums_loop_rows_seen cfg ct ex k l st) as Hl;
    pose proof (albums_loop_seen_artists cfg ct ex k l st) as Hk;
    destruct (albums_loop cfg ct ex k l st) as [[b1 v1] [[]|e]] end;
    simpl in Hl, Hk.
  2: { apply Hl. split; [|done]. eapply rows_seen_mono; [done|].
       intros x Hx. apply elem_of_app. by left. }
  destruct Hl as (Har1 & Hal1 & Htr1 & Hn1).
  { split; [|done]. eapply rows_seen_mono; [done|].
    intros x Hx. apply elem_of_app. by left. }
  assert (Hrow : ∀ t : tuple, tuple_int t 0 = artist_ratingKey ar →
                   rows_seen (artists_data b1 ++ [t]) (seen_artist_keys b1)).
  { intros t Ht x. unfold tuple_keys. rewrite fmap_app.
    intros [Hx|Hx%list_elem_of_singleton]%elem_of_app; [by apply Har1|].
    subst x. rewrite Ht, Hk. apply elem_of_app. right. by apply list_elem_of_singleton. }
  unfold after_albums. destruct (DOWNLOAD_IMAGES cfg).
  - destruct (v_album_rating_key v1), (v_album v1); try done.
    destruct (v_album_size_bytes v1), (v_filtered_tracks v1); try done.
    repeat split; simpl; try done. by apply Hrow.
  - repeat split; simpl; try done. by apply Hrow.
Qed.

Lemma collect_music_rows_seen `{Externals} cfg ct ex artists :
  music_rows_seen (collect_music cfg ct ex artists).
Proof.
  unfold collect_music.
  assert (Hg : ∀ st, music_rows_seen st.1 →
    music_rows_seen (fold_left (artist_turn cfg ct ex) artists st).1).
  { induction artists as [|ar l IH]; intros st Hst; [done|]. simpl.
    by apply IH, artist_turn_rows_seen. }
  apply (Hg (music_batch_init, album_vars_init)).
  repeat split; try apply rows_seen_nil. apply NoDup_nil_2.
Qed.

(** X14. Every row a pass puts in a batch belongs to an item the pass has
    marked seen: the key of each movie tuple is among the seen movie keys,
    and likewise for shows, seasons, episodes, artists, albums and tracks.
    The seen track keys hold no key twice, also when a track is listed on
    several albums. *)
Theorem batch_rows_are_seen `{Externals} cfg current_time (existing : gmap Z value) :
  (∀ movies,
     let b := collect_movies cfg current_time existing movies in
     rows_seen (movies_data b) (seen_rating_keys b))
  ∧ (∀ shows, tv_rows_seen (collect_tvshows cfg current_time existing shows))
  ∧ (∀ artists, music_rows_seen (collect_music cfg current_time existing artists)).
Proof.
  split; [|split].
  - intros movies. cbv zeta. unfold collect_movies.
    assert (Hg : ∀ b, rows_seen (movies_data b) (seen_rating_keys b) →
      rows_seen (movies_data (fold_left (movie_turn cfg current_time existing) movies b))
        (seen_rating_keys (fold_left (movie_turn cfg current_time existing) movies b))).
    { induction movies as [|mv l IH]; intros b Hb; [done|]. simpl.
      by apply IH, movie_turn_rows_seen. }
    apply Hg, rows_seen_nil.
  - intros shows. unfold collect_tvshows.
    assert (Hg : ∀ b, tv_rows_seen b →
      tv_rows_seen (fold_left (show_turn cfg current_time existing) shows b)).
    { induction shows as [|sh l IH]; intros b Hb; [done|]. simpl.
      by apply IH, show_turn_rows_seen. }
    apply Hg. repeat split; apply rows_seen_nil.
  - intros artists. apply collect_music_rows_seen.
Qed.

(** ** Opening a database keeps what it holds *)

Lemma table_grows_refl t : table_grows t t.
Proof. by repeat split. Qed.

Lemma grows_refl d : grows d d.
Proof.
  repeat split; [|by eauto|done..].
  intros n t Ht. exists t. split; [done|apply table_grows_refl].
Qed.

Lemma grows_trans d1 d2 d3 : grows d1 d2 → grows d2 d3 → grows d1 d3.
Proof.
  intros (T1 & F1 & I1 & V1) (T2 & F2 & I2 & V2). repeat split.
  - intros n t Ht. destruct (T1 n t Ht) as (t' & Ht' & R1 & P1 & C1).
    destruct (T2 n t' Ht') as (t'' & Ht'' & R2 & P2 & C2).
    exists t''. repeat split; [done|congruence..|by etrans].
  - intros f Hf. destruct (F1 f Hf) as (f' & Hf' & P1).
    destruct (F2 f' Hf') as (f'' & Hf'' & P2). exists f''. split; [done|by etrans].
  - by etrans.
  - by etrans.
Qed.

Lemma keeping_ret {A} (a : A) : keeping (ret a).
Proof. intros c. split; [apply grows_refl|by left]. Qed.

Lemma keeping_bind {A B} (m : db_op A) (k : A → db_op B) :
  keeping m → (∀ a, keeping (k a)) → keeping (bind m k).
Proof.
  intros Hm Hk c. unfold bind. destruct (Hm c) as [Hl Hd].
  destruct (m c) as [c1 [a|e]]; simpl in *; [|done].
  destruct (Hk a c1) as [Hl' Hd']. split; [by eapply grows_trans|].
  destruct Hd' as [->|Hd']; [done|]. right. by eapply grows_trans.
Qed.

Lemma keeping_execute stmt :
  (∀ d d', stmt d = Ok d' → grows d d') → keeping (execute stmt).
Proof.
  intros H c. unfold execute. destruct (stmt (live c)) as [d'|e] eqn:E; simpl.
  - split; [by apply H|by left].
  - split; [apply grows_refl|by left].
Qed.

Lemma keeping_commit : keeping do_commit.
Proof. intros c. simpl. split; [|right]; apply grows_refl. Qed.

Lemma keeping_except m : keeping m → keeping (except_duplicate_column m).
Proof.
  intros Hm c. unfold except_duplicate_column. specialize (Hm c).
  destruct (m c) as [c1 [[]|[msg|?|?|?|?|?|?]]]; simpl in *; try done.
  by destruct (contains _ _).
Qed.

Lemma keeping_try m : keeping m → keeping (try_operational m).
Proof.
  intros Hm c. unfold try_operational. specialize (Hm c).
  by destruct (m c) as [c1 [[]|[msg|?|?|?|?|?|?]]].
Qed.

Lemma keeping_when b m : keeping m → keeping (when b m).
Proof. destruct b; [done|]. intros _. apply keeping_ret. Qed.

Lemma set_table_grows d n t t' :
  tables d !! n = Some t → table_grows t t' → grows d (set_table d n t').
Proof.
  intros Ht Hg. repeat split; simpl; [|by eauto|done..].
  intros m tm Hm. destruct (decide (m = n)) as [->|Hne].
  - rewrite lookup_insert_eq. exists t'. split; [done|]. congruence.
  - rewrite lookup_insert_ne by done. exists tm. split; [done|apply table_grows_refl].
Qed.

Lemma alter_add_column_grows t col d d' :
  alter_add_column t col d = Ok d' → grows d d'.
Proof.
  unfold alter_add_column. destruct (tables d !! t) as [tb|] eqn:Et; [|done].
  destruct (has_column _ _); [done|]. intros [= <-].
  eapply set_table_grows; [done|]. repeat split; simpl. by apply prefix_app_r.
Qed.

Lemma create_index_grows n t col d d' :
  create_index n t col d = Ok d' → grows d d'.
Proof.
  unfold create_index. case_bool_decide; [intros [= <-]; apply grows_refl|].
  destruct (tables d !! t); [|done].
  destruct (has_column _ _); [|done]. intros [= <-].
  repeat split; simpl; [|by eauto|set_solver|done].
  intros m tm Hm. exists tm. split; [done|apply table_grows_refl].
Qed.

Lemma create_table_grows n cols pk d d' :
  create_table n cols pk d = Ok d' → grows d d'.
Proof.
  unfold create_table. destruct (tables d !! n) eqn:En; intros [= <-];
    [apply grows_refl|].
  repeat split; simpl; [|by eauto|done..].
  intros m tm Hm. rewrite lookup_insert_ne by congruence.
  exists tm. split; [done|apply table_grows_refl].
Qed.

Lemma create_search_fts_grows b d d' :
  create_search_fts b d = Ok d' → grows d d'.
Proof.
  unfold create_search_fts. destruct (search_fts d) eqn:Ef;
    [intros [= <-]; apply grows_refl|].
  destruct b; [|done]. intros [= <-]. repeat split; simpl; [|by rewrite Ef|done..].
  intros m tm Hm. exists tm. split; [done|apply table_grows_refl].
Qed.

Lemma populate_search_fts_grows ty t col y d d' :
  populate_search_fts ty t col y d = Ok d' → grows d d'.
Proof.
  unfold populate_search_fts. destruct (search_fts d) as [f|] eqn:Ef; [|done].
  destruct (tables d !! t); [|done].
  destruct (filter _ _); [|done]. intros [= <-]. repeat split; simpl; [| |done..].
  - intros m tm Hm. exists tm. split; [done|apply table_grows_refl].
  - intros f0 Hf0. rewrite Ef in Hf0. injection Hf0 as <-.
    eexists. split; [done|]. by apply prefix_app_r.
Qed.

Lemma create_schema_version_grows d d' : create_schema_version d = Ok d' → grows d d'.
Proof.
  intros [= <-]. repeat split; simpl; [|by eauto|done..].
  intros m tm Hm. exists tm. split; [done|apply table_grows_refl].
Qed.

Lemma insert_version_grows v d d' : insert_version v d = Ok d' → grows d d'.
Proof.
  unfold insert_version. destruct (_ && _); [|done].
  intros [= <-]. repeat split; simpl; [|by eauto|done|].
  - intros m tm Hm. exists tm. split; [done|apply table_grows_refl].
  - intros x Hx. apply (elem_of_with_version v (schema_version d) x). by right.
Qed.

Lemma keeping_set_schema_version v : keeping (set_schema_version v).
Proof.
  apply keeping_bind; [apply keeping_execute, create_schema_version_grows|].
  intros _. apply keeping_bind; [|intros _; apply keeping_commit].
  apply keeping_execute, insert_version_grows.
Qed.

Lemma keeping_add_columns t cols : keeping (add_columns t cols).
Proof.
  induction cols as [|col cols IH]; simpl; [apply keeping_ret|].
  apply keeping_bind; [|done].
  apply keeping_except, keeping_execute, alter_add_column_grows.
Qed.

Lemma keeping_add_hash_column t i : keeping (add_hash_column t i).
Proof.
  apply keeping_except, keeping_bind; [|intros _];
    apply keeping_execute; [apply alter_add_column_grows | apply create_index_grows].
Qed.

Lemma keeping_populate_all : keeping populate_all.
Proof.
  repeat (apply keeping_bind; [|intros _]);
    apply keeping_execute, populate_search_fts_grows.
Qed.

Lemma keeping_create_fts : keeping create_fts.
Proof. intros c. apply (keeping_execute _ (create_search_fts_grows _)). Qed.

Lemma keeping_migration_1 : keeping migration_1.
Proof.
  repeat (apply keeping_bind; [apply keeping_add_hash_column|intros _]).
  apply keeping_set_schema_version.
Qed.

Lemma keeping_migration_2 : keeping migration_2.
Proof.
  repeat (apply keeping_bind; [apply keeping_add_columns|intros _]).
  apply keeping_set_schema_version.
Qed.

Lemma keeping_migration_3 : keeping migration_3.
Proof.
  assert (Hbody : keeping migration_3_body).
  { apply keeping_bind; [apply keeping_create_fts|intros _].
    apply keeping_bind; [apply keeping_populate_all|intros _].
    apply keeping_set_schema_version. }
  intros c. unfold migration_3. destruct (Hbody c) as [Hl Hd].
  destruct (migration_3_body c) as [c1 [[]|[msg|?|?|?|?|?|?]]]; simpl in *; try done.
  destruct (_ || _); [|done].
  destruct (keeping_set_schema_version 3 c1) as [Hl' Hd'].
  split; [by eapply grows_trans|].
  destruct Hd' as [->|Hd']; [done|]. right. by eapply grows_trans.
Qed.

Lemma keeping_run_migrations cur tgt : keeping (run_migrations cur tgt).
Proof.
  unfold run_migrations. destruct (tgt <=? cur); [apply keeping_ret|].
  apply keeping_bind; [apply keeping_when, keeping_migration_1|intros _].
  apply keeping_bind; [apply keeping_when, keeping_migration_2|intros _].
  apply keeping_when, keeping_migration_3.
Qed.

Lemma keeping_create_tables : keeping create_tables.
Proof.
  repeat (apply keeping_bind; [|intros _]);
    apply keeping_execute, create_table_grows.
Qed.

Lemma keeping_create_indexes : keeping create_indexes.
Proof.
  repeat (apply keeping_bind; [|intros _]);
    apply keeping_execute, create_index_grows.
Qed.

(** X15. Opening an existing database with [init_database], without
    [rebuild], loses nothing, whether the call returns or raises half way:
    every table is still there with all its rows, its key and its columns,
    new columns coming after the old ones; [search_fts] has kept its rows,
    every index and every recorded version is still there.  This holds for
    the database the connection sees and for what has been committed. *)
Theorem init_database_keeps_data c :
  durable c = live c →
  let r := init_database false c in
  grows (live c) (live r.1) ∧ grows (durable c) (durable r.1).
Proof.
  intros Hc. cbv zeta.
  assert (H : keeping (init_database false)).
  { intros c0. unfold init_database.
    apply keeping_bind; [apply keeping_create_tables|intros _].
    apply keeping_bind; [apply keeping_create_indexes|intros _].
    apply keeping_bind; [|intros _].
    { apply keeping_try, keeping_bind;
        [apply keeping_create_fts|intros _; apply keeping_populate_all]. }
    apply keeping_bind; [apply keeping_commit|intros _].
    apply keeping_run_migrations. }
  destruct (H c) as [Hl [->|Hd]]; split; try done.
  - apply grows_refl.
  - by rewrite Hc.
Qed.

Lemma init_database_keeps_data_witness :
  let r := init_database false legacy_connection in
  grows (live legacy_connection) (live r.1)
  ∧ grows (durable legacy_connection) (durable r.1).
Proof. by apply init_database_keeps_data. Defined.

(** ** Reading back the schema version *)

Lemma stored_version_with_version_max v o :
  0 ≤ v → stored_version (with_version v o) = Z.max v (stored_version o).
Proof.
  intros Hv.
  pose proof (stored_version_with_version v o Hv) as Hge.
  assert (Hv' : v ≤ stored_version (with_version v o)).
  { apply stored_version_upper, (elem_of_with_version v o v). by left. }
  assert (Hel : stored_version (with_version v o) ∈ default [] (with_version v o)).
  { by apply (stored_version_elem (v :: _)). }
  apply elem_of_with_version in Hel as [Hel|Hel]; [lia|].
  assert (stored_version (with_version v o) ≤ stored_version o); [|lia].
  destruct o as [l|]; [|by apply elem_of_nil in Hel]. by apply stored_version_upper.
Qed.

(** X16. Writing a schema version that SQLite can bind, one below 2^63,
    and reading it back gives the version written, unless a higher one was
    on record, which then stays the current one: [set_schema_version] never
    lowers what [get_schema_version] reports.  The write returns and is
    committed. *)
Theorem schema_version_round_trip version c :
  0 ≤ version < 2 ^ 63 →
  let r := set_schema_version version c in
  r.2 = Ok tt
  ∧ get_schema_version r.1 = Z.max version (get_schema_version c)
  ∧ durable r.1 = live r.1.
Proof.
  intros [Hv Hb]. cbv zeta.
  rewrite set_schema_version_bindable
    by (split; [change (2 ^ 63) with 9223372036854775808; lia|done]).
  split; [done|]. split; [|done].
  unfold get_schema_version. simpl. by apply stored_version_with_version_max.
Qed.

Lemma schema_version_round_trip_witness :
  let r := set_schema_version 2 (set_schema_version 3 legacy_connection).1 in
  r.2 = Ok tt
  ∧ get_schema_version r.1
    = Z.max 2 (get_schema_version (set_schema_version 3 legacy_connection).1)
  ∧ durable r.1 = live r.1.
Proof. apply schema_version_round_trip. split; [lia|reflexivity]. Defined.

(** A version that does not fit in 64 bits is refused when it is bound:
    the table has been created and no version is recorded. *)
Example set_schema_version_overflow :
  let r := set_schema_version (2 ^ 63) legacy_connection in
  r.2 = Raise (OverflowError "Python int too large to convert to SQLite INTEGER")
  ∧ schema_version (live legacy_connection) = None
  ∧ schema_version (live r.1) = Some [].
Proof. cbv zeta. repeat apply conj; vm_compute; reflexivity. Qed.

(** X17. On a SQLite build without the fts5 module and a database
    without [search_fts], migration 3 does nothing but record version 3:
    the failure to create the index is recognised by its message and
    passed over, no table is touched, and the call returns. *)
Theorem migration_3_without_fts5 c :
  fts5_module c = false → search_fts (live c) = None →
  migration_3 c = set_schema_version 3 c
  ∧ (migration_3 c).2 = Ok tt
  ∧ tables (live (migration_3 c).1) = tables (live c)
  ∧ search_fts (live (migration_3 c).1) = None.
Proof.
  intros Hm Hf.
  assert (E : migration_3 c = set_schema_version 3 c).
  { unfold migration_3, migration_3_body, bind at 1, create_fts, execute,
      create_search_fts.
    rewrite Hm, Hf. reflexivity. }
  rewrite E. by repeat split.
Qed.

Lemma migration_3_without_fts5_witness :
  let c := connect_new false in
  migration_3 c = set_schema_version 3 c
  ∧ (migration_3 c).2 = Ok tt
  ∧ tables (live (migration_3 c).1) = tables (live c)
  ∧ search_fts (live (migration_3 c).1) = None.
Proof. by apply migration_3_without_fts5. Defined.

(** ** Listings that fail *)

Lemma fetch_library_none {A} n : ∀ calls : list (attempt A),
  Forall (fun a => a = Transient) (take n calls) → fetch_library n calls = None.
Proof.
  induction n as [|n IH]; intros calls Hc; [by destruct calls|].
  destruct calls as [|a calls]; [done|]. simpl in Hc.
  apply Forall_cons in Hc as [-> Hc]. simpl. by apply IH.
Qed.

Lemma fetch_library_some {A} n : ∀ (calls : list (attempt A)) a,
  fetch_library n calls = Some a →
  ∃ k, (k < n)%nat ∧ calls !! k = Some (Fetched a)
       ∧ Forall (fun x => x = Transient) (take k calls).
Proof.
  induction n as [|n IH]; intros calls a; [by destruct calls|].
  destruct calls as [|[x|] calls]; simpl; [done| |].
  - intros [= ->]. exists 0%nat. repeat split; [lia|constructor].
  - intros (k & Hk & Hl & Hf)%IH. exists (S k). repeat split; [lia|done|].
    simpl. by constructor.
Qed.

(** X18. When the first three calls of [library.all()] all time out, a
    pass returns without touching the connection: nothing is written,
    nothing is flagged unavailable, nothing is committed, whatever a fourth
    call would have returned.  Conversely a pass works on a listing only if
    one of the first three calls returned it and all calls before it timed
    out. *)
Theorem transient_failures_touch_nothing `{Externals} cfg current_time c :
  (∀ calls, Forall (fun a => a = Transient) (take 3 calls) →
            process_movies cfg current_time calls c = (c, Ok tt))
  ∧ (∀ calls, Forall (fun a => a = Transient) (take 3 calls) →
              process_tvshows cfg current_time calls c = (c, Ok tt))
  ∧ (∀ calls, Forall (fun a => a = Transient) (take 3 calls) →
              process_music cfg current_time calls c = (c, Ok tt))
  ∧ (∀ A (calls : list (attempt A)) a,
       fetch_library 3 calls = Some a →
       ∃ k, (k < 3)%nat ∧ calls !! k = Some (Fetched a)
            ∧ Forall (fun x => x = Transient) (take k calls)).
Proof.
  split; [|split; [|split]].
  - intros calls Hc. unfold process_movies. by rewrite fetch_library_none.
  - intros calls Hc. unfold process_tvshows. by rewrite fetch_library_none.
  - intros calls Hc. unfold process_music. by rewrite fetch_library_none.
  - intros A calls a. apply fetch_library_some.
Qed.

Lemma transient_failures_touch_nothing_witness :
  @process_music sample_externals parallel "now"
    [Transient; Transient; Transient; Fetched artists_234] stored_artists_123
  = (stored_artists_123, Ok tt).
Proof.
  apply (@transient_failures_touch_nothing sample_externals parallel "now"
           stored_artists_123).
  repeat constructor.
Defined.

(** ** Child listings that time out *)

Lemma albums_timed_out_nil ar : albums_timed_out ar → artist_albums ar = [].
Proof.
  intros (f & Hf & E). unfold fetch_with_retry in E.
  rewrite (fetch_with_retry_from_gives_up f 3 2 3 ltac:(lia) 0) in E
    by (try done; intros; apply Hf; lia).
  by injection E.
Qed.

Lemma artist_turn_album_free `{Externals} cfg ct ex st ar :
  artist_albums ar = [] → album_free st.1 → album_free (artist_turn cfg ct ex st ar).1.
Proof.
  destruct st as [b v]. intros Ha (H1 & H2 & H3 & H4). unfold artist_turn.
  rewrite Ha. simpl albums_loop. cbv iota beta. unfold after_albums.
  destruct (DOWNLOAD_IMAGES cfg); [|done].
  destruct (v_album_rating_key v), (v_album v); try done.
  by destruct (v_album_size_bytes v), (v_filtered_tracks v).
Qed.

Lemma collect_music_album_free `{Externals} cfg ct ex artists :
  Forall (fun ar => artist_albums ar = []) artists →
  album_free (collect_music cfg ct ex artists).
Proof.
  intros Hall. unfold collect_music.
  assert (Hg : ∀ st, album_free st.1 →
    album_free (fold_left (artist_turn cfg ct ex) artists st).1).
  { induction Hall as [|ar l Ha _ IH]; intros st Hst; [done|]. simpl.
    by apply IH, artist_turn_album_free. }
  by apply (Hg (music_batch_init, album_vars_init)).
Qed.

Lemma mark_unavailable_empty_ok tn lt kc c c' :
  mark_unavailable tn [] lt kc c = (c', Ok tt) → none_available (live c') tn.
Proof.
  intros E.
  assert (Hav : has_availability (live c) tn = true).
  { destruct (mark_unavailable_cases tn [] lt kc c) as [(e & _ & E')|(d1 & E1 & _)];
      [congruence|].
    revert E1. unfold update_unavailable, has_availability.
    destruct (tables (live c) !! tn) as [t|]; [|done].
    by destruct (has_column t "available"). }
  pose proof (mark_unavailable_empty tn lt kc c Hav) as (_ & _ & Hn).
  by rewrite E in Hn.
Qed.

(** X19. A child listing that times out three times is an empty listing
    to the pass, and the empty-result policy applies to it: when the albums
    of every artist came from a [fetch_with_retry] whose three calls timed
    out, a call of [process_music] that returns has left no album and no
    track available.  A time-out of the artist listing itself leaves the
    store untouched; a time-out one level down empties it. *)
Theorem unlisted_albums_flagged `{Externals} cfg current_time library_all artists c :
  fetch_library 3 library_all = Some artists →
  Forall albums_timed_out artists →
  let r := process_music cfg current_time library_all c in
  r.2 = Ok tt →
  none_available (live r.1) "albums" ∧ none_available (live r.1) "tracks".
Proof.
  intros Hf Hall. cbv zeta.
  assert (Hrec : ∀ seen c0 c',
    reconcile_music seen [] [] c0 = (c', Ok tt) →
    none_available (live c') "albums" ∧ none_available (live c') "tracks").
  { intros seen c0 c' E. unfold reconcile_music in E.
    apply bind_ok_inv in E as (c1 & [] & _ & E).
    apply bind_ok_inv in E as (c2 & [] & E2 & E3).
    apply mark_unavailable_empty_ok in E2.
    pose proof (none_available_other "tracks" [] "track" "ratingKey" c2 "albums") as Ho.
    rewrite E3 in Ho. split; [by apply Ho|].
    by apply mark_unavailable_empty_ok in E3. }
  destruct (process_music cfg current_time library_all c) as [c' o] eqn:E.
  simpl. intros ->. unfold process_music in E. rewrite Hf in E.
  destruct artists as [|ar artists]; [by eapply Hrec|].
  apply bind_ok_inv in E as (c1 & ex & _ & E).
  apply bind_ok_inv in E as (c2 & [] & _ & E).
  destruct (collect_music_album_free cfg current_time ex (ar :: artists))
    as (Hk & Ht & _ & _).
  { eapply Forall_impl; [done|]. apply albums_timed_out_nil. }
  rewrite Hk, Ht in E. by eapply Hrec.
Qed.

Lemma unlisted_albums_flagged_witness :
  let r := @process_music sample_externals parallel_no_images "now"
             [Fetched [sample_artist 2 []]] stored_connection in
  none_available (live r.1) "albums" ∧ none_available (live r.1) "tracks".
Proof.
  cbv zeta.
  apply (@unlisted_albums_flagged sample_externals parallel_no_images "now"
           [Fetched [sample_artist 2 []]] [sample_artist 2 []] stored_connection).
  - reflexivity.
  - constructor; [|constructor]. exists (fun _ => TimedOut). split; [done|reflexivity].
  - vm_compute. reflexivity.
Defined.

(** ** What a music pass that returns has stored *)

Lemma artist_tuple_keyed k v1 v2 v3 v4 v5 v6 v7 v8 v10 :
  keyed_available artists_insert_columns
    [VInt k; v1; v2; v3; v4; v5; v6; v7; v8; VInt 1; v10].
Proof. split; vm_compute; reflexivity. Qed.

Lemma album_tuple_keyed k v1 v2 v3 v4 v5 v6 v7 v8 v9 v10 v11 v12 v13 v15 :
  keyed_available albums_insert_columns
    [VInt k; v1; v2; v3; v4; v5; v6; v7; v8; v9; v10; v11; v12; v13; VInt 1; v15].
Proof. split; vm_compute; reflexivity. Qed.

Lemma track_tuple_keyed k v1 v2 v3 v4 v5 v6 v7 v8 v9 h v11 v12 v13 v15 :
  track_tuple_ok
    [VInt k; v1; v2; v3; v4; v5; v6; v7; v8; v9; VText h; v11; v12; v13; VInt 1; v15].
Proof.
  split; [split; vm_compute; reflexivity|].
  exists h. split; [reflexivity|]. vm_compute. reflexivity.
Qed.

Lemma tracks_loop_keyed `{Externals} alk ark y ct tracks : ∀ a,
  Forall track_tuple_ok (aa_tracks_data a) →
  Forall track_tuple_ok (aa_tracks_data (fold_left (track_turn alk ark y ct) tracks a)).
Proof.
  induction tracks as [|t l IH]; intros a Ha; [done|]. simpl fold_left.
  apply IH. simpl. apply Forall_app_2; [done|].
  apply Forall_singleton, track_tuple_keyed.
Qed.

Lemma process_album_keyed `{Externals} al ark ct seen res sz du :
  (process_album al ark ct seen).2 = Ok (res, sz, du) →
  Forall track_tuple_ok (ar_tracks_data res)
  ∧ keyed_available albums_insert_columns (ar_album_data res).
Proof.
  unfold process_album. simpl.
  destruct (join_containers _) as [cs|e]; [|done]. intros [= <- _ _]. simpl.
  split; [|apply album_tuple_keyed]. by apply tracks_loop_keyed.
Qed.

Lemma keyed_changed_only (P : tuple → Prop) cfg ex i data :
  Forall P data → Forall P (changed_only cfg ex i data).
Proof.
  unfold changed_only. rewrite !Forall_forall.
  intros Hd t [_ Ht]%list_elem_of_filter. by apply Hd.
Qed.

Lemma album_turn_keyed `{Externals} cfg ct ex ark st al :
  music_keyed st.1 → music_keyed (album_turn cfg ct ex ark st al).1.1.
Proof.
  destruct st as [b v]. intros (Har & Hal & Htr). unfold album_turn.
  pose proof (process_album_keyed al ark ct (seen_track_keys b)) as Hp.
  destruct (process_album al ark ct (seen_track_keys b)) as [seen [[[res sz] du]|e]];
    simpl in *; [|done].
  destruct (Hp res sz du eq_refl) as [Ht Ha]. repeat split; [done|..].
  - apply Forall_app_2; [done|]. by apply Forall_singleton.
  - apply Forall_app_2; [done|]. by apply keyed_changed_only.
Qed.

Lemma albums_loop_keyed `{Externals} cfg ct ex ark albums : ∀ st,
  music_keyed st.1 → music_keyed (albums_loop cfg ct ex ark albums st).1.1.
Proof.
  induction albums as [|al l IH]; intros st Hst; [done|]. simpl.
  pose proof (album_turn_keyed cfg ct ex ark st al Hst) as Ht.
  destruct (album_turn cfg ct ex ark st al) as [st' [[]|e]]; [|done].
  by apply IH.
Qed.

Lemma artist_turn_keyed `{Externals} cfg ct ex st ar :
  music_keyed st.1 → music_keyed (artist_turn cfg ct ex st ar).1.
Proof.
  destruct st as [b v]. intros Hb. unfold artist_turn.
  match goal with |- context [albums_loop cfg ct ex ?k ?l ?st] =>
    pose proof (albums_loop_keyed cfg ct ex k l st Hb) as Hl;
    destruct (albums_loop cfg ct ex k l st) as [[b1 v1] [[]|e]] end; [|done].
  simpl in Hl. destruct Hl as (? & ? & ?). unfold after_albums.
  destruct (DOWNLOAD_IMAGES cfg).
  - destruct (v_album_rating_key v1), (v_album v1); try done.
    destruct (v_album_size_bytes v1), (v_filtered_tracks v1); try done.
    repeat split; [|done..]. apply Forall_app_2; [done|].
    apply Forall_singleton, artist_tuple_keyed.
  - repeat split; [|done..]. apply Forall_app_2; [done|].
    apply Forall_singleton, artist_tuple_keyed.
Qed.

Lemma collect_music_keyed `{Externals} cfg ct ex artists :
  music_keyed (collect_music cfg ct ex artists).
Proof.
  unfold collect_music.
  assert (Hg : ∀ st, music_keyed st.1 →
    music_keyed (fold_left (artist_turn cfg ct ex) artists st).1).
  { induction artists as [|ar l IH]; intros st Hst; [done|]. simpl.
    by apply IH, artist_turn_keyed. }
  apply (Hg (music_batch_init, album_vars_init)). by repeat split.
Qed.

(** The rows of an [executemany] that returns: a row that was there is
    still there or was replaced by a row of the batch with its key, and
    every tuple of the batch has left a row of the batch under its key. *)
Lemma insert_rows_stored cols n data : ∀ t t',
  insert_rows cols n data t = (t', Ok tt) →
  columns t' = columns t ∧ primary_key t' = primary_key t
  ∧ (∀ k r, rows t !! k = Some r →
       ∃ r', rows t' !! k = Some r'
             ∧ (r' = r ∨ ∃ vals, vals ∈ data ∧ r' = row_of cols vals
                                 ∧ r' !! primary_key t = Some (VInt k)))
  ∧ (∀ vals k, vals ∈ data → row_of cols vals !! primary_key t = Some (VInt k) →
       ∃ vals', vals' ∈ data ∧ rows t' !! k = Some (row_of cols vals')
                ∧ row_of cols vals' !! primary_key t = Some (VInt k)).
Proof.
  induction data as [|v rest IH]; intros t t'; simpl.
  - intros [= <-]. repeat split.
    + intros k r Hr. exists r. split; [done|by left].
    + intros vals k Hin. by apply elem_of_nil in Hin.
  - destruct (negb _); [done|]. unfold insert_row. fold (row_of cols v).
    destruct (row_of cols v !! primary_key t) as [[|k0| |]|] eqn:Ek; try done.
    intros E. apply IH in E as (Hc & Hp & Hkeep & Hnew). simpl in *.
    split; [done|]. split; [done|]. split.
    + intros k r Hr. destruct (decide (k = k0)) as [->|Hne].
      * destruct (Hkeep k0 (row_of cols v)) as (r' & Hr' & [->|(vals & Hin & -> & Hk)]).
        { by rewrite lookup_insert_eq. }
        -- exists (row_of cols v). split; [done|]. right. exists v.
           split; [by left|done].
        -- eexists. split; [done|]. right. exists vals. split; [by right|done].
      * destruct (Hkeep k r) as (r' & Hr' & [->|(vals & Hin & -> & Hk)]).
        { by rewrite lookup_insert_ne. }
        -- exists r. split; [done|by left].
        -- eexists. split; [done|]. right. exists vals. split; [by right|done].
    + intros vals k [->|Hin]%elem_of_cons Hk.
      * rewrite Ek in Hk. injection Hk as <-.
        destruct (Hkeep k0 (row_of cols v)) as (r' & Hr' & [->|(vals & Hin & -> & Hk)]).
        { by rewrite lookup_insert_eq. }
        -- exists v. split; [by left|done].
        -- exists vals. split; [by right|done].
      * destruct (Hnew vals k Hin Hk) as (vals' & Hin' & Hr' & Hk').
        exists vals'. split; [by right|done].
Qed.

Lemma insert_if_any_stored tn cols n data c c' :
  insert_if_any tn cols n data c = (c', Ok tt) →
  keyed_by_rating_key (live c) tn →
  Forall (keyed_available cols) data →
  (∀ k, k ∈ tuple_keys data → stored_available (live c') tn k)
  ∧ (∀ m, m ≠ tn → tables (live c') !! m = tables (live c) !! m)
  ∧ keyed_by_rating_key (live c') tn.
Proof.
  intros E Hpk Hdata. unfold insert_if_any in E.
  destruct data as [|v rest]; [injection E as <-|].
  { split; [|done]. intros k Hk. by apply elem_of_nil in Hk. }
  revert E. generalize dependent (v :: rest). clear v rest. intros data Hdata.
  unfold executemany_insert.
  destruct (tables (live c) !! tn) as [t|] eqn:Et; [|done].
  destruct (filter _ cols); [|done]. destruct (negb _); [done|].
  destruct (insert_rows cols n data t) as [t' o] eqn:Ei. intros [= <- ->]. simpl.
  destruct (insert_rows_stored _ _ _ _ _ Ei) as (Hc & Hp & _ & Hnew).
  rewrite (Hpk t Et) in *. rewrite Forall_forall in Hdata.
  split; [|split].
  - intros k (vals & -> & Hin)%list_elem_of_fmap.
    destruct (Hdata vals Hin) as [Hkey Hav].
    destruct (Hnew vals _ Hin Hkey) as (vals' & Hin' & Hr' & Hk').
    exists t', (row_of cols vals'). cbn [tables set_table]. rewrite lookup_insert_eq.
    repeat split; [done..|]. by apply Hdata.
  - intros m Hm. cbn [tables set_table]. by rewrite lookup_insert_ne.
  - intros t0. cbn [tables set_table]. rewrite lookup_insert_eq. by intros [= <-].
Qed.

Lemma stored_available_tables d d' tn k :
  tables d' !! tn = tables d !! tn → stored_available d tn k → stored_available d' tn k.
Proof. intros E (t & r & Ht & H). exists t, r. by rewrite E. Qed.

Lemma mark_unavailable_keeps_seen tn seen lt c k :
  k ∈ seen → stored_available (live c) tn k →
  stored_available (live (mark_unavailable tn seen lt "ratingKey" c).1) tn k.
Proof.
  intros Hin (t & r & Ht & Hr & Hk & Hav).
  pose proof (mark_unavailable_live tn seen lt "ratingKey" c) as (_ & H2 & _).
  rewrite Ht in H2. inversion H2 as [? t' (_ & _ & Hrows) E1 E2|]; subst.
  specialize (Hrows k). rewrite Hr in Hrows.
  inversion Hrows as [? r' (_ & _ & Hsame) E3 E4|]; subst.
  exists t', r'. rewrite (Hsame k Hk Hin) in *. by repeat split.
Qed.

Lemma mark_unavailable_keeps_other tn tn' seen lt kc c k :
  tn' ≠ tn → stored_available (live c) tn' k →
  stored_available (live (mark_unavailable tn seen lt kc c).1) tn' k.
Proof.
  intros Hne. apply stored_available_tables. by apply mark_unavailable_tables.
Qed.

Lemma mark_unavailable_ok_committed tn seen lt kc c c' :
  mark_unavailable tn seen lt kc c = (c', Ok tt) → durable c' = live c'.
Proof.
  destruct (mark_unavailable_cases tn seen lt kc c)
    as [(e & _ & ->)|(d1 & _ & ->)]; [done|by intros [= <-]].
Qed.

Lemma track_tuples_keyed data :
  Forall track_tuple_ok data → Forall (keyed_available tracks_insert_columns) data.
Proof. intros Hd. eapply Forall_impl; [done|]. by intros t [? _]. Qed.

(** The steps of a call of [process_music] that returns. *)
Lemma process_music_returns `{Externals} cfg ct library_all ar artists existing c c' :
  fetch_library 3 library_all = Some (ar :: artists) →
  existing_hashes cfg "tracks" c = (c, Ok existing) →
  process_music cfg ct library_all c = (c', Ok tt) →
  let b := collect_music cfg ct existing (ar :: artists) in
  ∃ c1 c2 c3 c5 c6,
    insert_if_any "artists" artists_insert_columns 11 (artists_data b) c = (c1, Ok tt)
    ∧ insert_if_any "albums" albums_insert_columns 16 (albums_data b) c1 = (c2, Ok tt)
    ∧ insert_if_any "tracks" tracks_insert_columns 16 (tracks_data b) c2 = (c3, Ok tt)
    ∧ mark_unavailable "artists" (seen_artist_keys b) "artist" "ratingKey" (commit c3)
      = (c5, Ok tt)
    ∧ mark_unavailable "albums" (seen_album_keys b) "album" "ratingKey" c5 = (c6, Ok tt)
    ∧ mark_unavailable "tracks" (seen_track_keys b) "track" "ratingKey" c6 = (c', Ok tt).
Proof.
  intros Hf Hex E. cbv zeta. unfold process_music in E. rewrite Hf in E.
  unfold bind at 1 in E. rewrite Hex in E.
  apply bind_ok_inv in E as (c4 & [] & Hup & Hrec).
  unfold upsert_music in Hup.
  apply bind_ok_inv in Hup as (c1 & [] & H1 & Hup).
  apply bind_ok_inv in Hup as (c2 & [] & H2 & Hup).
  apply bind_ok_inv in Hup as (c3 & [] & H3 & Hup).
  injection Hup as <-.
  unfold reconcile_music in Hrec.
  apply bind_ok_inv in Hrec as (c5 & [] & M1 & Hrec).
  apply bind_ok_inv in Hrec as (c6 & [] & M2 & M3).
  by exists c1, c2, c3, c5, c6.
Qed.

(** X20. On tables keyed by [ratingKey], a call of [process_music] that
    returns has stored every artist, album and track of its batch and has
    left it available, reconciliation included: under the key of each
    tuple of the batch there is a row with that [ratingKey] and
    [available = 1], in the database the connection sees, and all of it is
    committed. *)
Theorem music_batch_ends_available `{Externals} cfg current_time library_all artists
    existing c :
  fetch_library 3 library_all = Some artists → artists ≠ [] →
  existing_hashes cfg "tracks" c = (c, Ok existing) →
  keyed_by_rating_key (live c) "artists" →
  keyed_by_rating_key (live c) "albums" →
  keyed_by_rating_key (live c) "tracks" →
  let b := collect_music cfg current_time existing artists in
  let r := process_music cfg current_time library_all c in
  r.2 = Ok tt →
  durable r.1 = live r.1
  ∧ (∀ k, k ∈ tuple_keys (artists_data b) → stored_available (live r.1) "artists" k)
  ∧ (∀ k, k ∈ tuple_keys (albums_data b) → stored_available (live r.1) "albums" k)
  ∧ (∀ k, k ∈ tuple_keys (tracks_data b) → stored_available (live r.1) "tracks" k).
Proof.
  intros Hf Hne Hex Kar Kal Ktr. cbv zeta.
  destruct (process_music cfg current_time library_all c) as [c' o] eqn:E.
  simpl. intros ->. destruct artists as [|ar artists]; [done|].
  destruct (process_music_returns _ _ _ _ _ _ _ _ Hf Hex E)
    as (c1 & c2 & c3 & c5 & c6 & H1 & H2 & H3 & M1 & M2 & M3).
  set (b := collect_music cfg current_time existing (ar :: artists)) in *.
  destruct (collect_music_keyed cfg current_time existing (ar :: artists))
    as (Dar & Dal & Dtr%track_tuples_keyed). fold b in Dar, Dal, Dtr.
  destruct (collect_music_rows_seen cfg current_time existing (ar :: artists))
    as (Sar & Sal & Str & _). fold b in Sar, Sal, Str.
  destruct (insert_if_any_stored _ _ _ _ _ _ H1 Kar Dar) as (A1 & T1 & _).
  assert (Kal1 : keyed_by_rating_key (live c1) "albums").
  { intros t. rewrite T1 by done. apply Kal. }
  destruct (insert_if_any_stored _ _ _ _ _ _ H2 Kal1 Dal) as (A2 & T2 & _).
  assert (Ktr2 : keyed_by_rating_key (live c2) "tracks").
  { intros t. rewrite T2, T1 by done. apply Ktr. }
  destruct (insert_if_any_stored _ _ _ _ _ _ H3 Ktr2 Dtr) as (A3 & T3 & _).
  split; [by eapply mark_unavailable_ok_committed|].
  pose proof (mark_unavailable_keeps_seen "artists" (seen_artist_keys b) "artist"
                (commit c3)) as G1.
  pose proof (mark_unavailable_keeps_other "artists" "albums" (seen_artist_keys b)
                "artist" "ratingKey" (commit c3)) as G1a.
  pose proof (mark_unavailable_keeps_other "artists" "tracks" (seen_artist_keys b)
                "artist" "ratingKey" (commit c3)) as G1t.
  rewrite M1 in G1, G1a, G1t. simpl in G1, G1a, G1t.
  pose proof (mark_unavailable_keeps_seen "albums" (seen_album_keys b) "album" c5) as G2.
  pose proof (mark_unavailable_keeps_other "albums" "artists" (seen_album_keys b)
                "album" "ratingKey" c5) as G2a.
  pose proof (mark_unavailable_keeps_other "albums" "tracks" (seen_album_keys b)
                "album" "ratingKey" c5) as G2t.
  rewrite M2 in G2, G2a, G2t. simpl in G2, G2a, G2t.
  pose proof (mark_unavailable_keeps_seen "tracks" (seen_track_keys b) "track" c6) as G3.
  pose proof (mark_unavailable_keeps_other "tracks" "artists" (seen_track_keys b)
                "track" "ratingKey" c6) as G3a.
  pose proof (mark_unavailable_keeps_other "tracks" "albums" (seen_track_keys b)
                "track" "ratingKey" c6) as G3l.
  rewrite M3 in G3, G3a, G3l. simpl in G3, G3a, G3l.
  split; [|split].
  - intros k Hk. apply G3a; [done|]. apply G2a; [done|]. apply G1; [by apply Sar|].
    eapply stored_available_tables; [|by apply A1].
    by rewrite T3, T2.
  - intros k Hk. apply G3l; [done|]. apply G2; [by apply Sal|]. apply G1a; [done|].
    eapply stored_available_tables; [|by apply A2]. by rewrite T3.
  - intros k Hk. apply G3; [by apply Str|]. apply G2t; [done|]. apply G1t; [done|].
    by apply A3.
Qed.

Lemma music_batch_ends_available_witness :
  let b := @collect_music sample_externals parallel "now" ∅ artists_234 in
  let r := @process_music sample_externals parallel "now" [Fetched artists_234]
             stored_artists_123 in
  durable r.1 = live r.1
  ∧ (∀ k, k ∈ tuple_keys (artists_data b) → stored_available (live r.1) "artists" k)
  ∧ (∀ k, k ∈ tuple_keys (albums_data b) → stored_available (live r.1) "albums" k)
  ∧ (∀ k, k ∈ tuple_keys (tracks_data b) → stored_available (live r.1) "tracks" k).
Proof.
  apply (@music_batch_ends_available sample_externals parallel "now"
           [Fetched artists_234] artists_234 ∅ stored_artists_123).
  - reflexivity.
  - discriminate.
  - reflexivity.
  - intros t Ht. vm_compute in Ht. injection Ht as <-. reflexivity.
  - intros t Ht. vm_compute in Ht. injection Ht as <-. reflexivity.
  - intros t Ht. vm_compute in Ht. injection Ht as <-. reflexivity.
  - vm_compute. reflexivity.
Defined.

(** ** Runs that skip nothing *)

Lemma movie_turn_all `{Externals} cfg ct (ex : gmap Z value) b mv :
  USE_PARALLEL cfg = true ∨ ex = ∅ →
  tuple_keys (movies_data b) = seen_rating_keys b →
  tuple_keys (movies_data (movie_turn cfg ct ex b mv))
  = seen_rating_keys (movie_turn cfg ct ex b mv).
Proof.
  intros Hm Hb. unfold movie_turn.
  destruct (movie_media mv) as [|m ?]; [done|].
  destruct (parts m) as [|p ?]; [done|].
  match goal with |- context [if ?g then _ else _] =>
    assert (g = false) as -> end.
  { destruct Hm as [->| ->]; [done|]. rewrite lookup_empty. apply andb_false_r. }
  simpl. unfold tuple_keys in *. by rewrite fmap_app, Hb.
Qed.

Lemma season_turn_all `{Externals} cfg ct (ex : gmap Z value) shk st s :
  USE_PARALLEL cfg = true ∨ ex = ∅ →
  tuple_keys (episodes_data st.1) = seen_episode_keys st.1 →
  tuple_keys (episodes_data (season_turn cfg ct ex shk st s).1.1)
  = seen_episode_keys (season_turn cfg ct ex shk st s).1.1.
Proof.
  intros Hm Hst. destruct st as [b a]. unfold season_turn.
  destruct (process_season cfg s shk ct) as [r|e]; [|done].
  cbn [fst episodes_data seen_episode_keys see_season] in *.
  rewrite (changed_only_all _ _ _ _ Hm). unfold tuple_keys in *.
  by rewrite fmap_app, Hst.
Qed.

Lemma show_turn_all `{Externals} cfg ct (ex : gmap Z value) b sh :
  USE_PARALLEL cfg = true ∨ ex = ∅ →
  tuple_keys (episodes_data b) = seen_episode_keys b →
  tuple_keys (episodes_data (show_turn cfg ct ex b sh))
  = seen_episode_keys (show_turn cfg ct ex b sh).
Proof.
  intros Hm Hb.
  apply (show_turn_keeps
           (fun b' => tuple_keys (episodes_data b') = seen_episode_keys b'));
    [done| |done].
  intros st s Hst. by apply season_turn_all.
Qed.

(** X21. In fast mode, and on a run that finds no stored hash, the hash
    comparison leaves nothing out: the batch of the movie pass has a tuple
    for every seen movie, and the batch of the show pass a tuple for every
    seen episode, in the order in which they were seen. *)
Theorem nothing_skipped_without_hashes `{Externals} cfg current_time
    (existing : gmap Z value) :
  USE_PARALLEL cfg = true ∨ existing = ∅ →
  (∀ movies,
     let b := collect_movies cfg current_time existing movies in
     tuple_keys (movies_data b) = seen_rating_keys b)
  ∧ (∀ shows,
       let b := collect_tvshows cfg current_time existing shows in
       tuple_keys (episodes_data b) = seen_episode_keys b).
Proof.
  intros Hm. split.
  - intros movies. cbv zeta. unfold collect_movies.
    assert (Hg : ∀ b, tuple_keys (movies_data b) = seen_rating_keys b →
      tuple_keys (movies_data (fold_left (movie_turn cfg current_time existing) movies b))
      = seen_rating_keys (fold_left (movie_turn cfg current_time existing) movies b)).
    { induction movies as [|mv l IH]; intros b Hb; [done|]. simpl.
      by apply IH, movie_turn_all. }
    by apply Hg.
  - intros shows. cbv zeta. unfold collect_tvshows.
    assert (Hg : ∀ b, tuple_keys (episodes_data b) = seen_episode_keys b →
      tuple_keys (episodes_data (fold_left (show_turn cfg current_time existing) shows b))
      = seen_episode_keys (fold_left (show_turn cfg current_time existing) shows b)).
    { induction shows as [|sh l IH]; intros b Hb; [done|]. simpl.
      by apply IH, show_turn_all. }
    by apply Hg.
Qed.

Lemma nothing_skipped_without_hashes_witness :
  let b := @collect_movies sample_externals parallel "now"
             {[ 2 := VText "x" ]} movies_234 in
  tuple_keys (movies_data b) = seen_rating_keys b.
Proof.
  apply (@nothing_skipped_without_hashes sample_externals parallel "now"
           {[ 2 := VText "x" ]}).
  by left.
Defined.

(** ** Hashes written and read back *)

Lemma insert_rows_origin cols n data : ∀ t t',
  insert_rows cols n data t = (t', Ok tt) →
  ∀ k r', rows t' !! k = Some r' →
    rows t !! k = Some r'
    ∨ ∃ vals, vals ∈ data ∧ r' = row_of cols vals
              ∧ r' !! primary_key t = Some (VInt k).
Proof.
  induction data as [|v rest IH]; intros t t'; simpl.
  - intros [= <-] k r' Hr. by left.
  - destruct (negb _); [done|]. unfold insert_row. fold (row_of cols v).
    destruct (row_of cols v !! primary_key t) as [[|k0| |]|] eqn:Ek; try done.
    intros E k r' Hr. destruct (IH _ _ E k r' Hr) as [Hold|(vals & Hin & -> & Hk)].
    + simpl in Hold. destruct (decide (k = k0)) as [->|Hne].
      * rewrite lookup_insert_eq in Hold. injection Hold as <-.
        right. exists v. split; [by left|done].
      * rewrite lookup_insert_ne in Hold by done. by left.
    + right. exists vals. split; [by right|done].
Qed.

Lemma insert_if_any_other tn cols n data c c' m :
  insert_if_any tn cols n data c = (c', Ok tt) → m ≠ tn →
  tables (live c') !! m = tables (live c) !! m.
Proof.
  intros E Hm. unfold insert_if_any in E.
  destruct data as [|v rest]; [by injection E as <-|].
  revert E. unfold executemany_insert.
  destruct (tables (live c) !! tn) as [t|]; [|done].
  destruct (filter _ cols); [|done]. destruct (negb _); [done|].
  destruct (insert_rows _ _ _ _) as [t' o]. intros [= <- _].
  cbn [live set_live tables set_table]. by rewrite lookup_insert_ne.
Qed.

Lemma insert_if_any_rows tn cols n data c c' :
  insert_if_any tn cols n data c = (c', Ok tt) → data ≠ [] →
  ∃ t t', tables (live c) !! tn = Some t
          ∧ insert_rows cols n data t = (t', Ok tt)
          ∧ tables (live c') !! tn = Some t'.
Proof.
  intros E Hne. unfold insert_if_any in E.
  destruct data as [|v rest]; [done|].
  revert E. unfold executemany_insert.
  destruct (tables (live c) !! tn) as [t|]; [|done].
  destruct (filter _ cols); [|done]. destruct (negb _); [done|].
  destruct (insert_rows _ _ _ _) as [t' o] eqn:Ei. intros [= <- ->].
  exists t, t'. cbn [live set_live tables set_table].
  by rewrite lookup_insert_eq.
Qed.

Lemma mark_unavailable_row tn seen lt c t k r :
  tables (live c) !! tn = Some t → rows t !! k = Some r →
  r !! "ratingKey" = Some (VInt k) → k ∈ seen →
  ∃ t', tables (live (mark_unavailable tn seen lt "ratingKey" c).1) !! tn = Some t'
        ∧ rows t' !! k = Some r.
Proof.
  intros Ht Hr Hk Hin.
  pose proof (mark_unavailable_live tn seen lt "ratingKey" c) as (_ & H2 & _).
  rewrite Ht in H2. inversion H2 as [? t' (_ & _ & Hrows) E1 E2|]; subst.
  specialize (Hrows k). rewrite Hr in Hrows.
  inversion Hrows as [? r' (_ & _ & Hsame) E3 E4|]; subst.
  exists t'. split; [done|]. by rewrite (Hsame k Hk Hin) in *.
Qed.

Lemma mark_unavailable_consistent tn tn' seen lt kc c :
  consistent_keys (live c) tn' →
  consistent_keys (live (mark_unavailable tn seen lt kc c).1) tn'.
Proof.
  intros Hc t' k r' Ht' Hr'.
  pose proof (mark_unavailable_live tn seen lt kc c) as (H1 & H2 & _).
  destruct (decide (tn' = tn)) as [->|Hne].
  - rewrite Ht' in H2. inversion H2 as [t ? (_ & _ & Hrows) E1 E2|]; subst.
    specialize (Hrows k). rewrite Hr' in Hrows.
    inversion Hrows as [r ? (Hcols & _) E3 E4|]; subst.
    rewrite Hcols by done. by eapply Hc.
  - rewrite H1 in Ht' by done. by eapply Hc.
Qed.

(** The keys of the pairs a SELECT of the hashes yields, for rows given
    with their keys. *)
Lemma select_pairs_keys (l : list (Z * row)) :
  (∀ k r, (k, r) ∈ l → r !! "ratingKey" = Some (VInt k)) →
  NoDup (l.*1) →
  let pairs :=
    omap (fun r : row =>
            if sql_eq_int (r !! "available") 1 then
              match r !! "ratingKey" with
              | Some (VInt k) => Some (k, cell r "mediaHash")
              | _ => None
              end
            else None) (l.*2) in
  NoDup (pairs.*1)
  ∧ ∀ k v, (k, v) ∈ pairs ↔
      ∃ r, (k, r) ∈ l ∧ sql_eq_int (r !! "available") 1 = true
           ∧ v = cell r "mediaHash".
Proof.
  induction l as [|[k0 r0] l IH]; intros Hc Hn; cbv zeta.
  { split; [constructor|]. intros k v. split.
    - by intros ?%elem_of_nil.
    - by intros (r & ?%elem_of_nil & _). }
  apply NoDup_cons in Hn as [Hk0 Hn].
  destruct IH as [IHn IHe]; [by intros; apply Hc; right|done|].
  assert (Hr0 : r0 !! "ratingKey" = Some (VInt k0)) by (apply Hc; by left).
  simpl. rewrite Hr0.
  destruct (sql_eq_int (r0 !! "available") 1) eqn:Ea; simpl.
  - split.
    + apply NoDup_cons. split; [|done].
      intros ([k v] & Hkv & Hin)%list_elem_of_fmap. simpl in Hkv. subst k.
      apply IHe in Hin as (r & Hin & _). apply Hk0.
      apply list_elem_of_fmap. by exists (k0, r).
    + intros k v. rewrite elem_of_cons, IHe. split.
      * intros [[= -> ->]|(r & Hin & Hav & ->)].
        -- exists r0. split; [by left|done].
        -- exists r. split; [by right|done].
      * intros (r & [[= -> ->]|Hin]%elem_of_cons & Hav & ->); [by left|].
        right. by exists r.
  - split; [done|]. intros k v. rewrite IHe. split.
    + intros (r & Hin & Hav & ->). exists r. split; [by right|done].
    + intros (r & [[= -> ->]|Hin]%elem_of_cons & Hav & ->); [congruence|].
      by exists r.
Qed.

Lemma select_hashes_lookup tn d m t k r :
  select_hashes tn d = Ok m → tables d !! tn = Some t →
  consistent_keys d tn → rows t !! k = Some r →
  sql_eq_int (r !! "available") 1 = true →
  m !! k = Some (cell r "mediaHash").
Proof.
  intros E Ht Hc Hr Hav. unfold select_hashes in E. rewrite Ht in E.
  destruct (filter _ _); [|done]. injection E as <-. unfold scan.
  set (l := merge_sort key_le (map_to_list (rows t))).
  assert (Hl : l ≡ₚ map_to_list (rows t)) by apply merge_sort_Permutation.
  destruct (select_pairs_keys l) as [Hn He].
  - intros k' r' Hin. rewrite Hl in Hin. apply elem_of_map_to_list in Hin.
    by eapply Hc.
  - rewrite Hl. apply NoDup_fst_map_to_list.
  - apply elem_of_list_to_map; [done|]. apply He. exists r.
    split; [|done]. rewrite Hl. by apply elem_of_map_to_list.
Qed.

Lemma tuple_keys_inj (data : list tuple) t t' :
  NoDup (tuple_keys data) → t ∈ data → t' ∈ data →
  tuple_int t 0 = tuple_int t' 0 → t = t'.
Proof.
  unfold tuple_keys. induction data as [|x l IH]; [by intros _ ?%elem_of_nil|].
  rewrite fmap_cons. intros [Hx Hn]%NoDup_cons.
  intros [->|Ht]%elem_of_cons [->|Ht']%elem_of_cons Hk; [done| | |by apply IH].
  - destruct Hx. rewrite Hk. apply list_elem_of_fmap. by exists t'.
  - destruct Hx. rewrite <- Hk. apply list_elem_of_fmap. by exists t.
Qed.

(** X22. The hash the skip test of a later run compares is the hash the
    pass has stored.  On a tracks table keyed by [ratingKey], after a call
    of [process_music] that returns and whose batch holds each track key
    once, the hashes a sequential run reads from the store make it skip
    every track that has the key and the hash of a track of that batch:
    the text at index 10 of the tuple went into [mediaHash], the row
    survived the reconciliation as available, and the SELECT finds it
    under its key. *)
Theorem stored_hash_marks_unchanged `{Externals} cfg current_time library_all artists
    existing c cfg' existing' :
  fetch_library 3 library_all = Some artists → artists ≠ [] →
  existing_hashes cfg "tracks" c = (c, Ok existing) →
  keyed_by_rating_key (live c) "tracks" →
  consistent_keys (live c) "tracks" →
  let b := collect_music cfg current_time existing artists in
  let r := process_music cfg current_time library_all c in
  NoDup (tuple_keys (tracks_data b)) →
  r.2 = Ok tt →
  USE_PARALLEL cfg' = false →
  existing_hashes cfg' "tracks" r.1 = (r.1, Ok existing') →
  ∀ t t' : tuple,
    t ∈ tracks_data b →
    tuple_int t' 0 = tuple_int t 0 → t' !! 10%nat = t !! 10%nat →
    unchanged cfg' existing' 10 t' = true.
Proof.
  intros Hf Hne Hex Ktr Ctr. cbv zeta.
  destruct (process_music cfg current_time library_all c) as [c' o] eqn:E.
  simpl. intros Hnd -> Hseq Hex' t t' Hin Hkey Hhash.
  destruct artists as [|ar artists]; [done|].
  destruct (process_music_returns _ _ _ _ _ _ _ _ Hf Hex E)
    as (c1 & c2 & c3 & c5 & c6 & H1 & H2 & H3 & M1 & M2 & M3).
  set (b := collect_music cfg current_time existing (ar :: artists)) in *.
  destruct (collect_music_keyed cfg current_time existing (ar :: artists))
    as (_ & _ & Dtr). fold b in Dtr.
  destruct (collect_music_rows_seen cfg current_time existing (ar :: artists))
    as (_ & _ & Str & _). fold b in Str.
  rewrite Forall_forall in Dtr.
  destruct (Dtr t Hin) as ([Hk Hav] & h & Hh & Hm).
  (* the tracks table before and after the insert *)
  assert (T2 : tables (live c2) !! "tracks" = tables (live c) !! "tracks").
  { rewrite (insert_if_any_other _ _ _ _ _ _ "tracks" H2) by done.
    by rewrite (insert_if_any_other _ _ _ _ _ _ "tracks" H1). }
  destruct (insert_if_any_rows _ _ _ _ _ _ H3) as (t0 & t3 & Ht0 & Hi & Ht3).
  { intros Hd. rewrite Hd in Hin. by apply elem_of_nil in Hin. }
  rewrite T2 in Ht0. pose proof (Ktr t0 Ht0) as Hpk.
  destruct (insert_rows_stored _ _ _ _ _ Hi) as (_ & _ & _ & Hnew).
  rewrite Hpk in Hnew.
  destruct (Hnew t _ Hin Hk) as (t1 & Hin1 & Hr1 & Hk1).
  assert (t1 = t) as ->.
  { apply (tuple_keys_inj (tracks_data b)); [done..|].
    destruct (Dtr t1 Hin1) as ([Hk1' _] & _). congruence. }
  assert (C3 : consistent_keys (live c3) "tracks").
  { intros tb k r. rewrite Ht3. intros [= <-] Hr.
    destruct (insert_rows_origin _ _ _ _ _ Hi k r Hr) as [Hold|(vals & _ & _ & Hkv)].
    - by eapply Ctr.
    - by rewrite Hpk in Hkv. }
  (* through the three reconciliations *)
  pose proof (mark_unavailable_tables "artists" (seen_artist_keys b) "artist"
                "ratingKey" (commit c3) "tracks") as G1.
  pose proof (mark_unavailable_consistent "artists" "tracks" (seen_artist_keys b)
                "artist" "ratingKey" (commit c3) C3) as C5.
  rewrite M1 in G1, C5. simpl in G1, C5.
  pose proof (mark_unavailable_tables "albums" (seen_album_keys b) "album"
                "ratingKey" c5 "tracks") as G2.
  pose proof (mark_unavailable_consistent "albums" "tracks" (seen_album_keys b)
                "album" "ratingKey" c5 C5) as C6.
  rewrite M2 in G2, C6. simpl in G2, C6.
  assert (Ht6 : tables (live c6) !! "tracks" = Some t3).
  { rewrite G2, G1 by done. done. }
  destruct (mark_unavailable_row "tracks" (seen_track_keys b) "track" c6 t3
              (tuple_int t 0) (row_of tracks_insert_columns t) Ht6 Hr1 Hk)
    as (tf & Htf & Hrf).
  { apply Str, list_elem_of_fmap. by exists t. }
  pose proof (mark_unavailable_consistent "tracks" "tracks" (seen_track_keys b)
                "track" "ratingKey" c6 C6) as Cf.
  rewrite M3 in Htf, Cf. simpl in Htf, Cf.
  (* the SELECT of the later run *)
  unfold existing_hashes in Hex'. rewrite Hseq in Hex'. unfold query in Hex'.
  injection Hex' as Hsel.
  pose proof (select_hashes_lookup _ _ _ _ _ _ Hsel Htf Cf Hrf) as Hlook.
  rewrite Hav in Hlook. specialize (Hlook eq_refl).
  unfold unchanged. rewrite Hseq, Hkey, Hlook. simpl.
  unfold cell. rewrite Hm. simpl.
  rewrite Hh in Hhash.
  rewrite (list_lookup_total_correct _ _ _ Hhash).
  apply lookup_lt_Some in Hhash.
  destruct (Nat.ltb_spec 10 (length t')) as [_|?]; [|lia].
  simpl. apply String.eqb_refl.
Qed.

Lemma stored_hash_marks_unchanged_witness :
  let b := @collect_music sample_externals parallel "now" ∅ artists_234 in
  let r := @process_music sample_externals parallel "now" [Fetched artists_234]
             stored_artists_123 in
  let existing' :=
    match (existing_hashes sequential "tracks" r.1).2 with
    | Ok m => m
    | Raise _ => ∅
    end in
  let t := default [] (head (tracks_data b)) in
  unchanged sequential existing' 10 t = true.
Proof.
  cbv zeta.
  apply (@stored_hash_marks_unchanged sample_externals parallel "now"
           [Fetched artists_234] artists_234 ∅ stored_artists_123 sequential _)
    with (t := default []
                 (head (tracks_data
                          (@collect_music sample_externals parallel "now" ∅
                             artists_234)))).
  - reflexivity.
  - discriminate.
  - reflexivity.
  - intros t Ht. vm_compute in Ht. injection Ht as <-. reflexivity.
  - intros t k r Ht. vm_compute in Ht. injection Ht as <-.
    intros Hr. vm_compute in Hr. discriminate.
  - apply (bool_decide_unpack (NoDup _)). vm_compute. exact I.
  - vm_compute. reflexivity.
  - reflexivity.
  - vm_compute. reflexivity.
  - vm_compute. by left.
  - reflexivity.
  - reflexivity.
Defined.
